(** * Fourier-transform option pricing: payoff transform, grids,
      characteristic functions and Plancherel pricing

    Shallow embedding of the Fourier pricing notebook of the Merton
    jump-diffusion model (function [payoff] and the driver cells that build
    the grids, sample the characteristic function and price by FFT, by
    trapezoidal integration and through the recovered density), of
    [f_Heston] from the Heston notebook, and of the closed-form and Monte
    Carlo prices of the Merton and barrier notebooks.

    Numbers.  numpy's float64 and complex128 are idealised: a finite float is
    a real number of [R], a finite complex is a pair of reals, and every
    operation is exact.  The one non-finite value that the code itself talks
    about, the result of a division by zero (the comment in [payoff] reads
    "otherwise 0/0 = NaN"), is kept: a possibly non-finite complex is an
    [option C] whose [None] is that value, and it absorbs every later
    operation.  Rounding is outside the model, and so are overflow and
    infinities, with one exception: where a value too large for a float
    makes Python raise [OverflowError] in the closed-form prices (the
    conversion of a factorial, a power of Python floats), the error is
    modelled, with the threshold taken on the exact value. *)

From Stdlib Require Import Reals Lra Lia List ZArith Bool Arith.
Import ListNotations.

Open Scope R_scope.

(** ** Complex numbers *)

Record complex : Type := mkC { Re : R; Im : R }.

Declare Scope C_scope.
Delimit Scope C_scope with C.
Bind Scope C_scope with complex.

Definition RtoC (x : R) : complex := mkC x 0.
Definition Ci : complex := mkC 0 1.
Definition C0 : complex := RtoC 0.
Definition C1 : complex := RtoC 1.

Definition Cadd (z w : complex) : complex := mkC (Re z + Re w) (Im z + Im w).
Definition Copp (z : complex) : complex := mkC (- Re z) (- Im z).
Definition Csub (z w : complex) : complex := Cadd z (Copp w).
Definition Cmul (z w : complex) : complex :=
  mkC (Re z * Re w - Im z * Im w) (Re z * Im w + Im z * Re w).
Definition Cconj (z : complex) : complex := mkC (Re z) (- Im z).
Definition Cnorm2 (z : complex) : R := Re z * Re z + Im z * Im z.
Definition Cinv (z : complex) : complex := mkC (Re z / Cnorm2 z) (- Im z / Cnorm2 z).

(** [np.exp] on a complex argument. *)
Definition Cexp (z : complex) : complex := mkC (exp (Re z) * cos (Im z)) (exp (Re z) * sin (Im z)).

(** [z**2] *)
Definition Csqr (z : complex) : complex := Cmul z z.

Infix "+" := Cadd : C_scope.
Infix "-" := Csub : C_scope.
Infix "*" := Cmul : C_scope.
Notation "- z" := (Copp z) : C_scope.

Coercion RtoC : R >-> complex.


(** Equality of complex numbers is decided as numpy's [==] does, on both
    components. *)
Definition Ceq_dec (z w : complex) : {z = w} + {z <> w}.
Proof.
  destruct z as [a b], w as [c d].
  destruct (Req_dec_T a c) as [Hac|Hac].
  - destruct (Req_dec_T b d) as [Hbd|Hbd].
    + left; subst; reflexivity.
    + right; intros H; injection H; intros; contradiction.
  - right; intros H; injection H; intros; contradiction.
Defined.

(** Modulus, principal square root ([np.sqrt], the root of non-negative
    real part), principal argument in (-pi, pi]. *)
Definition Cabs (z : complex) : R := sqrt (Cnorm2 z).

Definition Csqrt (z : complex) : complex :=
  mkC (sqrt ((Cabs z + Re z) / 2))
      ((if Rlt_dec (Im z) 0 then -1 else 1) * sqrt ((Cabs z - Re z) / 2)).

Definition Carg (z : complex) : R :=
  if Rlt_dec 0 (Re z) then atan (Im z / Re z)
  else if Rlt_dec (Re z) 0 then
         if Rle_dec 0 (Im z) then atan (Im z / Re z) + PI
         else atan (Im z / Re z) - PI
  else if Rlt_dec 0 (Im z) then PI / 2
  else if Rlt_dec (Im z) 0 then - PI / 2
  else 0.

(** ** Python exceptions

    [ZeroDivisionError] is raised by [/] on Python scalars, [ValueError] by
    [np.linspace] on a negative count and by [interp1d] outside its knots,
    [IndexError] by an item assignment outside the array.
    [ConfigurationError] is the error the specification names; it is part of
    the type so that statements about it can be written.  [OverflowError] is
    raised by the conversion of a Python integer too large for a float and by
    a power of Python floats whose result is too large, [UnboundLocalError]
    by a [return] of a variable that no branch has assigned. *)

Inductive exn : Type :=
| ZeroDivisionError
| ValueError
| IndexError
| ConfigurationError
| OverflowError
| UnboundLocalError.

Inductive result (A : Type) : Type :=
| Ok (a : A)
| Raise (e : exn).

Arguments Ok {A} a.
Arguments Raise {A} e.

Definition bind {A B : Type} (r : result A) (k : A -> result B) : result B :=
  match r with
  | Ok a => k a
  | Raise e => Raise e
  end.

Notation "x <- r ;; k" := (bind r (fun x => k))
  (at level 61, r at next level, right associativity).

(** [a / b] on Python scalars. *)
Definition pydiv (a b : R) : result R :=
  if Req_dec_T b 0 then Raise ZeroDivisionError else Ok (a / b).

(** ** Possibly non-finite complex numbers

    [None] is the non-finite value produced by an array division by zero
    (numpy warns and goes on); it absorbs. *)

Definition num : Type := option complex.

Definition fin (z : complex) : num := Some z.

Definition lift2 (f : complex -> complex -> complex) (a b : num) : num :=
  match a, b with
  | Some x, Some y => Some (f x y)
  | _, _ => None
  end.

Definition Nadd : num -> num -> num := lift2 Cadd.
Definition Nsub : num -> num -> num := lift2 Csub.
Definition Nmul : num -> num -> num := lift2 Cmul.
Definition Nexp (a : num) : num := option_map Cexp a.

Definition Ndiv (a b : num) : num :=
  match a, b with
  | Some x, Some y => if Ceq_dec y C0 then None else Some (x * Cinv y)%C
  | _, _ => None
  end.

(** [np.log] on a complex argument; [log(0)] is not finite. *)
Definition Nlog (a : num) : num :=
  match a with
  | Some z => if Ceq_dec z C0 then None else Some (mkC (ln (Cabs z)) (Carg z))
  | None => None
  end.

(** [np.log] on a real argument: minus infinity at zero and not a number
    below zero, neither of them finite. *)
Definition Rlog (x : R) : num :=
  if Rlt_dec 0 x then fin (RtoC (ln x)) else None.

Definition is_finite (a : num) : Prop := exists z, a = Some z.

(** ** Grids *)

(** [np.linspace(start, stop, num)] with [endpoint=True]: the points
    [start + i*step], the last one set to [stop]. *)
Definition linspace (start stop : R) (num : Z) : result (list R) :=
  if (num <? 0)%Z then Raise ValueError
  else
    let n := Z.to_nat num in
    let step := (stop - start) / (IZR num - 1) in
    Ok (map (fun i => if ((1 <? n) && (i =? n - 1))%nat then stop
                      else start + INR i * step)
            (seq 0 n)).

Record Grid : Type := mkGrid {
  grid_N : Z;
  grid_b : R;
  grid_dx : R;
  grid_x : list R;
  grid_dxi : R;
  grid_xi : list R
}.

(** The grid cell of the driver:
<<
  N = int(ngrid/2)
  b = xwidth/2
  dx = xwidth/ngrid
  x = dx * np.linspace(-N, N-1, 2*N)
  dxi = 2*np.pi/xwidth
  xi = dxi * np.linspace(-N, N-1, 2*N)
>>
    [int] truncates towards zero. *)
Definition build_grid (xwidth : R) (ngrid : Z) : result Grid :=
  let N := Z.quot ngrid 2 in
  let b := xwidth / 2 in
  dx <- pydiv xwidth (IZR ngrid) ;;
  px <- linspace (IZR (- N)) (IZR (N - 1)) (2 * N) ;;
  let x := map (fun p => dx * p) px in
  dxi <- pydiv (2 * PI) xwidth ;;
  pxi <- linspace (IZR (- N)) (IZR (N - 1)) (2 * N) ;;
  let xi := map (fun p => dxi * p) pxi in
  Ok (mkGrid N b dx x dxi xi).

(** The precondition that the specification puts on the grid size. *)
Definition is_power_of_two (n : Z) : Prop := exists k : nat, n = (2 ^ Z.of_nat k)%Z.

(** ** The payoff and its Fourier transform *)

(** [(S>=L).astype(int)] and the like. *)
Definition indicator {P : Prop} (d : {P} + {~ P}) : R := if d then 1 else 0.

(** [G[i] = v] *)
Fixpoint list_set {A : Type} (l : list A) (i : nat) (v : A) : result (list A) :=
  match l, i with
  | [], _ => Raise IndexError
  | _ :: t, O => Ok (v :: t)
  | h :: t, S i' => t' <- list_set t i' v ;; Ok (h :: t')
  end.

(** Integration bounds of [payoff]. *)
Definition bound_a (L K U C : R) (call : Z) : R :=
  let l := ln (L / C) in
  let k := ln (K / C) in
  let u := ln (U / C) in
  if (call =? 1)%Z then Rmax l k else Rmin k u.

Definition bound_b (L K U C : R) (call : Z) : R :=
  let l := ln (L / C) in
  let u := ln (U / C) in
  if (call =? 1)%Z then u else l.

(** The array expression assigned to [G], at one frequency [xi]:
<<
  xi_2 = alpha + 1j*xi
  G = C*((np.exp(b * (1 + xi_2)) - np.exp(a * (1 + xi_2))) / (1 + xi_2)
     - (np.exp(k + b*xi_2) - np.exp(k + a*xi_2)) / xi_2)
>> *)
Definition G_general (alpha C a b k xi : R) : num :=
  let xi_2 : complex := (RtoC alpha + Ci * RtoC xi)%C in
  Nmul (fin (RtoC C))
       (Nsub (Ndiv (fin (Cexp (RtoC b * (C1 + xi_2)) - Cexp (RtoC a * (C1 + xi_2)))%C)
                   (fin (C1 + xi_2)%C))
             (Ndiv (fin (Cexp (RtoC k + RtoC b * xi_2) - Cexp (RtoC k + RtoC a * xi_2))%C)
                   (fin xi_2))).

(** [payoff(x, xi, alpha, K, L, U, C, call)], returning [(g, G, S)].  The
    logarithms are those of positive numbers whenever [K], [L], [U] and [C]
    are positive, which the statements below assume; [K/C] on Python scalars
    raises for [C = 0]. *)
Definition payoff (x xi : list R) (alpha K L U C : R) (call : Z)
  : result (list R * list num * list R) :=
  let S := map (fun xj => C * exp xj) x in
  let g :=
    if (call =? 1)%Z then
      map (fun xj => let s := C * exp xj in
                     exp (alpha * xj) * Rmax (s - K) 0
                     * indicator (Rge_dec s L) * indicator (Rle_dec s U)) x
    else
      map (fun xj => let s := C * exp xj in
                     exp (alpha * xj) * Rmax (K - s) 0
                     * indicator (Rge_dec s L) * indicator (Rle_dec s U)) x in
  if Req_dec_T C 0 then Raise ZeroDivisionError
  else
    let k := ln (K / C) in
    let a := bound_a L K U C call in
    let b := bound_b L K U C call in
    let G := map (G_general alpha C a b k) xi in
    if Req_dec_T alpha 0 then
      G' <- list_set G (length G / 2)
              (fin (RtoC (C * (exp b - exp a - exp k * (b - a))))) ;;
      Ok (g, G', S)
    else if Req_dec_T alpha (-1) then
      G' <- list_set G (length G / 2)
              (fin (RtoC (C * (b - a + exp (k - b) - exp (k - a))))) ;;
      Ok (g, G', S)
    else Ok (g, G, S).

(** The closed form as the specification writes it, for the interval
    [[a,b]]:
    [G(xi) = scale*[(exp(b(1+alpha+i xi)) - exp(a(1+alpha+i xi)))/(1+alpha+i xi)
             - exp(k)*(exp(b(alpha+i xi)) - exp(a(alpha+i xi)))/(alpha+i xi)]]. *)
Definition G_spec (alpha scale a b k xi : R) : num :=
  let z : complex := (RtoC alpha + Ci * RtoC xi)%C in
  Nmul (fin (RtoC scale))
       (Nsub (Ndiv (fin (Cexp (RtoC b * (C1 + z)) - Cexp (RtoC a * (C1 + z)))%C)
                   (fin (C1 + z)%C))
             (Nmul (fin (RtoC (exp k)))
                   (Ndiv (fin (Cexp (RtoC b * z) - Cexp (RtoC a * z))%C)
                         (fin z)))).

(** The interval of the specification: [[max(l,k), u]] for a call,
    [[min(k,u), l]] for a put. *)
Definition spec_interval (L K U scale : R) (is_call : bool) : R * R :=
  let l := ln (L / scale) in
  let k := ln (K / scale) in
  let u := ln (U / scale) in
  if is_call then (Rmax l k, u) else (Rmin k u, l).

Definition positive_inputs (K L U C : R) : Prop :=
  0 < K /\ 0 < L /\ 0 < U /\ 0 < C.

(** ** Characteristic functions *)

(** Risk-neutral drift of the jump-diffusion driver:
    [muRN = r-q-0.5*sigma**2 - lmbda*(np.exp(mu_j + 0.5*sigma_j**2) - 1)]. *)
Definition muRN (r q sigma lmbda mu_j sigma_j : R) : R :=
  r - q - 0.5 * sigma ^ 2 - lmbda * (exp (mu_j + 0.5 * sigma_j ^ 2) - 1).

(** Characteristic exponent per unit time, at one argument [xia]:
<<
  psi = 1j*muRN*xia - 0.5*(sigma*xia)**2
        + lmbda*(np.exp(1j*mu_j*xia - 0.5*(sigma_j*xia)**2) - 1)
>> *)
Definition psi_exponent (muRN sigma lmbda mu_j sigma_j : R) (xia : complex) : complex :=
  (Ci * RtoC muRN * xia - RtoC 0.5 * Csqr (RtoC sigma * xia)
   + RtoC lmbda * (Cexp (Ci * RtoC mu_j * xia - RtoC 0.5 * Csqr (RtoC sigma_j * xia)) - C1))%C.

(** [np.exp(psi*T)] *)
Definition psi_value (muRN sigma lmbda mu_j sigma_j T : R) (xia : complex) : complex :=
  Cexp (psi_exponent muRN sigma lmbda mu_j sigma_j xia * RtoC T)%C.

(** The three samplings of the driver: [xia = xi + 1j*alpha] for the call,
    [xia = xi - 1j*alpha] for the put, [xi] itself for the density. *)
Definition psi_c (muRN sigma lmbda mu_j sigma_j T alpha : R) (xi : list R) : list complex :=
  map (fun v => psi_value muRN sigma lmbda mu_j sigma_j T (RtoC v + Ci * RtoC alpha)%C) xi.

Definition psi_p (muRN sigma lmbda mu_j sigma_j T alpha : R) (xi : list R) : list complex :=
  map (fun v => psi_value muRN sigma lmbda mu_j sigma_j T (RtoC v - Ci * RtoC alpha)%C) xi.

Definition psi (muRN sigma lmbda mu_j sigma_j T : R) (xi : list R) : list complex :=
  map (fun v => psi_value muRN sigma lmbda mu_j sigma_j T (RtoC v)) xi.

(** Modelled from the spec: the diffusion variant of the characteristic
    function, whose notebook is not among the sources.  The specification
    gives [exp(i z mu T - 1/2 z^2 sigma^2 T)] with risk-neutral drift
    [mu = r - q - 1/2 sigma^2]. *)
Definition diffusion_exponent (mu sigma T : R) (z : complex) : complex :=
  (Ci * z * RtoC mu * RtoC T - RtoC (1 / 2) * (z * z) * RtoC (sigma ^ 2) * RtoC T)%C.

Definition diffusion_drift (r q sigma : R) : R := r - q - 1 / 2 * sigma ^ 2.

Definition diffusion_cf (r q sigma T : R) (z : complex) : complex :=
  Cexp (diffusion_exponent (diffusion_drift r q sigma) sigma T z).

(** The compound-Poisson term of the specification:
    [lambda T (exp(i z mu_J - 1/2 z^2 sigma_J^2) - 1)]. *)
Definition poisson_term (lambda mu_J sigma_J T : R) (z : complex) : complex :=
  (RtoC lambda * RtoC T
   * (Cexp (Ci * z * RtoC mu_J - RtoC (1 / 2) * (z * z) * RtoC (sigma_J ^ 2)) - C1))%C.

(** The coefficient [b] of [f_Heston]: [kappa + lmbda - rho*sigma] for
    [j == 1], [kappa + lmbda] otherwise. *)
Definition Heston_b (kappa lmbda rho sigma : R) (j : Z) : R :=
  if (j =? 1)%Z then kappa + lmbda - rho * sigma else kappa + lmbda.

(** Heston characteristic function [f_Heston(phi, S0, v0, T, r, q, kappa,
    theta, sigma, rho, lmbda, j)].  [d] and [g] are numpy complex values, so
    the division in [g] does not raise; [a / sigma**2] is a division of
    Python floats and raises for [sigma = 0]. *)
Definition f_Heston (phi S0 v0 T r q kappa theta sigma rho lmbda : R) (j : Z)
  : result num :=
  let u := if (j =? 1)%Z then 0.5 else -0.5 in
  let b := Heston_b kappa lmbda rho sigma j in
  let a := kappa * theta in
  let rsp : complex := (RtoC (rho * sigma * phi) * Ci)%C in
  let d := Csqrt (Csqr (rsp - RtoC b)
                  - RtoC (sigma ^ 2) * (RtoC (2 * u * phi) * Ci - RtoC (phi ^ 2)))%C in
  let g := Ndiv (fin (RtoC b - rsp + d)%C) (fin (RtoC b - rsp - d)%C) in
  if Req_dec_T (sigma ^ 2) 0 then Raise ZeroDivisionError
  else
    let edT := Cexp (d * RtoC T)%C in
    let CC :=
      Nadd (fin (RtoC ((r - q) * phi) * Ci * RtoC T)%C)
           (Nmul (fin (RtoC (a / sigma ^ 2)))
                 (Nsub (fin ((RtoC b - rsp + d) * RtoC T)%C)
                       (Nmul (fin (RtoC 2))
                             (Nlog (Ndiv (Nsub (fin C1) (Nmul g (fin edT)))
                                         (Nsub (fin C1) g)))))) in
    let D :=
      Nmul (fin ((RtoC b - rsp + d) * RtoC (/ sigma ^ 2))%C)
           (Ndiv (fin (C1 - edT)%C) (Nsub (fin C1) (Nmul g (fin edT)))) in
    Ok (Nexp (Nadd (Nadd CC (Nmul D (fin (RtoC v0))))
                   (Nmul (fin (Ci * RtoC phi)%C) (Rlog S0)))).

(** ** Discrete transforms and quadrature *)

Definition Csum (l : list complex) : complex := fold_right Cadd C0 l.
Definition Rsum (l : list R) : R := fold_right Rplus 0 l.

(** [np.fft.fft]: [A_m = sum_j a_j exp(-2 pi i j m / n)]. *)
Definition twiddle (n j m : nat) : complex :=
  Cexp (Ci * RtoC (- (2 * PI * INR j * INR m / INR n)))%C.

Definition fft (a : list complex) : list complex :=
  let n := length a in
  map (fun m => Csum (map (fun j => nth j a C0 * twiddle n j m)%C (seq 0 n))) (seq 0 n).

(** [np.fft.fftshift] rolls by [n//2], [np.fft.ifftshift] by [-(n//2)]. *)
Definition fftshift {A : Type} (a : list A) : list A :=
  let n := length a in
  skipn (n - n / 2) a ++ firstn (n - n / 2) a.

Definition ifftshift {A : Type} (a : list A) : list A :=
  let n := length a in
  skipn (n / 2) a ++ firstn (n / 2) a.

(** [np.trapz(y)] with unit spacing: [sum((y[1:] + y[:-1]) / 2)]. *)
Fixpoint trapz (y : list complex) : complex :=
  match y with
  | y0 :: ((y1 :: _) as t) => ((y1 + y0) * RtoC (/ 2) + trapz t)%C
  | _ => C0
  end.

Fixpoint trapz_real (y : list R) : R :=
  match y with
  | y0 :: ((y1 :: _) as t) => (y1 + y0) / 2 + trapz_real t
  | _ => 0
  end.

(** Element-wise product of two arrays of the same length. *)
Definition arr_mul (a b : list complex) : list complex :=
  map (fun p => (fst p * snd p)%C) (combine a b).

(** [interp1d(xs, ys, kind='slinear')(x)] on increasing knots: the
    piecewise-linear interpolant, [ValueError] outside the knots. *)
Fixpoint interp1d (xs ys : list R) (x : R) : result R :=
  match xs, ys with
  | x0 :: ((x1 :: _) as xs'), y0 :: ((y1 :: _) as ys') =>
      if Rle_dec x0 x then
        if Rle_dec x x1 then Ok (y0 + (y1 - y0) * (x - x0) / (x1 - x0))
        else interp1d xs' ys' x
      else Raise ValueError
  | _, _ => Raise ValueError
  end.

(** The knots of [interp1d] are increasing. *)
Definition increasing (xs : list R) : Prop :=
  forall i j, (i < j < length xs)%nat -> nth i xs 0 < nth j xs 0.

(** ** Pricing *)

(** [np.exp(-r*T)*np.real(np.fft.fftshift(np.fft.fft(np.fft.ifftshift(H))))/xwidth] *)
Definition plancherel (r T xwidth : R) (H : list complex) : list R :=
  map (fun z => exp (- r * T) * Re z / xwidth) (fftshift (fft (ifftshift H))).

(** [Vc = interp1d(S, c, kind='slinear')(S0)] with
    [c = plancherel(Gc*np.conj(psi_c))]. *)
Definition price_fft (r T xwidth S0 : R) (S : list R) (G psi : list complex) : result R :=
  interp1d S (plancherel r T xwidth (arr_mul G (map Cconj psi))) S0.

(** The same with [np.conj(Gc)*psi_c]. *)
Definition price_fft_conjG (r T xwidth S0 : R) (S : list R) (G psi : list complex)
  : result R :=
  interp1d S (plancherel r T xwidth (arr_mul (map Cconj G) psi)) S0.

(** [Vc = np.exp(-r*T)*np.real(np.trapz(np.conj(Gc)*psi_c))/xwidth] *)
Definition price_trapz (r T xwidth : R) (G psi : list complex) : R :=
  exp (- r * T) * Re (trapz (arr_mul (map Cconj G) psi)) / xwidth.

(** [f = np.real(np.fft.fftshift(np.fft.fft(np.fft.ifftshift(psi))))/xwidth] *)
Definition density (xwidth : R) (psi : list complex) : list R :=
  map (fun z => Re z / xwidth) (fftshift (fft (ifftshift psi))).

(** Trapezoidal integral of the density over the real-space grid, written
    as the driver integrates [gc*f*dx]. *)
Definition density_mass (xwidth dx : R) (psi : list complex) : R :=
  trapz_real (map (fun v => v * dx) (density xwidth psi)).

(** The spot array [S = C*np.exp(x)] returned by [payoff]. *)
Definition spot_array (S0 : R) (x : list R) : list R := map (fun xj => S0 * exp xj) x.

(** An admissible sample array for the density: the alternating signs
    [(-1)^(j+N)] on [2N] points, equal to one at the zero-frequency index
    [N]. *)
Definition alternating (N : nat) : list complex :=
  map (fun j => RtoC ((-1) ^ (j + N))) (seq 0 (N + N)).

(** ** The window and the density pricing of the driver *)

(** [U = S0 * np.exp(b)] and [L = S0 * np.exp(-b)], the barriers that the
    driver passes to [payoff]. *)
Definition driver_U (S0 b : R) : R := S0 * exp b.
Definition driver_L (S0 b : R) : R := S0 * exp (- b).

(** The option values of the last pricing cell, from the density [f]:
<<
  gc = np.maximum(S0*np.exp(x) - K, 0)
  gp = np.maximum(K - S0*np.exp(x), 0)
  Vc = np.exp(-r*T)*np.trapz(gc*f*dx)
  Vp = np.exp(-r*T)*np.trapz(gp*f*dx)
>>
    for [x] and [f] of the same length. *)
Definition Vc_density (r T S0 K dx : R) (x f : list R) : R :=
  exp (- r * T)
  * trapz_real (map (fun p => Rmax (S0 * exp (fst p) - K) 0 * snd p * dx) (combine x f)).

Definition Vp_density (r T S0 K dx : R) (x f : list R) : R :=
  exp (- r * T)
  * trapz_real (map (fun p => Rmax (K - S0 * exp (fst p)) 0 * snd p * dx) (combine x f)).

(** ** Closed-form prices

    [scipy.stats.norm.cdf] is a parameter [norm_cdf] of the definitions
    below; the statements say which of its properties they use.  The
    divisions by [sigma*np.sqrt(T)] are numpy divisions and the logarithms
    numpy logarithms: they are those of the model for positive spot, strike,
    barrier, volatility and time, which the statements assume.
    [barrier_analytical] makes that domain explicit in its result. *)

(** [bs_price(S, K, T, r, q, sigma, call)]; [S/K] is a division of Python
    scalars. *)
Definition bs_price (norm_cdf : R -> R) (S K T r q sigma : R) (call : bool) : result R :=
  sk <- pydiv S K ;;
  let d1 := (ln sk + (r - q + sigma ^ 2 / 2) * T) / (sigma * sqrt T) in
  let d2 := d1 - sigma * sqrt T in
  if call then
    Ok (S * exp (- q * T) * norm_cdf d1 - K * exp (- r * T) * norm_cdf d2)
  else
    Ok (K * exp (- r * T) * norm_cdf (- d2) - S * exp (- q * T) * norm_cdf (- d1)).

(** [np.math.factorial(k)], a Python integer. *)
Fixpoint factorial (k : nat) : Z :=
  match k with
  | O => 1
  | Datatypes.S k' => Z.of_nat k * factorial k'
  end.

(** The least integer that is too large for a float: half a unit in the
    last place above the largest float, [2**1024 - 2**971]. *)
Definition overflow_threshold : Z := 2 ^ 1024 - 2 ^ 970.

(** The conversion of a Python integer to a float, which [x / n] makes for a
    float [x] and a Python integer [n]. *)
Definition float_of_int (n : Z) : result R :=
  if (Z.abs n <? overflow_threshold)%Z then Ok (IZR n) else Raise OverflowError.

(** The loop of [merton_jump_analytical], from iteration [k] with the sum
    [V] so far and [fuel] iterations left; the quotient by the factorial is
    evaluated before the call of [bs_price]:
<<
  for k in range(max_iter):
      r_k = r - lam*(np.exp(mu_j + 0.5*sigma_j**2)-1) + (k*(mu_j + 0.5*sigma_j**2)) / T
      sigma_k = np.sqrt( sigma**2 + (k* sigma_j**2) / T)
      sum_k = (np.exp(-(np.exp(mu_j + 0.5*sigma_j**2))*lam*T)
              * ((np.exp(mu_j + 0.5*sigma_j**2))*lam*T)**k / (np.math.factorial(k)))
              * bs_price(S, K, T, r_k, q, sigma_k, call)
      V += sum_k
      if sum_k < stop_cond:
          return V
  return V
>> *)
Fixpoint merton_loop (norm_cdf : R -> R) (S K T r q sigma mu_j sigma_j lam : R)
         (call : bool) (stop_cond : R) (fuel k : nat) (V : R) : result R :=
  match fuel with
  | O => Ok V
  | Datatypes.S fuel' =>
      t1 <- pydiv (INR k * (mu_j + 0.5 * sigma_j ^ 2)) T ;;
      let r_k := r - lam * (exp (mu_j + 0.5 * sigma_j ^ 2) - 1) + t1 in
      t2 <- pydiv (INR k * sigma_j ^ 2) T ;;
      let sigma_k := sqrt (sigma ^ 2 + t2) in
      fk <- float_of_int (factorial k) ;;
      p <- bs_price norm_cdf S K T r_k q sigma_k call ;;
      let sum_k :=
        exp (- (exp (mu_j + 0.5 * sigma_j ^ 2)) * lam * T)
        * (exp (mu_j + 0.5 * sigma_j ^ 2) * lam * T) ^ k / fk * p in
      if Rlt_dec sum_k stop_cond then Ok (V + sum_k)
      else merton_loop norm_cdf S K T r q sigma mu_j sigma_j lam call stop_cond
                       fuel' (Datatypes.S k) (V + sum_k)
  end.

Definition merton_jump_analytical (norm_cdf : R -> R)
           (S K T r q sigma mu_j sigma_j lam : R) (call : bool)
           (max_iter : nat) (stop_cond : R) : result R :=
  merton_loop norm_cdf S K T r q sigma mu_j sigma_j lam call stop_cond max_iter 0 0.

(** [np.sign] *)
Definition sign (x : R) : R :=
  if Rlt_dec x 0 then -1 else if Rlt_dec 0 x then 1 else 0.

(** The barrier that [barrier_analytical] uses:
<<
  if n_obs > 0:
      H = H*np.exp(np.sign(H-S0)*0.5826*sigma*np.sqrt(T/n_obs))
>>
    [S0] is the global spot of the notebook. *)
Definition adjusted_barrier (H S0 sigma T : R) (n_obs : Z) : R :=
  if (0 <? n_obs)%Z then H * exp (sign (H - S0) * 0.5826 * sigma * sqrt (T / IZR n_obs))
  else H.

Record BarrierPrices : Type := mkBarrierPrices {
  C_di : R; C_do : R; C_ui : R; C_uo : R;
  P_di : R; P_do : R; P_ui : R; P_uo : R
}.

(** The threshold of overflow as a real number. *)
Definition float_overflow : R := IZR overflow_threshold.

(** [x ** y] on Python floats with a positive base [x]: [OverflowError]
    when the result is too large for a float. *)
Definition pypow (x y : R) : result R :=
  if Rlt_dec (Rpower x y) float_overflow then Ok (Rpower x y) else Raise OverflowError.

(** The eight prices that [barrier_analytical] computes after its
    parameters, from the quotient [sk = S/K], the barrier [H] in use,
    [gamma] and the two powers [pw1 = (H/S)**(2*gamma)] and
    [pw2 = (H/S)**(2*gamma-2)]. *)
Definition barrier_values (norm_cdf : R -> R)
           (S K H tau r q sigma sk gamma pw1 pw2 : R) : BarrierPrices :=
  let d1 := (ln sk + (r - q + 0.5 * sigma ^ 2) * tau) / (sigma * sqrt tau) in
  let d2 := (ln sk + (r - q - 0.5 * sigma ^ 2) * tau) / (sigma * sqrt tau) in
  let C := S * exp (- q * tau) * norm_cdf d1 - K * exp (- r * tau) * norm_cdf d2 in
  let P := K * exp (- r * tau) * norm_cdf (- d2) - S * exp (- q * tau) * norm_cdf (- d1) in
  let eta := ln (H ^ 2 / (S * K)) / (sigma * sqrt tau) + gamma * sigma * sqrt tau in
  let nu := ln (S / H) / (sigma * sqrt tau) + gamma * sigma * sqrt tau in
  let lmbda := ln (H / S) / (sigma * sqrt tau) + gamma * sigma * sqrt tau in
  if Rlt_dec H K then
    let c_di := S * exp (- q * tau) * pw1 * norm_cdf eta
                - K * exp (- r * tau) * pw2 * norm_cdf (eta - sigma * sqrt tau) in
    let c_do := C - c_di in
    let c_uo := 0 in
    let c_ui := C in
    let p_uo :=
      if Rle_dec H S then 0
      else - S * exp (- q * tau) * norm_cdf (- nu)
           + K * exp (- r * tau) * norm_cdf (- nu + sigma * sqrt tau)
           + S * exp (- q * tau) * pw1 * norm_cdf (- lmbda)
           - K * exp (- r * tau) * pw2 * norm_cdf (- lmbda + sigma * sqrt tau) in
    let p_ui := if Rle_dec H S then P else P - p_uo in
    let p_di := - S * exp (- q * tau) * norm_cdf (- nu)
                + K * exp (- r * tau) * norm_cdf (- nu + sigma * sqrt tau)
                + S * exp (- q * tau) * pw1 * (norm_cdf eta - norm_cdf lmbda)
                - K * exp (- r * tau) * pw2
                  * (norm_cdf (eta - sigma * sqrt tau) - norm_cdf (lmbda - sigma * sqrt tau)) in
    let p_do := P - p_di in
    mkBarrierPrices c_di c_do c_ui c_uo p_di p_do p_ui p_uo
  else
    let c_do :=
      if Rge_dec H S then 0
      else S * exp (- q * tau) * norm_cdf nu
           - K * exp (- r * tau) * norm_cdf (nu - sigma * sqrt tau)
           - S * exp (- q * tau) * pw1 * norm_cdf lmbda
           + K * exp (- r * tau) * pw2 * norm_cdf (lmbda - sigma * sqrt tau) in
    let c_di := if Rge_dec H S then C else C - c_do in
    let c_ui := S * exp (- q * tau) * norm_cdf nu
                - K * exp (- r * tau) * norm_cdf (nu - sigma * sqrt tau)
                - S * exp (- q * tau) * pw1 * (norm_cdf (- eta) - norm_cdf (- lmbda))
                + K * exp (- r * tau) * pw2
                  * (norm_cdf (- eta + sigma * sqrt tau)
                     - norm_cdf (- lmbda + sigma * sqrt tau)) in
    let c_uo := C - c_ui in
    let p_ui := - S * exp (- q * tau) * pw1 * norm_cdf (- eta)
                + K * exp (- r * tau) * pw2 * norm_cdf (- eta + sigma * sqrt tau) in
    let p_uo := P - p_ui in
    let p_di := P in
    let p_do := 0 in
    mkBarrierPrices c_di c_do c_ui c_uo p_di p_do p_ui p_uo.

(** [barrier_analytical(S, K, H, T, r, q, sigma, t, n_obs)].

    [S/K] and the quotient defining [gamma] are divisions of Python scalars.
    The barrier is a Python scalar when it is not adjusted ([n_obs <= 0]):
    then [H**2/(S*K)], [S/H] and [H/S] are divisions of Python scalars too,
    and the powers of [H/S] are powers of Python floats, which raise
    [OverflowError].  When the barrier is adjusted ([n_obs > 0]) it is a
    numpy float: those operations do not raise, and for a negative [T] the
    barrier is the square root of a negative number, no comparison with it
    holds, no branch assigns the prices and the [return] raises
    [UnboundLocalError].

    The result [Ok (Some b)] is the tuple returned.  [Ok None] stands for a
    call that goes on with a value that is not a finite real number (the
    logarithm of a number that is not positive, a division by
    [sigma*sqrt(tau)] with [tau <= 0], a numpy division by zero, a numpy
    power that overflows, a power of a negative [H/S]): what it computes
    from there is not described. *)
Definition barrier_analytical (norm_cdf : R -> R) (S0 : R)
           (S K H T r q sigma t : R) (n_obs : Z) : result (option BarrierPrices) :=
  let tau := T - t in
  sk <- pydiv S K ;;
  let H := adjusted_barrier H S0 sigma T n_obs in
  gamma <- pydiv (r - q + 0.5 * sigma ^ 2) (sigma ^ 2) ;;
  if (0 <? n_obs)%Z then
    if Rlt_dec T 0 then Raise UnboundLocalError
    else
      let pw1 := Rpower (H / S) (2 * gamma) in
      let pw2 := Rpower (H / S) (2 * gamma - 2) in
      if Rlt_dec 0 (H / S) then
        if Rlt_dec pw1 float_overflow then
          if Rlt_dec pw2 float_overflow then
            if Rlt_dec 0 sk then
              if Rlt_dec 0 tau then
                Ok (Some (barrier_values norm_cdf S K H tau r q sigma sk gamma pw1 pw2))
              else Ok None
            else Ok None
          else Ok None
        else Ok None
      else Ok None
  else
    _ <- pydiv (H ^ 2) (S * K) ;;
    _ <- pydiv S H ;;
    hs <- pydiv H S ;;
    if Rlt_dec 0 hs then
      pw1 <- pypow hs (2 * gamma) ;;
      pw2 <- pypow hs (2 * gamma - 2) ;;
      if Rlt_dec 0 sk then
        if Rlt_dec 0 tau then
          Ok (Some (barrier_values norm_cdf S K H tau r q sigma sk gamma pw1 pw2))
        else Ok None
      else Ok None
    else Ok None.

(** A distribution function symmetric about zero, [1/2 + atan(x)/pi], used
    to instantiate [norm_cdf] in the examples. *)
Definition symmetric_cdf (x : R) : R := 1 / 2 + atan x / PI.

(** ** Monte Carlo prices

    The values that [np.random.normal] and [np.random.poisson] return are
    inputs of the definitions below, indexed by block, path and time step.
    [np.sqrt] is the real square root of a non-negative number and [np.mean]
    the mean of a non-empty array: the statements assume a non-negative
    maturity and at least one block, one path and one time step. *)

(** [np.mean] of a one-dimensional array. *)
Definition mean (l : list R) : R := Rsum l / INR (length l).

(** [np.cumsum] along one row. *)
Fixpoint cumsum_from (acc : R) (l : list R) : list R :=
  match l with
  | [] => []
  | h :: t => (acc + h) :: cumsum_from (acc + h) t
  end.

Definition cumsum (l : list R) : list R := cumsum_from 0 l.

(** One row of [S] in [barrier_mc], from the row [z] of normal draws:
<<
  dX = (r-q - 0.5*sigma**2)*dt + sigma*np.sqrt(dt)*np.random.normal(size=(nsample, nsteps))
  X = np.concatenate((np.zeros((nsample, 1)), np.cumsum(dX, axis=1)), axis=1)
  S = S0*np.exp(X)
>> *)
Definition mc_path (S0 r q sigma dt : R) (z : list R) : list R :=
  let dX := map (fun zk => (r - q - 0.5 * sigma ^ 2) * dt + sigma * sqrt dt * zk) z in
  let X := 0 :: cumsum dX in
  map (fun v => S0 * exp v) X.

(** The rows of [S] for block [i]. *)
Definition mc_paths (normal : nat -> nat -> nat -> R) (S0 r q sigma dt : R)
           (nsample nsteps : nat) (i : nat) : list (list R) :=
  map (fun j => mc_path S0 r q sigma dt (map (normal i j) (seq 0 nsteps))) (seq 0 nsample).

(** One entry of a mask: the count [np.sum(cond, axis=1)] of the points of
    the row that meet the condition, set to 1 when positive. *)
Definition mask (cond : R -> bool) (row : list R) : R :=
  let count := length (filter cond row) in
  if (0 <? count)%nat then 1 else INR count.

Definition mask_u (H : R) (row : list R) : R :=
  mask (fun s => if Rge_dec s H then true else false) row.

Definition mask_d (H : R) (row : list R) : R :=
  mask (fun s => if Rle_dec s H then true else false) row.

(** The barrier that [barrier_mc] uses:
<<
  if cts == True:
      H = H*np.exp(-np.sign(H-S0)*0.5826*sigma*np.sqrt(dt))
>> *)
Definition mc_barrier (H S0 sigma dt : R) (cts : bool) : R :=
  if cts then H * exp (- sign (H - S0) * 0.5826 * sigma * sqrt dt) else H.

(** The average over the blocks of [np.exp(-r*T) * np.mean(v)], where [v]
    gives the value of one row. *)
Definition mc_estimate (r T : R) (blocks : list (list (list R))) (v : list R -> R) : R :=
  mean (map (fun rows => exp (- r * T) * mean (map v rows)) blocks).

(** [S[:,-1]] of one row, then the two payoffs. *)
Definition terminal (row : list R) : R := last row 0.

Definition call_payoff (K : R) (row : list R) : R := Rmax (terminal row - K) 0.

Definition put_payoff (K : R) (row : list R) : R := Rmax (K - terminal row) 0.

(** [barrier_mc(S, K, H, T, r, q, sigma, nblocks, nsample, nsteps, cts)].
    The argument [S] is not read: the rows start from the global [S0].
    [T/nsteps] is a division of Python scalars. *)
Definition barrier_mc (normal : nat -> nat -> nat -> R) (S0 : R)
           (S K H T r q sigma : R) (nblocks nsample nsteps : nat) (cts : bool)
  : result BarrierPrices :=
  dt <- pydiv T (INR nsteps) ;;
  let H := mc_barrier H S0 sigma dt cts in
  let blocks := map (mc_paths normal S0 r q sigma dt nsample nsteps) (seq 0 nblocks) in
  let c_ui := mc_estimate r T blocks (fun row => call_payoff K row * mask_u H row) in
  let c_uo := mc_estimate r T blocks (fun row => call_payoff K row * (1 - mask_u H row)) in
  let c_di := mc_estimate r T blocks (fun row => call_payoff K row * mask_d H row) in
  let c_do := mc_estimate r T blocks (fun row => call_payoff K row * (1 - mask_d H row)) in
  let p_ui := mc_estimate r T blocks (fun row => put_payoff K row * mask_u H row) in
  let p_uo := mc_estimate r T blocks (fun row => put_payoff K row * (1 - mask_u H row)) in
  let p_di := mc_estimate r T blocks (fun row => put_payoff K row * mask_d H row) in
  let p_do := mc_estimate r T blocks (fun row => put_payoff K row * (1 - mask_d H row)) in
  Ok (mkBarrierPrices c_di c_do c_ui c_uo p_di p_do p_ui p_uo).



(** * Properties *)

Lemma C_eq (z w : complex) : Re z = Re w -> Im z = Im w -> z = w.
Proof. destruct z, w; simpl; intros -> ->; reflexivity. Qed.

(** The float literals [0.5] and [-0.5] of the source. *)
Lemma half_eq : 0.5 = 1 / 2.
Proof. lra. Qed.

Lemma neg_half_eq : -0.5 = - (1 / 2).
Proof. lra. Qed.

Ltac cring := apply C_eq; simpl; rewrite ?half_eq, ?neg_half_eq; ring.
Ltac cfield := apply C_eq; simpl; rewrite ?half_eq, ?neg_half_eq; field.

Lemma Cadd_comm (z w : complex) : (z + w = w + z)%C.
Proof. cring. Qed.

Lemma Cadd_assoc (z w u : complex) : (z + (w + u) = (z + w) + u)%C.
Proof. cring. Qed.

Lemma Cadd_0_l (z : complex) : (C0 + z = z)%C.
Proof. cring. Qed.

Lemma Cadd_0_r (z : complex) : (z + C0 = z)%C.
Proof. cring. Qed.

Lemma Cmul_comm (z w : complex) : (z * w = w * z)%C.
Proof. cring. Qed.

Lemma Cmul_assoc (z w u : complex) : (z * (w * u) = (z * w) * u)%C.
Proof. cring. Qed.

Lemma Cmul_1_l (z : complex) : (C1 * z = z)%C.
Proof. cring. Qed.

Lemma Cmul_1_r (z : complex) : (z * C1 = z)%C.
Proof. cring. Qed.

Lemma Cmul_0_l (z : complex) : (C0 * z = C0)%C.
Proof. cring. Qed.

Lemma Cmul_0_r (z : complex) : (z * C0 = C0)%C.
Proof. cring. Qed.

Lemma Cmul_add_distr_l (z w u : complex) : (z * (w + u) = z * w + z * u)%C.
Proof. cring. Qed.

Lemma Cmul_add_distr_r (z w u : complex) : ((z + w) * u = z * u + w * u)%C.
Proof. cring. Qed.

Lemma Cexp_0 : Cexp C0 = C1.
Proof.
  apply C_eq; simpl; rewrite exp_0, ?cos_0, ?sin_0; ring.
Qed.

Lemma Cexp_add (z w : complex) : (Cexp (z + w) = Cexp z * Cexp w)%C.
Proof.
  apply C_eq; simpl; rewrite exp_plus, ?cos_plus, ?sin_plus; ring.
Qed.

Lemma Cexp_RtoC (x : R) : Cexp (RtoC x) = RtoC (exp x).
Proof.
  apply C_eq; simpl; rewrite ?cos_0, ?sin_0; ring.
Qed.

Lemma Cnorm2_pos (z : complex) : z <> C0 -> 0 < Cnorm2 z.
Proof.
  destruct z as [a b]; unfold Cnorm2, C0, RtoC; simpl; intros H.
  destruct (Req_dec_T a 0) as [->|Ha].
  - destruct (Req_dec_T b 0) as [->|Hb]; [congruence|nra].
  - nra.
Qed.

Lemma Cinv_r (z : complex) : z <> C0 -> (z * Cinv z = C1)%C.
Proof.
  intros H. apply Cnorm2_pos in H.
  destruct z as [a b]; unfold Cnorm2 in H; simpl in H.
  apply C_eq; unfold Cinv, Cnorm2; simpl; field; lra.
Qed.

Lemma Re_conj (z : complex) : Re (Cconj z) = Re z.
Proof. reflexivity. Qed.

Lemma Cconj_mul (z w : complex) : (Cconj (z * w) = Cconj z * Cconj w)%C.
Proof. cring. Qed.

Lemma Cconj_add (z w : complex) : (Cconj (z + w) = Cconj z + Cconj w)%C.
Proof. cring. Qed.

Lemma Cconj_conj (z : complex) : Cconj (Cconj z) = z.
Proof. cring. Qed.

Lemma complex_ring_theory : ring_theory C0 C1 Cadd Cmul Csub Copp eq.
Proof. constructor; intros; cring. Qed.

Add Ring complex_ring : complex_ring_theory.

Lemma Ok_inj {A : Type} (a b : A) : Ok a = Ok b -> a = b.
Proof. intros H; injection H; auto. Qed.

(** ** Lists and item assignment *)

Lemma half_lt_length {A : Type} (l : list A) : l <> [] -> (length l / 2 < length l)%nat.
Proof.
  intros H. destruct l as [|h t]; [congruence|].
  apply Nat.div_lt; simpl; lia.
Qed.

Lemma list_set_ok {A : Type} (l : list A) (i : nat) (v : A) :
  (i < length l)%nat ->
  exists l', list_set l i v = Ok l' /\
             length l' = length l /\
             nth_error l' i = Some v /\
             forall j, j <> i -> nth_error l' j = nth_error l j.
Proof.
  revert i. induction l as [|h t IH]; intros i Hi; simpl in Hi; [lia|].
  destruct i as [|i].
  - exists (v :: t). simpl. repeat split; auto.
    intros [|j] Hj; [congruence|reflexivity].
  - destruct (IH i) as (t' & Hset & Hlen & Hnth & Hother); [lia|].
    exists (h :: t'). simpl. rewrite Hset. simpl. repeat split; auto.
    intros [|j] Hj; [reflexivity|]. simpl. apply Hother. congruence.
Qed.

Lemma list_set_empty {A : Type} (i : nat) (v : A) : list_set [] i v = Raise IndexError.
Proof. destruct i; reflexivity. Qed.

(** ** The payoff transform *)

Lemma xi_2_nonzero (alpha xi : R) : alpha <> 0 -> (RtoC alpha + Ci * RtoC xi)%C <> C0.
Proof.
  intros Ha H. apply (f_equal Re) in H. simpl in H. lra.
Qed.

Lemma one_xi_2_nonzero (alpha xi : R) :
  alpha <> -1 -> (C1 + (RtoC alpha + Ci * RtoC xi))%C <> C0.
Proof.
  intros Ha H. apply (f_equal Re) in H. simpl in H. lra.
Qed.

(** The array expression of the code and the closed form of the
    specification are the same function. *)
Lemma G_general_spec (alpha C a b k xi : R) :
  G_general alpha C a b k xi = G_spec alpha C a b k xi.
Proof.
  unfold G_general, G_spec, Nmul, Nsub, Ndiv, lift2, fin.
  set (z := (RtoC alpha + Ci * RtoC xi)%C).
  destruct (Ceq_dec (C1 + z)%C C0) as [H1|H1];
    destruct (Ceq_dec z C0) as [H0|H0]; try reflexivity.
  do 2 f_equal. f_equal.
  rewrite !Cexp_add, Cexp_RtoC. ring.
Qed.

Lemma G_general_finite (alpha C a b k xi : R) :
  alpha <> 0 -> alpha <> -1 -> is_finite (G_general alpha C a b k xi).
Proof.
  intros H0 H1. unfold G_general, Nmul, Nsub, Ndiv, lift2, fin, is_finite.
  destruct (Ceq_dec _ C0) as [E|_]; [exfalso; revert E; apply one_xi_2_nonzero; assumption|].
  destruct (Ceq_dec _ C0) as [E|_]; [exfalso; revert E; apply xi_2_nonzero; assumption|].
  eexists; reflexivity.
Qed.

Lemma G_general_nan_0 (C a b k : R) : G_general 0 C a b k 0 = None.
Proof.
  unfold G_general, Nmul, Nsub, Ndiv, lift2, fin.
  destruct (Ceq_dec (C1 + (RtoC 0 + Ci * RtoC 0))%C C0) as [E|_]; [reflexivity|].
  destruct (Ceq_dec (RtoC 0 + Ci * RtoC 0)%C C0) as [_|E]; [reflexivity|].
  exfalso; apply E; cring.
Qed.

Lemma G_general_nan_m1 (C a b k : R) : G_general (-1) C a b k 0 = None.
Proof.
  unfold G_general, Nmul, Nsub, Ndiv, lift2, fin.
  destruct (Ceq_dec (C1 + (RtoC (-1) + Ci * RtoC 0))%C C0) as [_|E]; [reflexivity|].
  exfalso; apply E; cring.
Qed.

(** What [payoff] returns on a non-empty frequency array: the array
    expression everywhere, except for the middle entry when [alpha] is [0]
    or [-1]. *)
Lemma payoff_ok (x xi : list R) (alpha K L U C : R) (call : Z) :
  C <> 0 -> xi <> [] ->
  exists g G S,
    payoff x xi alpha K L U C call = Ok (g, G, S) /\
    length G = length xi /\
    S = map (fun xj => C * exp xj) x /\
    (forall j, (alpha = 0 \/ alpha = -1 -> j <> (length xi / 2)%nat) ->
       nth_error G j =
       nth_error (map (G_general alpha C (bound_a L K U C call) (bound_b L K U C call)
                                 (ln (K / C))) xi) j) /\
    (alpha = 0 ->
       nth_error G (length xi / 2) =
       Some (fin (RtoC (C * (exp (bound_b L K U C call) - exp (bound_a L K U C call)
                             - exp (ln (K / C))
                               * (bound_b L K U C call - bound_a L K U C call)))))) /\
    (alpha = -1 ->
       nth_error G (length xi / 2) =
       Some (fin (RtoC (C * (bound_b L K U C call - bound_a L K U C call
                             + exp (ln (K / C) - bound_b L K U C call)
                             - exp (ln (K / C) - bound_a L K U C call)))))).
Proof.
  intros HC Hxi. unfold payoff.
  destruct (Req_dec_T C 0) as [E|_]; [contradiction|].
  set (G := map _ xi).
  assert (Hlen : length G = length xi) by (unfold G; apply length_map).
  assert (Hmid : (length G / 2 < length G)%nat).
  { apply half_lt_length. intros E. rewrite E in Hlen. destruct xi; simpl in *; congruence. }
  destruct (Req_dec_T alpha 0) as [A0|A0].
  - match goal with |- context [list_set G _ ?v] =>
      destruct (list_set_ok G (length G / 2) v Hmid)
        as (G' & Hset & Hlen' & Hnth & Hother) end.
    rewrite Hset. simpl. do 3 eexists. split; [reflexivity|].
    rewrite Hlen in *. repeat split.
    + congruence.
    + intros j Hj. apply Hother. apply Hj. left; assumption.
    + intros _. exact Hnth.
    + intros E. lra.
  - destruct (Req_dec_T alpha (-1)) as [A1|A1].
    + match goal with |- context [list_set G _ ?v] =>
        destruct (list_set_ok G (length G / 2) v Hmid)
          as (G' & Hset & Hlen' & Hnth & Hother) end.
      rewrite Hset. simpl. do 3 eexists. split; [reflexivity|].
      rewrite Hlen in *. repeat split.
      * congruence.
      * intros j Hj. apply Hother. apply Hj. right; assumption.
      * intros E. contradiction.
      * intros _. exact Hnth.
    + do 3 eexists. split; [reflexivity|]. repeat split; auto; intros; contradiction.
Qed.

(** ** Grid construction *)

Lemma linspace_centered (N : Z) :
  (1 <= N)%Z ->
  linspace (IZR (- N)) (IZR (N - 1)) (2 * N) =
  Ok (map (fun i => IZR (- N) + INR i) (seq 0 (Z.to_nat (2 * N)))).
Proof.
  intros HN. unfold linspace.
  destruct (2 * N <? 0)%Z eqn:E; [apply Z.ltb_lt in E; lia|].
  f_equal. apply map_ext_in. intros i Hi. apply in_seq in Hi.
  assert (Hstep : (IZR (N - 1) - IZR (- N)) / (IZR (2 * N) - 1) = 1).
  { rewrite minus_IZR, opp_IZR, mult_IZR. simpl.
    assert (1 <= IZR N) by (apply IZR_le in HN; exact HN).
    field. lra. }
  rewrite Hstep.
  destruct ((1 <? Z.to_nat (2 * N)) && (i =? Z.to_nat (2 * N) - 1))%nat eqn:B; [|ring].
  apply andb_prop in B. destruct B as [_ B]. apply Nat.eqb_eq in B.
  subst i. rewrite minus_INR by lia. rewrite INR_IZR_INZ, Z2Nat.id by lia.
  rewrite minus_IZR, opp_IZR, mult_IZR. simpl. ring.
Qed.

(** The grid built for an even, positive number of points [2N]. *)
Lemma build_grid_even (xwidth : R) (N : Z) :
  xwidth <> 0 -> (1 <= N)%Z ->
  build_grid xwidth (2 * N) =
  Ok (mkGrid N (xwidth / 2) (xwidth / IZR (2 * N))
        (map (fun j => xwidth / IZR (2 * N) * (IZR (- N) + INR j))
             (seq 0 (Z.to_nat (2 * N))))
        (2 * PI / xwidth)
        (map (fun j => 2 * PI / xwidth * (IZR (- N) + INR j))
             (seq 0 (Z.to_nat (2 * N))))).
Proof.
  intros Hw HN. unfold build_grid, pydiv.
  replace (Z.quot (2 * N) 2) with N by (rewrite Z.mul_comm, Z.quot_mul; lia).
  destruct (Req_dec_T (IZR (2 * N)) 0) as [E|_].
  { exfalso. apply eq_IZR_R0 in E. lia. }
  simpl bind. rewrite linspace_centered by assumption. simpl bind.
  destruct (Req_dec_T xwidth 0) as [E|_]; [contradiction|].
  simpl bind. rewrite !map_map. reflexivity.
Qed.

Lemma nth_error_map_seq {A : Type} (f : nat -> A) (n j : nat) :
  (j < n)%nat -> nth_error (map f (seq 0 n)) j = Some (f j).
Proof.
  intros H. rewrite nth_error_map, nth_error_seq.
  destruct (Nat.ltb_spec j n); [reflexivity|lia].
Qed.

(** The zero of both axes sits at the middle index [N = floor(len/2)]. *)
Lemma build_grid_zero_bin (xwidth : R) (N : Z) (g : Grid) :
  xwidth <> 0 -> (1 <= N)%Z -> build_grid xwidth (2 * N) = Ok g ->
  (length (grid_xi g) / 2 = Z.to_nat N)%nat /\
  nth_error (grid_xi g) (length (grid_xi g) / 2) = Some 0 /\
  nth_error (grid_x g) (Z.to_nat N) = Some 0.
Proof.
  intros Hw HN Hg. rewrite build_grid_even in Hg by assumption.
  apply Ok_inj in Hg. subst g. cbn [grid_xi grid_x].
  rewrite !length_map, length_seq.
  assert (Hhalf : (Z.to_nat (2 * N) / 2 = Z.to_nat N)%nat).
  { rewrite Z2Nat.inj_mul by lia. rewrite Nat.mul_comm. apply Nat.div_mul. discriminate. }
  rewrite Hhalf.
  assert (Hz : IZR (- N) + INR (Z.to_nat N) = 0).
  { rewrite INR_IZR_INZ, Z2Nat.id, opp_IZR by lia. ring. }
  split; [reflexivity|].
  split; (rewrite nth_error_map_seq by lia; rewrite Hz; f_equal; ring).
Qed.

(** ** Sums *)

Lemma Csum_app (l1 l2 : list complex) : Csum (l1 ++ l2) = (Csum l1 + Csum l2)%C.
Proof.
  induction l1 as [|h t IH]; simpl.
  - ring.
  - rewrite IH. ring.
Qed.

Lemma Csum_roll (n : nat) (l : list complex) : Csum (skipn n l ++ firstn n l) = Csum l.
Proof.
  rewrite Csum_app, Cadd_comm, <- Csum_app, firstn_skipn. reflexivity.
Qed.

Lemma Csum_ifftshift (l : list complex) : Csum (ifftshift l) = Csum l.
Proof. apply Csum_roll. Qed.

Lemma Csum_fftshift (l : list complex) : Csum (fftshift l) = Csum l.
Proof. apply Csum_roll. Qed.

Lemma Csum_map_conj (l : list complex) : Csum (map Cconj l) = Cconj (Csum l).
Proof.
  induction l as [|h t IH]; simpl.
  - cring.
  - rewrite IH. cring.
Qed.

Lemma Re_Csum (l : list complex) : Re (Csum l) = Rsum (map Re l).
Proof.
  induction l as [|h t IH]; simpl; [reflexivity|]. rewrite IH. reflexivity.
Qed.

Lemma Csum_ext (f g : nat -> complex) (l : list nat) :
  (forall i, In i l -> f i = g i) -> Csum (map f l) = Csum (map g l).
Proof.
  intros H. f_equal. apply map_ext_in. exact H.
Qed.

Lemma Csum_scal (c : complex) (f : nat -> complex) (l : list nat) :
  Csum (map (fun i => c * f i)%C l) = (c * Csum (map f l))%C.
Proof.
  induction l as [|h t IH]; simpl.
  - ring.
  - rewrite IH. ring.
Qed.

Lemma Csum_plus (f g : nat -> complex) (l : list nat) :
  Csum (map (fun i => f i + g i)%C l) = (Csum (map f l) + Csum (map g l))%C.
Proof.
  induction l as [|h t IH]; simpl.
  - ring.
  - rewrite IH. ring.
Qed.

Lemma Csum_zero (l : list nat) : Csum (map (fun _ => C0) l) = C0.
Proof.
  induction l as [|h t IH]; simpl; [reflexivity|]. rewrite IH. ring.
Qed.

(** Exchange of two finite sums. *)
Lemma Csum_swap (f : nat -> nat -> complex) (l1 l2 : list nat) :
  Csum (map (fun i => Csum (map (fun j => f i j) l2)) l1) =
  Csum (map (fun j => Csum (map (fun i => f i j) l1)) l2).
Proof.
  induction l1 as [|h t IH]; simpl.
  - rewrite Csum_zero. reflexivity.
  - rewrite IH, <- Csum_plus. reflexivity.
Qed.

Lemma map_nth_seq {A : Type} (d : A) (l : list A) :
  map (fun j => nth j l d) (seq 0 (length l)) = l.
Proof.
  induction l as [|h t IH]; simpl; [reflexivity|].
  f_equal. rewrite <- seq_shift, map_map. exact IH.
Qed.

Lemma Rsum_map_scal (c : R) (l : list R) : Rsum (map (fun v => v * c) l) = Rsum l * c.
Proof.
  induction l as [|h t IH]; simpl; [ring|]. rewrite IH. ring.
Qed.

(** ** Trapezoidal rule: the full sum less half of the two end values *)

Lemma trapz_real_sum (y : list R) :
  y <> [] -> trapz_real y = Rsum y - (hd 0 y + last y 0) / 2.
Proof.
  induction y as [|y0 t IH]; [congruence|]. intros _.
  destruct t as [|y1 t'].
  - simpl. field.
  - change (trapz_real (y0 :: y1 :: t')) with ((y1 + y0) / 2 + trapz_real (y1 :: t')).
    rewrite IH by discriminate.
    change (last (y0 :: y1 :: t') 0) with (last (y1 :: t') 0).
    simpl hd. simpl Rsum. field.
Qed.

Lemma Re_trapz (y : list complex) : Re (trapz y) = trapz_real (map Re y).
Proof.
  induction y as [|y0 t IH]; [reflexivity|].
  destruct t as [|y1 t']; [reflexivity|].
  change (trapz (y0 :: y1 :: t')) with ((y1 + y0) * RtoC (/ 2) + trapz (y1 :: t'))%C.
  change (map Re (y0 :: y1 :: t')) with (Re y0 :: Re y1 :: map Re t').
  change (trapz_real (Re y0 :: Re y1 :: map Re t'))
    with ((Re y1 + Re y0) / 2 + trapz_real (map Re (y1 :: t'))).
  rewrite <- IH. simpl. field.
Qed.

(** ** The discrete Fourier transform *)

Lemma Cexp_i (t : R) : Cexp (Ci * RtoC t)%C = mkC (cos t) (sin t).
Proof.
  apply C_eq; simpl.
  - replace (0 * t - 1 * 0) with 0 by ring.
    replace (0 * 0 + 1 * t) with t by ring.
    rewrite exp_0. ring.
  - replace (0 * t - 1 * 0) with 0 by ring.
    replace (0 * 0 + 1 * t) with t by ring.
    rewrite exp_0. ring.
Qed.

Lemma Cexp_i_add (s t : R) :
  Cexp (Ci * RtoC (s + t))%C = (Cexp (Ci * RtoC s) * Cexp (Ci * RtoC t))%C.
Proof.
  rewrite <- Cexp_add. f_equal. cring.
Qed.

Lemma Cexp_i_2kPI (k : nat) : Cexp (Ci * RtoC (- (2 * INR k * PI)))%C = C1.
Proof.
  rewrite Cexp_i. apply C_eq; simpl.
  - rewrite cos_neg. replace (2 * INR k * PI) with (0 + 2 * INR k * PI) by ring.
    rewrite cos_period. apply cos_0.
  - rewrite sin_neg. replace (2 * INR k * PI) with (0 + 2 * INR k * PI) by ring.
    rewrite sin_period, sin_0. ring.
Qed.

Lemma twiddle_0_r (n j : nat) : twiddle n j 0 = C1.
Proof.
  unfold twiddle. simpl INR.
  replace (- (2 * PI * INR j * 0 / INR n)) with 0 by (unfold Rdiv; ring).
  rewrite Cexp_i, cos_0, sin_0. reflexivity.
Qed.

Lemma twiddle_0_l (n m : nat) : twiddle n 0 m = C1.
Proof.
  unfold twiddle. simpl INR.
  replace (- (2 * PI * 0 * INR m / INR n)) with 0 by (unfold Rdiv; ring).
  rewrite Cexp_i, cos_0, sin_0. reflexivity.
Qed.

Lemma twiddle_sym (n j m : nat) : twiddle n j m = twiddle n m j.
Proof.
  unfold twiddle. do 3 f_equal. unfold Rdiv. ring.
Qed.

(** Geometric sum of the powers of [exp(i theta)]. *)
Lemma geometric_sum (theta : R) (M : nat) :
  (Csum (map (fun m => Cexp (Ci * RtoC (INR m * theta))) (seq 0 M))
   * (C1 - Cexp (Ci * RtoC theta)) = C1 - Cexp (Ci * RtoC (INR M * theta)))%C.
Proof.
  induction M as [|M IH].
  - change (INR 0) with 0. replace (0 * theta) with 0 by ring.
    rewrite (Cexp_i 0), cos_0, sin_0. cbn [seq map Csum fold_right]. cring.
  - rewrite seq_S, map_app, Csum_app. simpl map. simpl Csum.
    rewrite Cmul_add_distr_r, IH.
    replace (INR (S M) * theta) with (INR M * theta + theta) by (rewrite S_INR; ring).
    rewrite Cexp_i_add. ring.
Qed.

Lemma root_of_unity_neq_1 (n j : nat) :
  (0 < j < n)%nat -> (C1 - Cexp (Ci * RtoC (- (2 * PI * INR j / INR n))))%C <> C0.
Proof.
  intros [Hj Hn] H. apply (f_equal Re) in H. rewrite Cexp_i in H. simpl in H.
  assert (Hn0 : 0 < INR n) by (apply lt_0_INR; lia).
  assert (Hj0 : 0 < INR j) by (apply lt_0_INR; lia).
  assert (Hjn : INR j < INR n) by (apply lt_INR; assumption).
  set (t := PI * INR j / INR n).
  assert (Ht : 0 < t < PI).
  { unfold t. pose proof PI_RGT_0 as HPI. split.
    - apply Rdiv_lt_0_compat; [apply Rmult_lt_0_compat|]; assumption.
    - apply (Rmult_lt_reg_r (INR n)); [assumption|].
      unfold Rdiv. rewrite Rmult_assoc, Rinv_l by lra. nra. }
  rewrite cos_neg in H.
  replace (2 * PI * INR j / INR n) with (2 * t) in H by (unfold t, Rdiv; ring).
  rewrite cos_2a_sin in H.
  pose proof (sin_gt_0 t (proj1 Ht) (proj2 Ht)) as Hs.
  nra.
Qed.

Lemma Cmul_eq_0_l (z w : complex) : (z * w)%C = C0 -> w <> C0 -> z = C0.
Proof.
  intros H Hw.
  assert (E : z = (z * w * Cinv w)%C).
  { rewrite <- Cmul_assoc, Cinv_r by assumption. ring. }
  rewrite E, H. ring.
Qed.

(** Orthogonality: the [n] powers of a non-trivial [n]-th root of unity sum
    to zero. *)
Lemma root_sum_zero (n j : nat) :
  (0 < j < n)%nat -> Csum (map (fun m => twiddle n j m) (seq 0 n)) = C0.
Proof.
  intros Hj.
  assert (Hn0 : INR n <> 0) by (apply not_0_INR; lia).
  set (theta := - (2 * PI * INR j / INR n)).
  assert (E : Csum (map (fun m => twiddle n j m) (seq 0 n)) =
              Csum (map (fun m => Cexp (Ci * RtoC (INR m * theta))) (seq 0 n))).
  { apply Csum_ext. intros m _. unfold twiddle, theta. do 3 f_equal.
    unfold Rdiv. ring. }
  rewrite E. apply Cmul_eq_0_l with (w := (C1 - Cexp (Ci * RtoC theta))%C).
  - rewrite geometric_sum.
    replace (INR n * theta) with (- (2 * INR j * PI)) by (unfold theta; field; assumption).
    rewrite Cexp_i_2kPI. ring.
  - apply root_of_unity_neq_1. assumption.
Qed.

Lemma Csum_const_1 (n : nat) : Csum (map (fun _ => C1) (seq 0 n)) = RtoC (INR n).
Proof.
  induction n as [|n IH].
  - reflexivity.
  - rewrite seq_S, map_app, Csum_app, IH. rewrite S_INR. cring.
Qed.

Lemma length_fft (a : list complex) : length (fft a) = length a.
Proof. unfold fft. rewrite length_map, length_seq. reflexivity. Qed.

Lemma length_fftshift {A : Type} (a : list A) : length (fftshift a) = length a.
Proof.
  unfold fftshift. rewrite length_app, length_skipn, length_firstn.
  pose proof (Nat.Div0.div_le_upper_bound (length a) 2 (length a)). lia.
Qed.

Lemma length_ifftshift {A : Type} (a : list A) : length (ifftshift a) = length a.
Proof.
  unfold ifftshift. rewrite length_app, length_skipn, length_firstn.
  pose proof (Nat.Div0.div_le_upper_bound (length a) 2 (length a)). lia.
Qed.

Create Rewrite HintDb lengths.
#[export] Hint Rewrite @length_map @length_seq length_fft
  @length_fftshift @length_ifftshift : lengths.

(** The zero-frequency output of the transform is the plain sum. *)
Lemma fft_0 (a : list complex) : a <> [] -> nth_error (fft a) 0 = Some (Csum a).
Proof.
  intros Ha. unfold fft.
  rewrite nth_error_map_seq by (destruct a; [congruence|simpl; lia]).
  f_equal. transitivity (Csum (map (fun j => nth j a C0) (seq 0 (length a)))).
  - apply Csum_ext. intros j _. rewrite twiddle_0_r. ring.
  - rewrite map_nth_seq. reflexivity.
Qed.

(** Summing all outputs of the transform gives [n] times the first input. *)
Lemma fft_total (a : list complex) :
  Csum (fft a) = (RtoC (INR (length a)) * nth 0 a C0)%C.
Proof.
  unfold fft. set (n := length a).
  rewrite (Csum_swap (fun m j => (nth j a C0 * twiddle n j m)%C)).
  rewrite (Csum_ext _ (fun j => if (j =? 0)%nat then (RtoC (INR n) * nth 0 a C0)%C else C0)).
  - destruct n as [|n']; [cbn [seq map Csum fold_right INR]; cring|].
    rewrite <- cons_seq. cbn [map Csum fold_right Nat.eqb].
    rewrite (Csum_ext _ (fun _ => C0)).
    + rewrite Csum_zero. ring.
    + intros j Hj. apply in_seq in Hj.
      destruct (Nat.eqb_spec j 0); [lia|reflexivity].
  - intros j Hj. apply in_seq in Hj. rewrite Csum_scal.
    destruct (Nat.eqb_spec j 0) as [->|Hj0].
    + rewrite (Csum_ext (fun i => twiddle n 0 i) (fun _ => C1))
        by (intros; apply twiddle_0_l).
      rewrite Csum_const_1. ring.
    + rewrite root_sum_zero by lia. ring.
Qed.

(** After [fftshift], the zero-frequency output sits at index [n/2]. *)
Lemma fftshift_mid {A : Type} (a : list A) :
  a <> [] -> nth_error (fftshift a) (length a / 2) = nth_error a 0.
Proof.
  intros Ha. unfold fftshift.
  assert (Hlt : (length a / 2 < length a)%nat) by (apply half_lt_length; assumption).
  rewrite nth_error_app2 by (rewrite length_skipn; lia).
  rewrite length_skipn.
  replace (length a / 2 - (length a - (length a - length a / 2)))%nat with 0%nat by lia.
  rewrite nth_error_firstn.
  destruct (Nat.ltb_spec 0 (length a - length a / 2)); [reflexivity|lia].
Qed.

(** Before the transform, [ifftshift] brings the middle entry to the front. *)
Lemma ifftshift_0 {A : Type} (a : list A) :
  a <> [] -> nth_error (ifftshift a) 0 = nth_error a (length a / 2).
Proof.
  intros Ha. unfold ifftshift.
  assert (Hlt : (length a / 2 < length a)%nat) by (apply half_lt_length; assumption).
  rewrite nth_error_app1 by (rewrite length_skipn; lia).
  rewrite nth_error_skipn. f_equal. lia.
Qed.

(** ** Linear interpolation at a knot *)

Lemma interp1d_cons2 (x0 x1 : R) (t : list R) (y0 y1 : R) (s : list R) (x : R) :
  interp1d (x0 :: x1 :: t) (y0 :: y1 :: s) x =
  if Rle_dec x0 x then
    if Rle_dec x x1 then Ok (y0 + (y1 - y0) * (x - x0) / (x1 - x0))
    else interp1d (x1 :: t) (y1 :: s) x
  else Raise ValueError.
Proof. reflexivity. Qed.

Lemma increasing_tail (x0 : R) (t : list R) : increasing (x0 :: t) -> increasing t.
Proof.
  intros H i j Hij. apply (H (S i) (S j)). simpl. lia.
Qed.

Lemma interp1d_knot (xs : list R) :
  forall (ys : list R) (j : nat),
    increasing xs -> length ys = length xs -> (2 <= length xs)%nat ->
    (j < length xs)%nat ->
    interp1d xs ys (nth j xs 0) = Ok (nth j ys 0).
Proof.
  induction xs as [|x0 t IH]; intros ys j Hinc Hlen H2 Hj; [simpl in Hj; lia|].
  destruct t as [|x1 t']; [simpl in H2; lia|].
  destruct ys as [|y0 [|y1 s]]; try discriminate.
  rewrite interp1d_cons2.
  assert (H01 : x0 < x1) by (apply (Hinc 0%nat 1%nat); simpl; lia).
  destruct j as [|[|j']].
  - simpl nth.
    destruct (Rle_dec x0 x0) as [_|n0]; [|lra].
    destruct (Rle_dec x0 x1) as [_|n1]; [|lra].
    f_equal. unfold Rdiv. ring.
  - simpl nth.
    destruct (Rle_dec x0 x1) as [_|n0]; [|lra].
    destruct (Rle_dec x1 x1) as [_|n1]; [|lra].
    f_equal. field. lra.
  - assert (H1j : x1 < nth (S (S j')) (x0 :: x1 :: t') 0)
      by (apply (Hinc 1%nat (S (S j'))); simpl in *; lia).
    destruct (Rle_dec x0 (nth (S (S j')) (x0 :: x1 :: t') 0)) as [_|n0]; [|lra].
    destruct (Rle_dec (nth (S (S j')) (x0 :: x1 :: t') 0) x1) as [l1|_]; [lra|].
    change (nth (S (S j')) (x0 :: x1 :: t') 0) with (nth (S j') (x1 :: t') 0).
    change (nth (S (S j')) (y0 :: y1 :: s) 0) with (nth (S j') (y1 :: s) 0).
    apply IH.
    + apply increasing_tail with x0. assumption.
    + simpl in *. lia.
    + simpl in *. lia.
    + simpl in *. lia.
Qed.

Lemma increasing_spot_array (S0 w : R) (N : Z) (n : nat) :
  0 < S0 -> 0 < w ->
  increasing (spot_array S0 (map (fun j => w * (IZR (- N) + INR j)) (seq 0 n))).
Proof.
  intros HS Hw i j Hij. unfold spot_array in *.
  rewrite !length_map, length_seq in Hij.
  rewrite !map_map.
  rewrite (nth_indep _ 0 (S0 * exp (w * (IZR (- N) + INR 0))))
    by (rewrite length_map, length_seq; lia).
  rewrite (nth_indep _ 0 (S0 * exp (w * (IZR (- N) + INR 0))) (n := j))
    by (rewrite length_map, length_seq; lia).
  rewrite !(map_nth (fun j => S0 * exp (w * (IZR (- N) + INR j))) (seq 0 n) 0%nat).
  rewrite !seq_nth by lia. simpl plus.
  apply Rmult_lt_compat_l; [assumption|]. apply exp_increasing.
  apply Rmult_lt_compat_l; [assumption|].
  apply Rplus_lt_compat_l. apply lt_INR. lia.
Qed.

(** ** Reading the discounted transform off at the spot *)

Lemma length_plancherel (r T xwidth : R) (H : list complex) :
  length (plancherel r T xwidth H) = length H.
Proof. unfold plancherel. autorewrite with lengths. reflexivity. Qed.

#[export] Hint Rewrite length_plancherel : lengths.

(** The middle entry of the shifted transform is the sum of the inputs. *)
Lemma transform_mid (H : list complex) :
  H <> [] ->
  nth_error (fftshift (fft (ifftshift H))) (length H / 2) = Some (Csum H).
Proof.
  intros HH.
  assert (Hi : ifftshift H <> []).
  { intros E. apply (f_equal (@length _)) in E. rewrite length_ifftshift in E.
    destruct H; simpl in E; congruence. }
  assert (Hf : fft (ifftshift H) <> []).
  { intros E. apply (f_equal (@length _)) in E.
    rewrite length_fft, length_ifftshift in E. destruct H; simpl in E; congruence. }
  rewrite <- (length_ifftshift H), <- (length_fft (ifftshift H)).
  rewrite fftshift_mid by assumption.
  rewrite fft_0 by assumption. rewrite Csum_ifftshift. reflexivity.
Qed.

Lemma plancherel_mid (r T xwidth : R) (H : list complex) :
  H <> [] ->
  nth_error (plancherel r T xwidth H) (length H / 2) =
  Some (exp (- r * T) * Re (Csum H) / xwidth).
Proof.
  intros HH. unfold plancherel.
  rewrite nth_error_map, transform_mid by assumption. reflexivity.
Qed.

Lemma length_arr_mul (a b : list complex) :
  length a = length b -> length (arr_mul a b) = length a.
Proof.
  intros H. unfold arr_mul. rewrite length_map, length_combine. lia.
Qed.

Lemma arr_mul_conj (G psi : list complex) :
  arr_mul (map Cconj G) psi = map Cconj (arr_mul G (map Cconj psi)).
Proof.
  unfold arr_mul. revert psi.
  induction G as [|h t IH]; intros [|p q]; simpl; try reflexivity.
  rewrite IH. f_equal. cring.
Qed.

(** Conjugating the payoff transform or the characteristic function leaves
    the real part of the sum of products unchanged. *)
Lemma Re_sum_conj (G psi : list complex) :
  Re (Csum (arr_mul (map Cconj G) psi)) = Re (Csum (arr_mul G (map Cconj psi))).
Proof.
  rewrite arr_mul_conj, Csum_map_conj. reflexivity.
Qed.

(** The grid of [2N] points of positive width and the positive spot are
    shared by the statements on reading a price off the curve. *)
Section SpotOnGrid.

Variables (r T xwidth S0 : R) (N : Z) (g : Grid).
Hypothesis Hwidth : 0 < xwidth.
Hypothesis Hspot : 0 < S0.
Hypothesis Hsize : (1 <= N)%Z.
Hypothesis Hgrid : build_grid xwidth (2 * N) = Ok g.

(** The spot [S0] is the knot of index [N], so the interpolation returns
    the middle entry of the curve. *)
Lemma read_off_at_spot (H : list complex) :
  length H = Z.to_nat (2 * N) ->
  interp1d (spot_array S0 (grid_x g)) (plancherel r T xwidth H) S0 =
  Ok (exp (- r * T) * Re (Csum H) / xwidth).
Proof.
  intros HlenH.
  assert (Hw0 : xwidth <> 0) by lra.
  destruct (build_grid_zero_bin xwidth N g Hw0 Hsize Hgrid) as (_ & _ & Hx0).
  pose proof Hgrid as Hg.
  rewrite build_grid_even in Hg by assumption. apply Ok_inj in Hg.
  rewrite <- Hg in *. cbn [grid_x] in *.
  set (n := Z.to_nat (2 * N)) in *.
  assert (Hn : n = (2 * Z.to_nat N)%nat) by (unfold n; rewrite Z2Nat.inj_mul; lia).
  assert (HN1 : (1 <= Z.to_nat N)%nat) by lia.
  set (xs := map (fun j => xwidth / IZR (2 * N) * (IZR (- N) + INR j)) (seq 0 n)) in *.
  assert (Hlx : length xs = n) by (unfold xs; autorewrite with lengths; reflexivity).
  assert (HS0 : nth (Z.to_nat N) (spot_array S0 xs) 0 = S0).
  { apply nth_error_nth. unfold spot_array. rewrite nth_error_map, Hx0. simpl.
    rewrite exp_0. f_equal. ring. }
  rewrite <- HS0 at 2.
  rewrite interp1d_knot.
  - f_equal. apply nth_error_nth.
    replace (Z.to_nat N) with (length H / 2)%nat
      by (rewrite HlenH, Hn, Nat.mul_comm; apply Nat.div_mul; discriminate).
    apply plancherel_mid. intros E. rewrite E in HlenH. simpl in HlenH. lia.
  - unfold xs. apply increasing_spot_array; [assumption|].
    apply Rdiv_lt_0_compat; [assumption|]. apply IZR_lt. lia.
  - unfold spot_array. autorewrite with lengths. lia.
  - unfold spot_array. autorewrite with lengths. lia.
  - unfold spot_array. autorewrite with lengths. lia.
Qed.

(** The value read off at the spot by the discrete-transform form. *)
Lemma price_fft_value (G psi : list complex) :
  length G = Z.to_nat (2 * N) -> length psi = Z.to_nat (2 * N) ->
  price_fft r T xwidth S0 (spot_array S0 (grid_x g)) G psi =
  Ok (exp (- r * T) * Re (Csum (arr_mul G (map Cconj psi))) / xwidth).
Proof.
  intros HG Hpsi. unfold price_fft. apply read_off_at_spot.
  rewrite length_arr_mul; [assumption|]. rewrite length_map. congruence.
Qed.

Lemma price_fft_conjG_value (G psi : list complex) :
  length G = Z.to_nat (2 * N) -> length psi = Z.to_nat (2 * N) ->
  price_fft_conjG r T xwidth S0 (spot_array S0 (grid_x g)) G psi =
  Ok (exp (- r * T) * Re (Csum (arr_mul (map Cconj G) psi)) / xwidth).
Proof.
  intros HG Hpsi. unfold price_fft_conjG. apply read_off_at_spot.
  rewrite length_arr_mul; rewrite length_map; congruence.
Qed.

End SpotOnGrid.

(** ** Characteristic functions at frequency zero *)

Lemma psi_exponent_0 (m sigma lmbda mu_j sigma_j : R) :
  psi_exponent m sigma lmbda mu_j sigma_j (RtoC 0) = C0.
Proof.
  unfold psi_exponent.
  replace (Ci * RtoC mu_j * RtoC 0 - RtoC 0.5 * Csqr (RtoC sigma_j * RtoC 0))%C
    with C0 by cring.
  rewrite Cexp_0. cring.
Qed.

Lemma psi_value_0 (m sigma lmbda mu_j sigma_j T : R) :
  psi_value m sigma lmbda mu_j sigma_j T (RtoC 0) = C1.
Proof.
  unfold psi_value. rewrite psi_exponent_0.
  replace (C0 * RtoC T)%C with C0 by cring. apply Cexp_0.
Qed.

(** The undamped sample [psi] of the driver is one at the zero-frequency
    index of the grid. *)
Lemma psi_zero_bin (m sigma lmbda mu_j sigma_j T xwidth : R) (N : Z) (g : Grid) :
  xwidth <> 0 -> (1 <= N)%Z -> build_grid xwidth (2 * N) = Ok g ->
  nth_error (psi m sigma lmbda mu_j sigma_j T (grid_xi g)) (Z.to_nat N) = Some C1.
Proof.
  intros Hw HN Hg.
  destruct (build_grid_zero_bin xwidth N g Hw HN Hg) as (Hhalf & H0 & _).
  rewrite Hhalf in H0. unfold psi. rewrite nth_error_map, H0. simpl.
  rewrite psi_value_0. reflexivity.
Qed.

Lemma diffusion_cf_0 (r q sigma T : R) : diffusion_cf r q sigma T (RtoC 0) = C1.
Proof.
  unfold diffusion_cf, diffusion_exponent.
  match goal with |- Cexp ?z = _ => replace z with C0 by cring end.
  apply Cexp_0.
Qed.

(** With no jumps the code's characteristic function is the diffusion one. *)
Lemma psi_value_no_jumps (r q sigma mu_j sigma_j T : R) (z : complex) :
  psi_value (muRN r q sigma 0 mu_j sigma_j) sigma 0 mu_j sigma_j T z =
  diffusion_cf r q sigma T z.
Proof.
  unfold psi_value, diffusion_cf. f_equal.
  unfold psi_exponent, diffusion_exponent, muRN, diffusion_drift.
  generalize (Cexp (Ci * RtoC mu_j * z - RtoC 0.5 * Csqr (RtoC sigma_j * z))%C).
  intros A. destruct A as [a1 a2], z as [z1 z2]. cfield.
Qed.

Lemma Cabs_RtoC (x : R) : 0 <= x -> Cabs (RtoC x) = x.
Proof.
  intros H. unfold Cabs, Cnorm2. simpl.
  replace (x * x + 0 * 0) with (x * x) by ring. apply sqrt_square. assumption.
Qed.

Lemma Csqrt_RtoC (x : R) : 0 <= x -> Csqrt (RtoC x) = RtoC (sqrt x).
Proof.
  intros H. unfold Csqrt. rewrite Cabs_RtoC by assumption. simpl.
  destruct (Rlt_dec 0 0) as [F|_]; [lra|].
  apply C_eq; simpl.
  - f_equal. field.
  - replace ((x - x) / 2) with 0 by field. rewrite sqrt_0. ring.
Qed.

Lemma Heston_d_0 (rho sigma b u : R) :
  Csqrt (Csqr (RtoC (rho * sigma * 0) * Ci - RtoC b)
         - RtoC (sigma ^ 2) * (RtoC (2 * u * 0) * Ci - RtoC (0 ^ 2)))%C
  = RtoC (Rabs b).
Proof.
  replace (Csqr (RtoC (rho * sigma * 0) * Ci - RtoC b)
           - RtoC (sigma ^ 2) * (RtoC (2 * u * 0) * Ci - RtoC (0 ^ 2)))%C
    with (RtoC (Rsqr b)) by (unfold Csqr, Rsqr; cring).
  rewrite Csqrt_RtoC by apply Rle_0_sqr.
  rewrite sqrt_Rsqr_abs. reflexivity.
Qed.

Lemma Ndiv_fin (z w : complex) : w <> C0 -> Ndiv (fin z) (fin w) = fin (z * Cinv w)%C.
Proof.
  intros H. unfold Ndiv, fin. destruct (Ceq_dec w C0); [contradiction|reflexivity].
Qed.

Lemma Ndiv_by_zero (z w : complex) : w = C0 -> Ndiv (fin z) (fin w) = None.
Proof.
  intros H. unfold Ndiv, fin. destruct (Ceq_dec w C0); [reflexivity|contradiction].
Qed.

Lemma Nlog_1 (z : complex) : z = C1 -> Nlog (fin z) = fin C0.
Proof.
  intros ->. unfold Nlog, fin.
  destruct (Ceq_dec C1 C0) as [E|_].
  - apply (f_equal Re) in E. simpl in E. lra.
  - f_equal. change C1 with (RtoC 1). rewrite Cabs_RtoC by lra. rewrite ln_1.
    unfold Carg. simpl. destruct (Rlt_dec 0 1) as [_|F]; [|lra].
    replace (0 / 1) with 0 by field. rewrite atan_0. reflexivity.
Qed.

Lemma sqr_nonzero (sigma : R) : sigma <> 0 -> sigma ^ 2 <> 0.
Proof. intros H. apply pow_nonzero. assumption. Qed.

(** At [phi = 0] with [b >= 0] the denominator of [g] is [b - |b| = 0]:
    the division is by zero and the result is not finite. *)
Lemma f_Heston_0_singular (S0 v0 T r q kappa theta sigma rho lmbda : R) (j : Z) :
  sigma <> 0 -> 0 <= Heston_b kappa lmbda rho sigma j ->
  f_Heston 0 S0 v0 T r q kappa theta sigma rho lmbda j = Ok None.
Proof.
  intros Hs Hb. unfold f_Heston. cbv zeta.
  rewrite Heston_d_0, Rabs_right by lra.
  rewrite Ndiv_by_zero by cring.
  destruct (Req_dec_T (sigma ^ 2) 0) as [E|_].
  - exfalso. revert E. apply sqr_nonzero. assumption.
  - reflexivity.
Qed.

Lemma f_Heston_0_regular (S0 v0 T r q kappa theta sigma rho lmbda : R) (j : Z) :
  0 < S0 -> sigma <> 0 -> Heston_b kappa lmbda rho sigma j < 0 ->
  f_Heston 0 S0 v0 T r q kappa theta sigma rho lmbda j = Ok (fin C1).
Proof.
  intros HS0 Hs Hb. unfold f_Heston. cbv zeta.
  unfold Rlog. destruct (Rlt_dec 0 S0) as [_|F]; [|contradiction].
  rewrite Heston_d_0, Rabs_left by lra.
  set (b := Heston_b kappa lmbda rho sigma j) in *.
  destruct (Req_dec_T (sigma ^ 2) 0) as [E|_].
  { exfalso. revert E. apply sqr_nonzero. assumption. }
  set (rsp := (RtoC (rho * sigma * 0) * Ci)%C).
  replace (RtoC b - rsp + RtoC (- b))%C with C0 by (unfold rsp; cring).
  rewrite Ndiv_fin
    by (intros E; apply (f_equal Re) in E; unfold rsp in E; simpl in E; lra).
  replace (C0 * Cinv (RtoC b - rsp - RtoC (- b)))%C with C0 by ring.
  set (edT := Cexp (RtoC (- b) * RtoC T)%C).
  change (Nmul (fin C0) (fin edT)) with (fin (C0 * edT)%C).
  replace (C0 * edT)%C with C0 by ring.
  change (Nsub (fin C1) (fin C0)) with (fin (C1 - C0)%C).
  replace (C1 - C0)%C with C1 by ring.
  assert (H1 : C1 <> C0).
  { intros E. apply (f_equal Re) in E. simpl in E. lra. }
  rewrite !Ndiv_fin by exact H1.
  rewrite Nlog_1 by (apply Cinv_r; exact H1).
  unfold Nadd, Nsub, Nmul, Nexp, lift2, fin, option_map.
  do 2 f_equal.
  replace (RtoC ((r - q) * 0)) with C0 by cring.
  change (RtoC 0) with C0.
  match goal with |- Cexp ?z = _ => replace z with C0 by ring end.
  apply Cexp_0.
Qed.

(** For a spot that is not positive [np.log(S0)] is not finite, and neither
    is the value of [f_Heston], at any frequency. *)
Lemma f_Heston_spot_not_positive (phi S0 v0 T r q kappa theta sigma rho lmbda : R) (j : Z) :
  S0 <= 0 -> sigma <> 0 ->
  f_Heston phi S0 v0 T r q kappa theta sigma rho lmbda j = Ok None.
Proof.
  intros HS0 Hs. unfold f_Heston. cbv zeta.
  destruct (Req_dec_T (sigma ^ 2) 0) as [E|_].
  { exfalso. revert E. apply sqr_nonzero. assumption. }
  unfold Rlog. destruct (Rlt_dec 0 S0) as [F|_]; [lra|].
  f_equal.
  match goal with |- Nexp (Nadd ?a _) = _ => generalize a end.
  intros a. destruct a; reflexivity.
Qed.

(** ** Exceptions of [payoff] *)

Lemma list_set_cases {A : Type} (l : list A) (i : nat) (v : A) :
  (exists l', list_set l i v = Ok l') \/ list_set l i v = Raise IndexError.
Proof.
  revert i. induction l as [|h t IH]; intros i.
  - right. apply list_set_empty.
  - destruct i as [|i]; simpl.
    + left. eexists; reflexivity.
    + destruct (IH i) as [[t' E]|E]; rewrite E; simpl.
      * left. eexists; reflexivity.
      * right. reflexivity.
Qed.

Lemma payoff_raises (x xi : list R) (alpha K L U C : R) (call : Z) (e : exn) :
  payoff x xi alpha K L U C call = Raise e -> e = ZeroDivisionError \/ e = IndexError.
Proof.
  unfold payoff.
  destruct (Req_dec_T C 0) as [_|_]; [intros H; injection H as <-; left; reflexivity|].
  destruct (Req_dec_T alpha 0) as [_|_].
  - match goal with |- context [list_set ?l ?i ?v] =>
      destruct (list_set_cases l i v) as [[l' E]|E]; rewrite E end; simpl.
    + discriminate.
    + intros H; injection H as <-; right; reflexivity.
  - destruct (Req_dec_T alpha (-1)) as [_|_]; [|discriminate].
    match goal with |- context [list_set ?l ?i ?v] =>
      destruct (list_set_cases l i v) as [[l' E]|E]; rewrite E end; simpl.
    + discriminate.
    + intros H; injection H as <-; right; reflexivity.
Qed.

Lemma payoff_length_g (x xi : list R) (alpha K L U C : R) (call : Z)
      (g : list R) (G : list num) (S : list R) :
  payoff x xi alpha K L U C call = Ok (g, G, S) -> length g = length x.
Proof.
  unfold payoff.
  destruct (Req_dec_T C 0) as [_|_]; [discriminate|].
  assert (Hg : forall g0 : list R,
             g0 = (if (call =? 1)%Z
                   then map (fun xj => exp (alpha * xj) * Rmax (C * exp xj - K) 0
                                       * indicator (Rge_dec (C * exp xj) L)
                                       * indicator (Rle_dec (C * exp xj) U)) x
                   else map (fun xj => exp (alpha * xj) * Rmax (K - C * exp xj) 0
                                       * indicator (Rge_dec (C * exp xj) L)
                                       * indicator (Rle_dec (C * exp xj) U)) x) ->
             length g0 = length x).
  { intros g0 ->. destruct (call =? 1)%Z; apply length_map. }
  destruct (Req_dec_T alpha 0) as [_|_].
  - match goal with |- context [list_set ?l ?i ?v] =>
      destruct (list_set_cases l i v) as [[l' E]|E]; rewrite E end; simpl;
      [|discriminate].
    intros H; injection H as H1 H2 H3. apply Hg. symmetry. exact H1.
  - destruct (Req_dec_T alpha (-1)) as [_|_].
    + match goal with |- context [list_set ?l ?i ?v] =>
        destruct (list_set_cases l i v) as [[l' E]|E]; rewrite E end; simpl;
        [|discriminate].
      intros H; injection H as H1 H2 H3. apply Hg. symmetry. exact H1.
    + intros H; injection H as H1 H2 H3. apply Hg. symmetry. exact H1.
Qed.

Lemma bound_a_spec (L K U C : R) (call : Z) :
  bound_a L K U C call = fst (spec_interval L K U C (call =? 1)%Z).
Proof. unfold bound_a, spec_interval. destruct (call =? 1)%Z; reflexivity. Qed.

Lemma bound_b_spec (L K U C : R) (call : Z) :
  bound_b L K U C call = snd (spec_interval L K U C (call =? 1)%Z).
Proof. unfold bound_b, spec_interval. destruct (call =? 1)%Z; reflexivity. Qed.

(** ** Exceptions of [build_grid] *)

Lemma build_grid_raises (xwidth : R) (ngrid : Z) (e : exn) :
  build_grid xwidth ngrid = Raise e -> e = ZeroDivisionError \/ e = ValueError.
Proof.
  unfold build_grid, pydiv, linspace.
  destruct (Req_dec_T (IZR ngrid) 0) as [_|_]; cbn [bind];
    [intros H; injection H as <-; left; reflexivity|].
  destruct (2 * Z.quot ngrid 2 <? 0)%Z; cbn [bind];
    [intros H; injection H as <-; right; reflexivity|].
  destruct (Req_dec_T xwidth 0) as [_|_]; cbn [bind];
    [intros H; injection H as <-; left; reflexivity|].
  discriminate.
Qed.

Lemma build_grid_ok (xwidth : R) (ngrid : Z) :
  xwidth <> 0 -> (1 <= ngrid)%Z ->
  exists g, build_grid xwidth ngrid = Ok g /\
            length (grid_x g) = Z.to_nat (2 * Z.quot ngrid 2) /\
            length (grid_xi g) = Z.to_nat (2 * Z.quot ngrid 2).
Proof.
  intros Hw Hn. unfold build_grid, pydiv, linspace.
  destruct (Req_dec_T (IZR ngrid) 0) as [E|_].
  { exfalso. apply eq_IZR_R0 in E. lia. }
  cbn [bind].
  assert (Hq : (0 <= Z.quot ngrid 2)%Z) by (apply Z.quot_pos; lia).
  destruct (2 * Z.quot ngrid 2 <? 0)%Z eqn:E; [apply Z.ltb_lt in E; lia|].
  cbn [bind].
  destruct (Req_dec_T xwidth 0) as [E0|_]; [contradiction|].
  cbn [bind]. eexists. split; [reflexivity|].
  cbn [grid_x grid_xi]. rewrite !length_map, length_seq. split; reflexivity.
Qed.

Lemma six_not_power_of_two : ~ is_power_of_two 6.
Proof.
  intros [k Hk].
  destruct k as [|[|[|k]]]; try (simpl in Hk; lia).
  assert (H8 : (2 ^ 3 <= 2 ^ Z.of_nat (S (S (S k))))%Z)
    by (apply Z.pow_le_mono_r; lia).
  simpl (2 ^ 3)%Z in H8. lia.
Qed.

(** ** The two pricing forms and the density *)

Lemma hd_map {A B : Type} (f : A -> B) (d : A) (l : list A) :
  hd (f d) (map f l) = f (hd d l).
Proof. destruct l; reflexivity. Qed.

Lemma last_map {A B : Type} (f : A -> B) (d : A) (l : list A) :
  last (map f l) (f d) = f (last l d).
Proof.
  induction l as [|h t IH]; [reflexivity|].
  destruct t as [|h' t']; [reflexivity|].
  change (last (map f (h :: h' :: t')) (f d)) with (last (map f (h' :: t')) (f d)).
  rewrite IH. reflexivity.
Qed.

(** The real part of the trapezoidal sum is the real part of the full sum
    less half the real parts of the two end terms. *)
Lemma Re_trapz_sum (H : list complex) :
  H <> [] -> Re (trapz H) = Re (Csum H) - Re (hd C0 H + last H C0)%C / 2.
Proof.
  intros HH. rewrite Re_trapz, trapz_real_sum, Re_Csum.
  - change 0 with (Re C0). rewrite hd_map, last_map. reflexivity.
  - destruct H; [congruence|discriminate].
Qed.

(** The trapezoidal mass of the recovered density, exactly. *)
Lemma density_mass_eq (xwidth : R) (N : Z) (g : Grid) (psi : list complex) (c : complex) :
  xwidth <> 0 -> (1 <= N)%Z ->
  build_grid xwidth (2 * N) = Ok g ->
  length psi = Z.to_nat (2 * N) ->
  nth_error psi (Z.to_nat N) = Some c ->
  density_mass xwidth (grid_dx g) psi =
  Re c - grid_dx g * (hd 0 (density xwidth psi) + last (density xwidth psi) 0) / 2.
Proof.
  intros Hw HN Hg Hlen Hc.
  rewrite build_grid_even in Hg by assumption. apply Ok_inj in Hg. subst g.
  cbn [grid_dx].
  set (n := Z.to_nat (2 * N)) in *.
  assert (Hn : n = (2 * Z.to_nat N)%nat) by (unfold n; rewrite Z2Nat.inj_mul; lia).
  assert (Hne : psi <> []) by (intros E; rewrite E in Hlen; simpl in Hlen; lia).
  assert (Hhalf : (length psi / 2 = Z.to_nat N)%nat)
    by (rewrite Hlen, Hn, Nat.mul_comm; apply Nat.div_mul; discriminate).
  assert (HnR : IZR (2 * N) = INR n) by (unfold n; rewrite INR_IZR_INZ, Z2Nat.id; [reflexivity|lia]).
  assert (Hn0 : INR n <> 0) by (apply not_0_INR; lia).
  unfold density_mass.
  assert (Hd : density xwidth psi <> []).
  { intros E. apply (f_equal (@length _)) in E. unfold density in E.
    rewrite length_map, length_fftshift, length_fft, length_ifftshift in E.
    simpl in E. lia. }
  rewrite trapz_real_sum by (destruct (density xwidth psi); [congruence|discriminate]).
  rewrite Rsum_map_scal.
  replace 0 with (0 * (xwidth / IZR (2 * N))) at 1 2 by ring.
  rewrite (hd_map (fun v => v * (xwidth / IZR (2 * N)))),
          (last_map (fun v => v * (xwidth / IZR (2 * N)))).
  assert (Hsum : Rsum (density xwidth psi) = INR n * Re c / xwidth).
  { unfold density.
    rewrite <- (map_map Re (fun v => v / xwidth)).
    replace (Rsum (map (fun v => v / xwidth) (map Re (fftshift (fft (ifftshift psi))))))
      with (Rsum (map Re (fftshift (fft (ifftshift psi)))) * / xwidth)
      by (symmetry; apply (Rsum_map_scal (/ xwidth))).
    rewrite <- Re_Csum, Csum_fftshift, fft_total, length_ifftshift, Hlen.
    assert (E0 : nth 0 (ifftshift psi) C0 = c).
    { apply nth_error_nth. rewrite ifftshift_0 by assumption. rewrite Hhalf. exact Hc. }
    rewrite E0. simpl. field. assumption. }
  rewrite Hsum, HnR. field. split; assumption.
Qed.

(** The transform form exceeds the trapezoidal form by half the two end
    terms of the integrand. *)
Lemma price_fft_minus_trapz (r T xwidth : R) (G psi : list complex) :
  xwidth <> 0 -> arr_mul (map Cconj G) psi <> [] ->
  exp (- r * T) * Re (Csum (arr_mul G (map Cconj psi))) / xwidth
  - price_trapz r T xwidth G psi =
  exp (- r * T)
  * Re (hd C0 (arr_mul (map Cconj G) psi) + last (arr_mul (map Cconj G) psi) C0)%C
  / (2 * xwidth).
Proof.
  intros Hw HH. unfold price_trapz.
  rewrite Re_trapz_sum by assumption. rewrite <- Re_sum_conj. field. assumption.
Qed.

(** ** The alternating sample *)

Lemma cos_sin_nat_PI (j : nat) : cos (INR j * PI) = (-1) ^ j /\ sin (INR j * PI) = 0.
Proof.
  induction j as [|j [IHc IHs]].
  - simpl. rewrite Rmult_0_l, cos_0, sin_0. split; reflexivity.
  - rewrite S_INR.
    replace ((INR j + 1) * PI) with (INR j * PI + PI) by ring.
    rewrite neg_cos, neg_sin, IHc, IHs. simpl. split; ring.
Qed.

Lemma twiddle_add (n j a b : nat) :
  twiddle n j (a + b) = (twiddle n j a * twiddle n j b)%C.
Proof.
  unfold twiddle. rewrite <- Cexp_i_add. do 3 f_equal.
  rewrite plus_INR. unfold Rdiv. ring.
Qed.

Lemma twiddle_half (N j : nat) :
  (1 <= N)%nat -> twiddle (N + N) j N = RtoC ((-1) ^ j).
Proof.
  intros HN. unfold twiddle.
  assert (HN0 : INR N <> 0) by (apply not_0_INR; lia).
  replace (- (2 * PI * INR j * INR N / INR (N + N))) with (- (INR j * PI))
    by (rewrite plus_INR; field; lra).
  rewrite Cexp_i, cos_neg, sin_neg.
  destruct (cos_sin_nat_PI j) as [-> ->]. apply C_eq; simpl; ring.
Qed.

Lemma twiddle_full (n j : nat) : (1 <= n)%nat -> twiddle n j n = C1.
Proof.
  intros Hn. unfold twiddle.
  assert (Hn0 : INR n <> 0) by (apply not_0_INR; lia).
  replace (- (2 * PI * INR j * INR n / INR n)) with (- (2 * INR j * PI))
    by (field; assumption).
  apply Cexp_i_2kPI.
Qed.

Lemma pow_m1_add_even (j N : nat) : (-1) ^ (j + N + N) = (-1) ^ j.
Proof.
  rewrite <- Nat.add_assoc, pow_add.
  replace (N + N)%nat with (2 * N)%nat by lia.
  rewrite pow_1_even. ring.
Qed.

Lemma ifftshift_halves {A : Type} (l1 l2 : list A) :
  length l1 = length l2 -> ifftshift (l1 ++ l2) = l2 ++ l1.
Proof.
  intros H. unfold ifftshift. rewrite length_app, <- H.
  replace ((length l1 + length l1) / 2)%nat with (length l1)
    by (replace (length l1 + length l1)%nat with (length l1 * 2)%nat by lia;
        symmetry; apply Nat.div_mul; discriminate).
  rewrite skipn_app, firstn_app, skipn_all, firstn_all, Nat.sub_diag. simpl.
  rewrite app_nil_r. reflexivity.
Qed.

Lemma seq_shift_by (s N k : nat) :
  map (fun j => (j + N)%nat) (seq s k) = seq (s + N) k.
Proof.
  revert s. induction k as [|k IH]; intros s; simpl; [reflexivity|].
  f_equal. apply (IH (S s)).
Qed.

Lemma ifftshift_alternating (N : nat) :
  ifftshift (alternating N) = map (fun j => RtoC ((-1) ^ j)) (seq 0 (N + N)).
Proof.
  unfold alternating. rewrite !seq_app, !map_app.
  rewrite ifftshift_halves by (rewrite !length_map, !length_seq; reflexivity).
  rewrite <- (seq_shift_by 0 N N), !map_map. f_equal.
  apply map_ext. intros j. rewrite pow_m1_add_even. reflexivity.
Qed.

Lemma last_nth {A : Type} (d : A) (l : list A) : last l d = nth (length l - 1) l d.
Proof.
  induction l as [|h t IH]; [reflexivity|].
  destruct t as [|h' t']; [reflexivity|].
  change (last (h :: h' :: t') d) with (last (h' :: t') d). rewrite IH.
  simpl length. replace (S (S (length t')) - 1)%nat with (S (length t')) by lia.
  replace (S (length t') - 1)%nat with (length t') by lia. reflexivity.
Qed.

Lemma nth_of_nth_error {A : Type} (d : A) (l l' : list A) (i j : nat) :
  (i < length l)%nat -> nth_error l i = nth_error l' j -> nth i l d = nth j l' d.
Proof.
  intros Hi H. rewrite (nth_error_nth' l d Hi) in H.
  symmetry. apply nth_error_nth. symmetry. exact H.
Qed.

Lemma hd_fftshift {A : Type} (d : A) (a : list A) :
  (2 <= length a)%nat -> hd d (fftshift a) = nth (length a - length a / 2) a d.
Proof.
  intros H.
  assert (Hh : (1 <= length a / 2)%nat) by (apply Nat.div_le_lower_bound; lia).
  assert (Hlt : (length a / 2 < length a)%nat) by (apply Nat.div_lt; lia).
  transitivity (nth 0 (fftshift a) d); [destruct (fftshift a); reflexivity|].
  apply nth_of_nth_error; [rewrite length_fftshift; lia|].
  unfold fftshift. rewrite nth_error_app1 by (rewrite length_skipn; lia).
  rewrite nth_error_skipn. f_equal. lia.
Qed.

Lemma last_fftshift {A : Type} (d : A) (a : list A) :
  (2 <= length a)%nat -> last (fftshift a) d = nth (length a - length a / 2 - 1) a d.
Proof.
  intros H.
  assert (Hh : (1 <= length a / 2)%nat) by (apply Nat.div_le_lower_bound; lia).
  assert (Hlt : (length a / 2 < length a)%nat) by (apply Nat.div_lt; lia).
  rewrite last_nth, length_fftshift.
  apply nth_of_nth_error; [rewrite length_fftshift; lia|].
  unfold fftshift. rewrite nth_error_app2 by (rewrite length_skipn; lia).
  rewrite length_skipn, nth_error_firstn.
  replace (length a - 1 - (length a - (length a - length a / 2)))%nat
    with (length a - length a / 2 - 1)%nat by lia.
  destruct (Nat.ltb_spec (length a - length a / 2 - 1) (length a - length a / 2));
    [reflexivity|lia].
Qed.

Lemma hd_map_nonempty {A B : Type} (f : A -> B) (d : A) (d' : B) (l : list A) :
  l <> [] -> hd d' (map f l) = f (hd d l).
Proof. destruct l; [congruence|reflexivity]. Qed.

Lemma last_map_nonempty {A B : Type} (f : A -> B) (d : A) (d' : B) (l : list A) :
  l <> [] -> last (map f l) d' = f (last l d).
Proof.
  induction l as [|h t IH]; [congruence|]. intros _.
  destruct t as [|h' t']; [reflexivity|].
  change (last (map f (h :: h' :: t')) d') with (last (map f (h' :: t')) d').
  rewrite IH by discriminate. reflexivity.
Qed.

(** The transform of the signs [(-1)^j] at output [m] is the sum of the
    powers of the root of unity of index [N + m]. *)
Lemma fft_signs (N m : nat) :
  (1 <= N)%nat -> (m < N + N)%nat ->
  nth m (fft (map (fun j => RtoC ((-1) ^ j)) (seq 0 (N + N)))) C0 =
  Csum (map (fun j => twiddle (N + N) j (N + m)) (seq 0 (N + N))).
Proof.
  intros HN Hm. apply nth_error_nth. unfold fft.
  rewrite length_map, length_seq, nth_error_map_seq by assumption.
  f_equal. apply Csum_ext. intros j Hj. apply in_seq in Hj.
  rewrite twiddle_add, twiddle_half by assumption. f_equal.
  apply nth_error_nth. rewrite nth_error_map_seq by lia. reflexivity.
Qed.

Lemma fft_signs_mid (N : nat) :
  (1 <= N)%nat ->
  nth N (fft (map (fun j => RtoC ((-1) ^ j)) (seq 0 (N + N)))) C0 = RtoC (INR (N + N)).
Proof.
  intros HN. rewrite fft_signs by lia.
  rewrite (Csum_ext _ (fun _ => C1)) by (intros; apply twiddle_full; lia).
  apply Csum_const_1.
Qed.

Lemma fft_signs_before_mid (N : nat) :
  (1 <= N)%nat ->
  nth (N - 1) (fft (map (fun j => RtoC ((-1) ^ j)) (seq 0 (N + N)))) C0 = C0.
Proof.
  intros HN. rewrite fft_signs by lia.
  rewrite (Csum_ext _ (fun j => twiddle (N + N) (N + (N - 1)) j))
    by (intros; apply twiddle_sym).
  apply root_sum_zero. lia.
Qed.

(** The recovered density of the alternating sample puts all its mass on
    the first grid point, and the trapezoidal rule counts half of it. *)
Lemma alternating_mass (xwidth : R) (N : Z) (g : Grid) :
  xwidth <> 0 -> (1 <= N)%Z -> build_grid xwidth (2 * N) = Ok g ->
  density_mass xwidth (grid_dx g) (alternating (Z.to_nat N)) = 1 / 2.
Proof.
  intros Hw HN Hg.
  set (M := Z.to_nat N).
  assert (HM : (1 <= M)%nat) by (unfold M; lia).
  assert (Hn : Z.to_nat (2 * N) = (M + M)%nat) by (unfold M; lia).
  assert (Hlen : length (alternating M) = Z.to_nat (2 * N)).
  { unfold alternating. rewrite length_map, length_seq. symmetry. exact Hn. }
  assert (Hc : nth_error (alternating M) M = Some C1).
  { unfold alternating. rewrite nth_error_map_seq by lia.
    replace (M + M)%nat with (2 * M)%nat by lia. rewrite pow_1_even. reflexivity. }
  rewrite (density_mass_eq xwidth N g (alternating M) C1 Hw HN Hg Hlen Hc).
  rewrite build_grid_even in Hg by assumption. apply Ok_inj in Hg. subst g.
  cbn [grid_dx].
  unfold density. rewrite ifftshift_alternating.
  set (F := fft (map (fun j => RtoC ((-1) ^ j)) (seq 0 (M + M)))).
  assert (HlF : length F = (M + M)%nat)
    by (unfold F; rewrite length_fft, length_map, length_seq; reflexivity).
  assert (Hhalf : ((M + M) / 2 = M)%nat).
  { replace (M + M)%nat with (M * 2)%nat by lia. apply Nat.div_mul. discriminate. }
  assert (Hne : fftshift F <> []).
  { intros E. apply (f_equal (@length _)) in E. rewrite length_fftshift, HlF in E.
    simpl in E. lia. }
  rewrite (hd_map_nonempty _ C0) by assumption.
  rewrite (last_map_nonempty _ C0) by assumption.
  rewrite hd_fftshift, last_fftshift by lia.
  rewrite HlF, Hhalf.
  replace (M + M - M)%nat with M by lia.
  unfold F. rewrite fft_signs_mid, fft_signs_before_mid by assumption.
  assert (HnR : IZR (2 * N) = INR (M + M)).
  { rewrite <- Hn, INR_IZR_INZ, Z2Nat.id by lia. reflexivity. }
  assert (Hn0 : INR (M + M) <> 0) by (apply not_0_INR; lia).
  rewrite HnR. simpl Re. field. split; assumption.
Qed.

(** * The claims *)

(** ** Payoff transform *)

(** C1, as amended.  For positive strike, barriers and scale and a non-empty
    frequency array, [payoff] returns at every frequency point the closed
    form of the specification on the interval [[max(l,k), u]] (call) or
    [[min(k,u), l]] (put), except at the middle index when [alpha] is [0] or
    [-1], where the entry is overwritten. *)
Theorem payoff_transform_closed_form
        (x xi : list R) (alpha K L U C : R) (call : Z) :
  positive_inputs K L U C -> xi <> [] ->
  exists g G S,
    payoff x xi alpha K L U C call = Ok (g, G, S) /\
    length G = length xi /\
    forall j xi_j,
      nth_error xi j = Some xi_j ->
      (alpha = 0 \/ alpha = -1 -> j <> (length xi / 2)%nat) ->
      nth_error G j =
      Some (G_spec alpha C
                   (fst (spec_interval L K U C (call =? 1)%Z))
                   (snd (spec_interval L K U C (call =? 1)%Z))
                   (ln (K / C)) xi_j).
Proof.
  intros (HK & HL & HU & HC) Hxi.
  destruct (payoff_ok x xi alpha K L U C call) as (g & G & S & Hp & Hlen & _ & Hgen & _);
    [lra|assumption|].
  exists g, G, S. repeat split; try assumption.
  intros j xi_j Hj Hmid. rewrite (Hgen j Hmid), nth_error_map, Hj. simpl.
  rewrite G_general_spec, bound_a_spec, bound_b_spec. reflexivity.
Qed.

Lemma payoff_transform_closed_form_witness :
  positive_inputs 1 (1 / 2) 2 1 /\ [- PI; 0] <> [] /\
  exists g G S,
    payoff [-1; 0] [- PI; 0] 1 1 (1 / 2) 2 1 1 = Ok (g, G, S) /\
    length G = length [- PI; 0] /\
    forall j xi_j,
      nth_error [- PI; 0] j = Some xi_j ->
      (1 = 0 \/ 1 = -1 -> j <> (length [- PI; 0%R] / 2)%nat) ->
      nth_error G j =
      Some (G_spec 1 1
                   (fst (spec_interval (1 / 2) 1 2 1 (1 =? 1)%Z))
                   (snd (spec_interval (1 / 2) 1 2 1 (1 =? 1)%Z))
                   (ln (1 / 1)) xi_j).
Proof.
  assert (Hpos : positive_inputs 1 (1 / 2) 2 1) by (unfold positive_inputs; lra).
  assert (Hne : [- PI; 0] <> []) by discriminate.
  split; [exact Hpos|]. split; [exact Hne|].
  exact (payoff_transform_closed_form [-1; 0] [- PI; 0] 1 1 (1 / 2) 2 1 1 Hpos Hne).
Defined.

(** C1 as stated fails: with [alpha = 0] on the grid [xi = [-pi; 0]] the
    entry at the zero frequency is the finite limit written by the special
    case, while the closed form divides zero by zero there. *)
Lemma payoff_closed_form_fails_at_zero_bin :
  exists g G S,
    payoff [-1; 0] [- PI; 0] 0 1 (1 / 2) 2 1 1 = Ok (g, G, S) /\
    nth_error [- PI; 0] 1 = Some 0 /\
    nth_error G 1 <>
    Some (G_spec 0 1
                 (fst (spec_interval (1 / 2) 1 2 1 true))
                 (snd (spec_interval (1 / 2) 1 2 1 true))
                 (ln (1 / 1)) 0).
Proof.
  destruct (payoff_ok [-1; 0] [- PI; 0] 0 1 (1 / 2) 2 1 1)
    as (g & G & S & Hp & _ & _ & _ & H0 & _); [lra|discriminate|].
  exists g, G, S. split; [exact Hp|]. split; [reflexivity|].
  change (length [- PI; 0%R] / 2)%nat with 1%nat in H0.
  rewrite (H0 eq_refl), <- G_general_spec, G_general_nan_0.
  discriminate.
Qed.

(** C2, as amended.  For positive inputs and a non-empty frequency array,
    the entry of the returned transform at the middle index [floor(len/2)]
    is, for [alpha = 0], [C*(exp(b)-exp(a)-exp(k)*(b-a))] and, for
    [alpha = -1], [C*(b-a+exp(k-b)-exp(k-a))], where the general formula at
    frequency zero is a division of zero by zero; for every [alpha] that
    entry is finite.  The special case goes by the index, not by the
    frequency: an entry whose frequency is zero is finite if and only if
    [alpha] is neither [0] nor [-1] or the entry is the middle one.  The
    middle index is where the grids of the driver keep the zero frequency
    (see [build_grid_zero_bin]). *)
Theorem payoff_zero_frequency_bin
        (x xi : list R) (alpha K L U C : R) (call : Z) :
  positive_inputs K L U C -> xi <> [] ->
  let a := bound_a L K U C call in
  let b := bound_b L K U C call in
  let k := ln (K / C) in
  exists g G S,
    payoff x xi alpha K L U C call = Ok (g, G, S) /\
    length G = length xi /\
    (alpha = 0 ->
       G_general alpha C a b k 0 = None /\
       nth_error G (length xi / 2) =
       Some (fin (RtoC (C * (exp b - exp a - exp k * (b - a)))))) /\
    (alpha = -1 ->
       G_general alpha C a b k 0 = None /\
       nth_error G (length xi / 2) =
       Some (fin (RtoC (C * (b - a + exp (k - b) - exp (k - a)))))) /\
    (exists v, nth_error G (length xi / 2) = Some v /\ is_finite v) /\
    (forall j, nth_error xi j = Some 0 ->
       exists v, nth_error G j = Some v /\
                 (is_finite v <->
                  (alpha <> 0 /\ alpha <> -1) \/ j = (length xi / 2)%nat)).
Proof.
  intros (HK & HL & HU & HC) Hxi a b k.
  destruct (payoff_ok x xi alpha K L U C call)
    as (g & G & S & Hp & Hlen & _ & Hgen & H0 & H1); [lra|assumption|].
  exists g, G, S. split; [assumption|]. split; [assumption|].
  assert (Hmid : exists v, nth_error G (length xi / 2) = Some v /\ is_finite v).
  { destruct (Req_dec_T alpha 0) as [A0|A0].
    { eexists. split; [apply H0; assumption|]. eexists; reflexivity. }
    destruct (Req_dec_T alpha (-1)) as [A1|A1].
    { eexists. split; [apply H1; assumption|]. eexists; reflexivity. }
    rewrite Hgen by (intros [E|E]; contradiction).
    pose proof (half_lt_length xi Hxi) as Hlt.
    destruct (nth_error xi (length xi / 2)) as [v|] eqn:E.
    + rewrite nth_error_map, E. simpl. eexists. split; [reflexivity|].
      apply G_general_finite; assumption.
    + apply nth_error_None in E. lia. }
  split; [|split; [|split]].
  - intros ->. split; [apply G_general_nan_0|apply H0; reflexivity].
  - intros ->. split; [apply G_general_nan_m1|apply H1; reflexivity].
  - exact Hmid.
  - intros j Hj. destruct (Nat.eq_dec j (length xi / 2)) as [Ej|Ej].
    + subst j. destruct Hmid as (v & Hv & Hfin). exists v. split; [exact Hv|].
      split; [intros _; right; reflexivity|intros _; exact Hfin].
    + rewrite Hgen by (intros _; exact Ej).
      rewrite nth_error_map, Hj. cbn [option_map]. eexists. split; [reflexivity|].
      destruct (Req_dec_T alpha 0) as [A0|A0].
      { subst alpha. fold a b k. rewrite G_general_nan_0. split.
        - intros [z Hz]. discriminate.
        - intros [[F _]|F]; [exfalso; apply F; reflexivity|contradiction]. }
      destruct (Req_dec_T alpha (-1)) as [A1|A1].
      { subst alpha. fold a b k. rewrite G_general_nan_m1. split.
        - intros [z Hz]. discriminate.
        - intros [[_ F]|F]; [exfalso; apply F; reflexivity|contradiction]. }
      split; [intros _; left; split; assumption|].
      intros _. apply G_general_finite; assumption.
Qed.

Lemma payoff_zero_frequency_bin_witness :
  positive_inputs 1 (1 / 2) 2 1 /\ [- PI; 0] <> [] /\
  exists g G S,
    payoff [-1; 0] [- PI; 0] 0 1 (1 / 2) 2 1 1 = Ok (g, G, S) /\
    length G = length [- PI; 0] /\
    (0 = 0 ->
       G_general 0 1 (bound_a (1 / 2) 1 2 1 1) (bound_b (1 / 2) 1 2 1 1) (ln (1 / 1)) 0
       = None /\
       nth_error G (length [- PI; 0%R] / 2) =
       Some (fin (RtoC (1 * (exp (bound_b (1 / 2) 1 2 1 1) - exp (bound_a (1 / 2) 1 2 1 1)
                             - exp (ln (1 / 1))
                               * (bound_b (1 / 2) 1 2 1 1 - bound_a (1 / 2) 1 2 1 1)))))) /\
    (0 = -1 ->
       G_general 0 1 (bound_a (1 / 2) 1 2 1 1) (bound_b (1 / 2) 1 2 1 1) (ln (1 / 1)) 0
       = None /\
       nth_error G (length [- PI; 0%R] / 2) =
       Some (fin (RtoC (1 * (bound_b (1 / 2) 1 2 1 1 - bound_a (1 / 2) 1 2 1 1
                             + exp (ln (1 / 1) - bound_b (1 / 2) 1 2 1 1)
                             - exp (ln (1 / 1) - bound_a (1 / 2) 1 2 1 1)))))) /\
    (exists v, nth_error G (length [- PI; 0%R] / 2) = Some v /\ is_finite v) /\
    (forall j, nth_error [- PI; 0] j = Some 0 ->
       exists v, nth_error G j = Some v /\
                 (is_finite v <->
                  (0 <> 0 /\ 0 <> -1) \/ j = (length [- PI; 0%R] / 2)%nat)).
Proof.
  assert (Hpos : positive_inputs 1 (1 / 2) 2 1) by (unfold positive_inputs; lra).
  assert (Hne : [- PI; 0] <> []) by discriminate.
  split; [exact Hpos|]. split; [exact Hne|].
  exact (payoff_zero_frequency_bin [-1; 0] [- PI; 0] 0 1 (1 / 2) 2 1 1 Hpos Hne).
Defined.

(** C2 as stated fails on two counts.  The special case overwrites the
    middle index whatever frequency is kept there: on the frequency array
    [[0; pi; 2 pi]] with [alpha = 0] the zero frequency is at index 0, the
    middle index is 1, and the entry at the zero frequency stays the
    division of zero by zero.  And not every input returns a transform: an
    empty frequency array with [alpha = 0] raises [IndexError]. *)
Lemma payoff_zero_frequency_entry_not_finite :
  (exists g G S,
     payoff [-1; 0; 1] [0; PI; 2 * PI] 0 1 (1 / 2) 2 1 1 = Ok (g, G, S) /\
     nth_error [0; PI; 2 * PI] 0 = Some 0 /\
     nth_error G 0 = Some None /\
     ~ is_finite None) /\
  payoff [-1; 0; 1] [] 0 1 (1 / 2) 2 1 1 = Raise IndexError.
Proof.
  split.
  - destruct (payoff_ok [-1; 0; 1] [0; PI; 2 * PI] 0 1 (1 / 2) 2 1 1)
      as (g & G & S & Hp & _ & _ & Hgen & _); [lra|discriminate|].
    exists g, G, S. split; [exact Hp|]. split; [reflexivity|].
    split.
    + rewrite (Hgen 0%nat) by (intros _; discriminate).
      cbn [map nth_error]. rewrite G_general_nan_0. reflexivity.
    + intros [z Hz]. discriminate.
  - unfold payoff.
    destruct (Req_dec_T 1 0) as [E|_]; [lra|].
    destruct (Req_dec_T 0 0) as [_|E]; [|contradiction].
    reflexivity.
Qed.

(** C8, as amended.  [payoff] makes no admissibility check on [alpha]: it
    never raises [ConfigurationError], and for every [alpha], every non-zero
    scale and every non-empty frequency array it returns the damped payoff
    and its transform, of the lengths of [x] and [xi]. *)
Theorem payoff_no_alpha_check
        (x xi : list R) (alpha K L U C : R) (call : Z) :
  payoff x xi alpha K L U C call <> Raise ConfigurationError /\
  (C <> 0 -> xi <> [] ->
   exists g G S,
     payoff x xi alpha K L U C call = Ok (g, G, S) /\
     length g = length x /\ length G = length xi).
Proof.
  split.
  - intros H. apply payoff_raises in H. destruct H; discriminate.
  - intros HC Hxi.
    destruct (payoff_ok x xi alpha K L U C call) as (g & G & S & Hp & Hlen & _);
      [assumption|assumption|].
    exists g, G, S. repeat split; try assumption.
    apply (payoff_length_g _ _ _ _ _ _ _ _ _ _ _ Hp).
Qed.

Lemma payoff_no_alpha_check_witness :
  1 <> 0 /\ [- PI; 0] <> [] /\
  exists g G S,
    payoff [-1; 0] [- PI; 0] (-1) 1.1 (exp (-1)) (exp 1) 1 1 = Ok (g, G, S) /\
    length g = length [-1; 0] /\ length G = length [- PI; 0].
Proof.
  assert (H1 : 1 <> 0) by lra.
  assert (Hne : [- PI; 0] <> []) by discriminate.
  split; [exact H1|]. split; [exact Hne|].
  exact (proj2 (payoff_no_alpha_check [-1; 0] [- PI; 0] (-1) 1.1 (exp (-1)) (exp 1) 1 1)
               H1 Hne).
Defined.

(** C8 as stated fails: the call request of the driver has [alpha = -1 <= 0]
    and the put request [alpha = 1 >= -1]; both transforms are computed. *)
Lemma payoff_accepts_inadmissible_alpha :
  -1 <= 0 /\ 1 >= -1 /\
  (exists g G S,
     payoff [-1; 0] [- PI; 0] (-1) 1.1 (exp (-1)) (exp 1) 1 1 = Ok (g, G, S)) /\
  (exists g G S,
     payoff [-1; 0] [- PI; 0] 1 1.1 (exp (-1)) (exp 1) 1 0 = Ok (g, G, S)).
Proof.
  split; [lra|]. split; [lra|]. split.
  - destruct (payoff_ok [-1; 0] [- PI; 0] (-1) 1.1 (exp (-1)) (exp 1) 1 1)
      as (g & G & S & Hp & _); [lra|discriminate|].
    exists g, G, S. exact Hp.
  - destruct (payoff_ok [-1; 0] [- PI; 0] 1 1.1 (exp (-1)) (exp 1) 1 0)
      as (g & G & S & Hp & _); [lra|discriminate|].
    exists g, G, S. exact Hp.
Qed.

(** ** Characteristic functions *)

(** C3.  The characteristic exponent of the jump-diffusion code is the
    diffusion exponent [i z mu T - 1/2 z^2 sigma^2 T] plus the
    compound-Poisson term [lambda T (exp(i z mu_J - 1/2 z^2 sigma_J^2) - 1)],
    the drift being [r - q - 1/2 sigma^2 - lambda (exp(mu_J + 1/2 sigma_J^2) - 1)]. *)
Theorem jump_diffusion_exponent
        (r q sigma lmbda mu_j sigma_j T : R) (z : complex) :
  muRN r q sigma lmbda mu_j sigma_j =
    r - q - 1 / 2 * sigma ^ 2 - lmbda * (exp (mu_j + 1 / 2 * sigma_j ^ 2) - 1) /\
  (psi_exponent (muRN r q sigma lmbda mu_j sigma_j) sigma lmbda mu_j sigma_j z
   * RtoC T)%C =
    (diffusion_exponent (muRN r q sigma lmbda mu_j sigma_j) sigma T z
     + poisson_term lmbda mu_j sigma_j T z)%C /\
  psi_value (muRN r q sigma lmbda mu_j sigma_j) sigma lmbda mu_j sigma_j T z =
    Cexp (diffusion_exponent (muRN r q sigma lmbda mu_j sigma_j) sigma T z
          + poisson_term lmbda mu_j sigma_j T z)%C.
Proof.
  assert (Hmu : muRN r q sigma lmbda mu_j sigma_j =
                r - q - 1 / 2 * sigma ^ 2
                - lmbda * (exp (mu_j + 1 / 2 * sigma_j ^ 2) - 1)).
  { unfold muRN. rewrite half_eq. reflexivity. }
  assert (Hexp : (psi_exponent (muRN r q sigma lmbda mu_j sigma_j) sigma lmbda mu_j sigma_j z
                  * RtoC T)%C =
                 (diffusion_exponent (muRN r q sigma lmbda mu_j sigma_j) sigma T z
                  + poisson_term lmbda mu_j sigma_j T z)%C).
  { unfold psi_exponent, diffusion_exponent, poisson_term.
    generalize (muRN r q sigma lmbda mu_j sigma_j). intros m.
    replace (Ci * z * RtoC mu_j - RtoC (1 / 2) * (z * z) * RtoC (sigma_j ^ 2))%C
      with (Ci * RtoC mu_j * z - RtoC 0.5 * Csqr (RtoC sigma_j * z))%C
      by (destruct z; unfold Csqr; cfield).
    generalize (Cexp (Ci * RtoC mu_j * z - RtoC 0.5 * Csqr (RtoC sigma_j * z))%C).
    intros A. destruct A as [a1 a2], z as [z1 z2]. unfold Csqr. cfield. }
  split; [exact Hmu|]. split; [exact Hexp|].
  unfold psi_value. rewrite Hexp. reflexivity.
Qed.

(** C6, as amended.  At frequency argument zero the jump-diffusion
    characteristic function of the code and the diffusion one are exactly
    [1 + 0i], for every parameter set.  [f_Heston], for a non-zero
    volatility of volatility, returns [1 + 0i] at [phi = 0] only when the
    spot is positive and its coefficient [b] is negative; for [b >= 0] it
    divides by zero there, for a spot that is not positive it takes the
    logarithm of a non-positive number, and in both cases it returns no
    finite value. *)
Theorem characteristic_function_at_zero
        (r q sigma lmbda mu_j sigma_j T : R)
        (S0 v0 kappa theta vol rho price_of_risk : R) (j : Z) :
  psi_value (muRN r q sigma lmbda mu_j sigma_j) sigma lmbda mu_j sigma_j T (RtoC 0) = C1 /\
  diffusion_cf r q sigma T (RtoC 0) = C1 /\
  (0 < S0 -> vol <> 0 -> Heston_b kappa price_of_risk rho vol j < 0 ->
   f_Heston 0 S0 v0 T r q kappa theta vol rho price_of_risk j = Ok (fin C1)) /\
  (vol <> 0 -> 0 <= Heston_b kappa price_of_risk rho vol j ->
   f_Heston 0 S0 v0 T r q kappa theta vol rho price_of_risk j = Ok None) /\
  (S0 <= 0 -> vol <> 0 ->
   f_Heston 0 S0 v0 T r q kappa theta vol rho price_of_risk j = Ok None).
Proof.
  split; [apply psi_value_0|]. split; [apply diffusion_cf_0|]. split; [|split].
  - intros HS0 Hv Hb. apply f_Heston_0_regular; assumption.
  - intros Hv Hb. apply f_Heston_0_singular; assumption.
  - intros HS0 Hv. apply f_Heston_spot_not_positive; assumption.
Qed.

Lemma characteristic_function_at_zero_witness :
  (0 < 55 /\ 0.3 <> 0 /\ Heston_b (-2) 0 (-0.7) 0.3 2 < 0 /\
   f_Heston 0 55 0.04 1 0.04 0.02 (-2) 0.04 0.3 (-0.7) 0 2 = Ok (fin C1)) /\
  (0.3 <> 0 /\ 0 <= Heston_b 2 0 (-0.7) 0.3 1 /\
   f_Heston 0 55 0.04 1 0.04 0.02 2 0.04 0.3 (-0.7) 0 1 = Ok None) /\
  (0 <= 0 /\ 0.3 <> 0 /\
   f_Heston 0 0 0.04 1 0.04 0.02 (-2) 0.04 0.3 (-0.7) 0 2 = Ok None).
Proof.
  assert (HS0 : 0 < 55) by lra.
  assert (Hz : 0 <= 0) by lra.
  assert (Hv : 0.3 <> 0) by lra.
  assert (Hneg : Heston_b (-2) 0 (-0.7) 0.3 2 < 0) by (unfold Heston_b; simpl; lra).
  assert (Hpos : 0 <= Heston_b 2 0 (-0.7) 0.3 1) by (unfold Heston_b; simpl; lra).
  split; [|split].
  - split; [exact HS0|]. split; [exact Hv|]. split; [exact Hneg|].
    exact (proj1 (proj2 (proj2
             (characteristic_function_at_zero 0.04 0.02 0.4 0.5 (-0.1) 0.15 1
                55 0.04 (-2) 0.04 0.3 (-0.7) 0 2))) HS0 Hv Hneg).
  - split; [exact Hv|]. split; [exact Hpos|].
    exact (proj1 (proj2 (proj2 (proj2
             (characteristic_function_at_zero 0.04 0.02 0.4 0.5 (-0.1) 0.15 1
                55 0.04 2 0.04 0.3 (-0.7) 0 1)))) Hv Hpos).
  - split; [exact Hz|]. split; [exact Hv|].
    exact (proj2 (proj2 (proj2 (proj2
             (characteristic_function_at_zero 0.04 0.02 0.4 0.5 (-0.1) 0.15 1
                0 0.04 (-2) 0.04 0.3 (-0.7) 0 2)))) Hz Hv).
Defined.

(** C6 as stated fails for the stochastic-volatility variant: with the
    parameters of the Heston notebook ([kappa = 2], [lmbda = 0], [j = 2], so
    [b = 2]) the value at [phi = 0] is not finite. *)
Lemma f_Heston_at_zero_not_one :
  f_Heston 0 55 0.04 1 0.04 0.02 2 0.04 0.3 (-0.7) 0 2 = Ok None /\
  f_Heston 0 55 0.04 1 0.04 0.02 2 0.04 0.3 (-0.7) 0 2 <> Ok (fin C1).
Proof.
  assert (H : f_Heston 0 55 0.04 1 0.04 0.02 2 0.04 0.3 (-0.7) 0 2 = Ok None).
  { apply f_Heston_0_singular; [lra|]. unfold Heston_b. simpl. lra. }
  split; [exact H|]. rewrite H. discriminate.
Qed.

(** ** Grids *)

(** C4, as amended.  For every non-zero width and every even positive
    number of points [n = 2N] the grids are [dx = (2b)/n] with [b = width/2],
    [x = dx * (-N .. N-1)], [dxi = 2 pi/(2b)], [xi = dxi * (-N .. N-1)];
    hence [dx * dxi = 2 pi / n] and both arrays have [n] entries. *)
Theorem grid_nyquist (xwidth : R) (N : Z) :
  xwidth <> 0 -> (1 <= N)%Z ->
  exists g,
    build_grid xwidth (2 * N) = Ok g /\
    grid_b g = xwidth / 2 /\
    grid_dx g = 2 * grid_b g / IZR (2 * N) /\
    grid_x g = map (fun j => grid_dx g * (IZR (- N) + INR j)) (seq 0 (Z.to_nat (2 * N))) /\
    grid_dxi g = 2 * PI / (2 * grid_b g) /\
    grid_xi g = map (fun j => grid_dxi g * (IZR (- N) + INR j)) (seq 0 (Z.to_nat (2 * N))) /\
    grid_dx g * grid_dxi g = 2 * PI / IZR (2 * N) /\
    length (grid_x g) = Z.to_nat (2 * N) /\
    length (grid_xi g) = Z.to_nat (2 * N).
Proof.
  intros Hw HN. eexists. split; [apply build_grid_even; assumption|].
  cbn [grid_b grid_dx grid_x grid_dxi grid_xi].
  assert (Hn : IZR (2 * N) <> 0).
  { intros E. apply eq_IZR_R0 in E. lia. }
  split; [reflexivity|]. split; [field; assumption|].
  split; [reflexivity|]. split; [field; assumption|].
  split; [reflexivity|]. split; [field; split; assumption|].
  rewrite !length_map, length_seq. split; reflexivity.
Qed.

Lemma grid_nyquist_witness :
  6 <> 0 /\ (1 <= 128)%Z /\
  exists g,
    build_grid 6 (2 * 128) = Ok g /\
    grid_b g = 6 / 2 /\
    grid_dx g = 2 * grid_b g / IZR (2 * 128) /\
    grid_x g = map (fun j => grid_dx g * (IZR (- 128) + INR j))
                   (seq 0 (Z.to_nat (2 * 128))) /\
    grid_dxi g = 2 * PI / (2 * grid_b g) /\
    grid_xi g = map (fun j => grid_dxi g * (IZR (- 128) + INR j))
                    (seq 0 (Z.to_nat (2 * 128))) /\
    grid_dx g * grid_dxi g = 2 * PI / IZR (2 * 128) /\
    length (grid_x g) = Z.to_nat (2 * 128) /\
    length (grid_xi g) = Z.to_nat (2 * 128).
Proof.
  assert (H6 : 6 <> 0) by lra.
  assert (HN : (1 <= 128)%Z) by lia.
  split; [exact H6|]. split; [exact HN|].
  exact (grid_nyquist 6 128 H6 HN).
Defined.

(** C4 as stated fails for an odd size: with [n = 3] the code builds
    [2*int(3/2) = 2] points. *)
Lemma grid_odd_size_loses_a_point :
  exists g, build_grid 6 3 = Ok g /\
            length (grid_x g) = 2%nat /\ length (grid_x g) <> Z.to_nat 3.
Proof.
  destruct (build_grid_ok 6 3) as (g & Hg & Hx & _); [lra|lia|].
  exists g. split; [exact Hg|].
  change (Z.to_nat (2 * Z.quot 3 2)) with 2%nat in Hx.
  rewrite Hx. split; [reflexivity|]. change (Z.to_nat 3) with 3%nat. lia.
Qed.

(** C9, as amended.  The grid cell makes no power-of-two check: it never
    raises [ConfigurationError], and for every non-zero width and every
    [n >= 1] it produces a grid, of [2*int(n/2)] points. *)
Theorem grid_no_power_of_two_check (xwidth : R) (ngrid : Z) :
  build_grid xwidth ngrid <> Raise ConfigurationError /\
  (xwidth <> 0 -> (1 <= ngrid)%Z ->
   exists g, build_grid xwidth ngrid = Ok g /\
             length (grid_x g) = Z.to_nat (2 * Z.quot ngrid 2) /\
             length (grid_xi g) = Z.to_nat (2 * Z.quot ngrid 2)).
Proof.
  split.
  - intros H. apply build_grid_raises in H. destruct H; discriminate.
  - apply build_grid_ok.
Qed.

Lemma grid_no_power_of_two_check_witness :
  6 <> 0 /\ (1 <= 6)%Z /\
  exists g, build_grid 6 6 = Ok g /\
            length (grid_x g) = Z.to_nat (2 * Z.quot 6 2) /\
            length (grid_xi g) = Z.to_nat (2 * Z.quot 6 2).
Proof.
  assert (H6 : 6 <> 0) by lra.
  assert (Hn : (1 <= 6)%Z) by lia.
  split; [exact H6|]. split; [exact Hn|].
  exact (proj2 (grid_no_power_of_two_check 6 6) H6 Hn).
Defined.

(** C9 as stated fails: six is not a power of two and the grid of six
    points is built. *)
Lemma grid_built_for_six_points :
  ~ is_power_of_two 6 /\
  exists g, build_grid 6 6 = Ok g /\
            length (grid_x g) = 6%nat /\ length (grid_xi g) = 6%nat.
Proof.
  split; [exact six_not_power_of_two|].
  destruct (build_grid_ok 6 6) as (g & Hg & Hx & Hxi); [lra|lia|].
  exists g. split; [exact Hg|].
  change (Z.to_nat (2 * Z.quot 6 2)) with 6%nat in Hx, Hxi.
  split; assumption.
Qed.

(** ** Pricing *)

(** C5, as amended.  On a grid of [2N] points, for payoff-transform and
    characteristic-function arrays of that length, the price read off at the
    spot by the discrete-transform form exceeds the trapezoidal form by
    [discount * Re(conj(G_0) psi_0 + conj(G_last) psi_last) / (2 width)]; the
    two agree within a tolerance exactly when that end term is below it. *)
Theorem pricing_forms_differ_by_end_terms
        (r T xwidth S0 : R) (N : Z) (g : Grid) (G psi : list complex) :
  0 < xwidth -> 0 < S0 -> (1 <= N)%Z ->
  build_grid xwidth (2 * N) = Ok g ->
  length G = Z.to_nat (2 * N) -> length psi = Z.to_nat (2 * N) ->
  let H := arr_mul (map Cconj G) psi in
  let end_term := exp (- r * T) * Re (hd C0 H + last H C0)%C / (2 * xwidth) in
  exists v,
    price_fft r T xwidth S0 (spot_array S0 (grid_x g)) G psi = Ok v /\
    v - price_trapz r T xwidth G psi = end_term /\
    forall tol, Rabs (v - price_trapz r T xwidth G psi) < tol <-> Rabs end_term < tol.
Proof.
  intros Hw HS HN Hg HG Hpsi H end_term.
  eexists. split; [apply (price_fft_value r T xwidth S0 N g); assumption|].
  assert (HH : H <> []).
  { intros E. apply (f_equal (@length _)) in E. unfold H in E.
    rewrite length_arr_mul in E by (rewrite length_map; congruence).
    rewrite length_map, HG in E. cbn [length] in E. lia. }
  assert (E : exp (- r * T) * Re (Csum (arr_mul G (map Cconj psi))) / xwidth
              - price_trapz r T xwidth G psi = end_term).
  { apply price_fft_minus_trapz; [lra|exact HH]. }
  split; [exact E|]. intros tol. rewrite E. reflexivity.
Qed.

Lemma pricing_forms_differ_by_end_terms_witness :
  0 < 2 /\ 0 < 1 /\ (1 <= 1)%Z /\
  build_grid 2 (2 * 1) =
    Ok (mkGrid 1 (2 / 2) (2 / IZR (2 * 1))
          (map (fun j => 2 / IZR (2 * 1) * (IZR (- 1) + INR j)) (seq 0 (Z.to_nat (2 * 1))))
          (2 * PI / 2)
          (map (fun j => 2 * PI / 2 * (IZR (- 1) + INR j)) (seq 0 (Z.to_nat (2 * 1))))) /\
  exists v,
    price_fft 0 1 2 1
      (spot_array 1 (map (fun j => 2 / IZR (2 * 1) * (IZR (- 1) + INR j))
                         (seq 0 (Z.to_nat (2 * 1)))))
      [C1; C1] [C1; C1] = Ok v /\
    v - price_trapz 0 1 2 [C1; C1] [C1; C1] =
      exp (- 0 * 1)
      * Re (hd C0 (arr_mul (map Cconj [C1; C1]) [C1; C1])
            + last (arr_mul (map Cconj [C1; C1]) [C1; C1]) C0)%C / (2 * 2) /\
    forall tol,
      Rabs (v - price_trapz 0 1 2 [C1; C1] [C1; C1]) < tol <->
      Rabs (exp (- 0 * 1)
            * Re (hd C0 (arr_mul (map Cconj [C1; C1]) [C1; C1])
                  + last (arr_mul (map Cconj [C1; C1]) [C1; C1]) C0)%C / (2 * 2)) < tol.
Proof.
  assert (Hw : 0 < 2) by lra.
  assert (HS : 0 < 1) by lra.
  assert (HN : (1 <= 1)%Z) by lia.
  assert (Hw0 : 2 <> 0) by lra.
  pose proof (build_grid_even 2 1 Hw0 HN) as Hg.
  split; [exact Hw|]. split; [exact HS|]. split; [exact HN|]. split; [exact Hg|].
  exact (pricing_forms_differ_by_end_terms 0 1 2 1 1 _ [C1; C1] [C1; C1]
           Hw HS HN Hg eq_refl eq_refl).
Defined.

(** C5 as stated fails: on the two-point grid of width 2, with unit payoff
    transform, unit characteristic function and unit discount, the transform
    form gives [1] and the trapezoidal form [1/2]. *)
Lemma pricing_forms_disagree :
  exists g v,
    build_grid 2 (2 * 1) = Ok g /\
    price_fft 0 1 2 1 (spot_array 1 (grid_x g)) [C1; C1] [C1; C1] = Ok v /\
    v = 1 /\ price_trapz 0 1 2 [C1; C1] [C1; C1] = 1 / 2 /\
    ~ Rabs (v - price_trapz 0 1 2 [C1; C1] [C1; C1]) < 1 / 1000000.
Proof.
  assert (Hw0 : 2 <> 0) by lra.
  assert (HN : (1 <= 1)%Z) by lia.
  pose proof (build_grid_even 2 1 Hw0 HN) as Hg.
  assert (Hd : exp (- 0 * 1) = 1) by (replace (- 0 * 1) with 0 by ring; apply exp_0).
  assert (Ht : price_trapz 0 1 2 [C1; C1] [C1; C1] = 1 / 2).
  { unfold price_trapz. rewrite Hd. simpl. field. }
  eexists. eexists. split; [exact Hg|].
  split.
  - apply (price_fft_value 0 1 2 1 1); try assumption; try reflexivity; lra.
  - rewrite Hd. simpl Re.
    assert (Hv : 1 * (1 * 1 - 0 * - 0 + (1 * 1 - 0 * - 0 + 0)) / 2 = 1) by field.
    split; [exact Hv|]. split; [exact Ht|].
    rewrite Hv, Ht. replace (1 - 1 / 2) with (1 / 2) by field.
    rewrite Rabs_right by lra. lra.
Qed.

(** C10.  On a grid of [2N] points, for every payoff-transform array [G] and
    characteristic-function array [psi] of that length, the price read off
    at the spot from [G * conj(psi)] equals the one from [conj(G) * psi]:
    both are [discount * Re(sum_k G_k conj(psi_k)) / width], and
    [Re(sum_k G_k conj(psi_k)) = Re(sum_k conj(G_k) psi_k)]. *)
Theorem conjugate_payoff_or_characteristic_function
        (r T xwidth S0 : R) (N : Z) (g : Grid) (G psi : list complex) :
  0 < xwidth -> 0 < S0 -> (1 <= N)%Z ->
  build_grid xwidth (2 * N) = Ok g ->
  length G = Z.to_nat (2 * N) -> length psi = Z.to_nat (2 * N) ->
  price_fft r T xwidth S0 (spot_array S0 (grid_x g)) G psi =
    price_fft_conjG r T xwidth S0 (spot_array S0 (grid_x g)) G psi /\
  price_fft r T xwidth S0 (spot_array S0 (grid_x g)) G psi =
    Ok (exp (- r * T) * Re (Csum (arr_mul G (map Cconj psi))) / xwidth) /\
  Re (Csum (arr_mul G (map Cconj psi))) = Re (Csum (arr_mul (map Cconj G) psi)).
Proof.
  intros Hw HS HN Hg HG Hpsi.
  rewrite (price_fft_value r T xwidth S0 N g Hw HS HN Hg G psi HG Hpsi).
  rewrite (price_fft_conjG_value r T xwidth S0 N g Hw HS HN Hg G psi HG Hpsi).
  rewrite Re_sum_conj. repeat split; reflexivity.
Qed.

Lemma conjugate_payoff_or_characteristic_function_witness :
  0 < 2 /\ 0 < 1 /\ (1 <= 1)%Z /\
  build_grid 2 (2 * 1) =
    Ok (mkGrid 1 (2 / 2) (2 / IZR (2 * 1))
          (map (fun j => 2 / IZR (2 * 1) * (IZR (- 1) + INR j)) (seq 0 (Z.to_nat (2 * 1))))
          (2 * PI / 2)
          (map (fun j => 2 * PI / 2 * (IZR (- 1) + INR j)) (seq 0 (Z.to_nat (2 * 1))))) /\
  price_fft 0 1 2 1
    (spot_array 1 (map (fun j => 2 / IZR (2 * 1) * (IZR (- 1) + INR j))
                       (seq 0 (Z.to_nat (2 * 1)))))
    [Ci; C1] [C1; Ci] =
  price_fft_conjG 0 1 2 1
    (spot_array 1 (map (fun j => 2 / IZR (2 * 1) * (IZR (- 1) + INR j))
                       (seq 0 (Z.to_nat (2 * 1)))))
    [Ci; C1] [C1; Ci] /\
  price_fft 0 1 2 1
    (spot_array 1 (map (fun j => 2 / IZR (2 * 1) * (IZR (- 1) + INR j))
                       (seq 0 (Z.to_nat (2 * 1)))))
    [Ci; C1] [C1; Ci] =
  Ok (exp (- 0 * 1) * Re (Csum (arr_mul [Ci; C1] (map Cconj [C1; Ci]))) / 2) /\
  Re (Csum (arr_mul [Ci; C1] (map Cconj [C1; Ci]))) =
  Re (Csum (arr_mul (map Cconj [Ci; C1]) [C1; Ci])).
Proof.
  assert (Hw : 0 < 2) by lra.
  assert (HS : 0 < 1) by lra.
  assert (HN : (1 <= 1)%Z) by lia.
  assert (Hw0 : 2 <> 0) by lra.
  pose proof (build_grid_even 2 1 Hw0 HN) as Hg.
  split; [exact Hw|]. split; [exact HS|]. split; [exact HN|]. split; [exact Hg|].
  exact (conjugate_payoff_or_characteristic_function 0 1 2 1 1 _ [Ci; C1] [C1; Ci]
           Hw HS HN Hg eq_refl eq_refl).
Defined.

(** ** Density recovery *)

(** C7, as amended.  On a grid of [2N] points, for a characteristic-function
    array of that length whose value at the zero-frequency index is one, the
    trapezoidal integral of the recovered density is exactly one less [dx]
    times half the sum of the two edge densities; it is within a tolerance of
    one exactly when that edge term is below the tolerance. *)
Theorem density_integrates_to_one_up_to_edges
        (xwidth : R) (N : Z) (g : Grid) (psi : list complex) :
  xwidth <> 0 -> (1 <= N)%Z ->
  build_grid xwidth (2 * N) = Ok g ->
  length psi = Z.to_nat (2 * N) ->
  nth_error psi (Z.to_nat N) = Some C1 ->
  let f := density xwidth psi in
  let edge := grid_dx g * (hd 0 f + last f 0) / 2 in
  density_mass xwidth (grid_dx g) psi = 1 - edge /\
  forall tol, Rabs (density_mass xwidth (grid_dx g) psi - 1) < tol <-> Rabs edge < tol.
Proof.
  intros Hw HN Hg Hlen Hc f edge.
  assert (E : density_mass xwidth (grid_dx g) psi = 1 - edge).
  { rewrite (density_mass_eq xwidth N g psi C1 Hw HN Hg Hlen Hc). reflexivity. }
  split; [exact E|]. intros tol. rewrite E.
  replace (1 - edge - 1) with (- edge) by ring. rewrite Rabs_Ropp. reflexivity.
Qed.

Lemma density_integrates_to_one_up_to_edges_witness :
  2 <> 0 /\ (1 <= 1)%Z /\
  build_grid 2 (2 * 1) =
    Ok (mkGrid 1 (2 / 2) (2 / IZR (2 * 1))
          (map (fun j => 2 / IZR (2 * 1) * (IZR (- 1) + INR j)) (seq 0 (Z.to_nat (2 * 1))))
          (2 * PI / 2)
          (map (fun j => 2 * PI / 2 * (IZR (- 1) + INR j)) (seq 0 (Z.to_nat (2 * 1))))) /\
  length [C1; C1] = Z.to_nat (2 * 1) /\
  nth_error [C1; C1] (Z.to_nat 1) = Some C1 /\
  density_mass 2 (2 / IZR (2 * 1)) [C1; C1] =
    1 - 2 / IZR (2 * 1) * (hd 0 (density 2 [C1; C1]) + last (density 2 [C1; C1]) 0) / 2 /\
  forall tol,
    Rabs (density_mass 2 (2 / IZR (2 * 1)) [C1; C1] - 1) < tol <->
    Rabs (2 / IZR (2 * 1) * (hd 0 (density 2 [C1; C1]) + last (density 2 [C1; C1]) 0) / 2)
    < tol.
Proof.
  assert (Hw : 2 <> 0) by lra.
  assert (HN : (1 <= 1)%Z) by lia.
  pose proof (build_grid_even 2 1 Hw HN) as Hg.
  split; [exact Hw|]. split; [exact HN|]. split; [exact Hg|].
  split; [reflexivity|]. split; [reflexivity|].
  exact (density_integrates_to_one_up_to_edges 2 1 _ [C1; C1] Hw HN Hg eq_refl eq_refl).
Defined.

(** C7 as stated fails: for every grid size [2N] the alternating sample has
    value one at zero frequency and a recovered density of trapezoidal
    integral [1/2], so no tolerance that depends on the grid size alone can
    tighten towards zero. *)
Lemma density_mass_one_half :
  (exists g, build_grid 2 (2 * 1) = Ok g /\
             alternating 1 = [RtoC (-1); RtoC 1] /\
             nth_error (alternating 1) 1 = Some C1 /\
             density_mass 2 (grid_dx g) (alternating 1) = 1 / 2) /\
  ~ (forall eps, 0 < eps ->
       exists N0 : Z,
         forall (N : Z) (xwidth : R) (g : Grid) (psi : list complex),
           (N0 <= N)%Z -> (1 <= N)%Z -> xwidth <> 0 ->
           build_grid xwidth (2 * N) = Ok g ->
           length psi = Z.to_nat (2 * N) ->
           nth_error psi (Z.to_nat N) = Some C1 ->
           Rabs (density_mass xwidth (grid_dx g) psi - 1) < eps).
Proof.
  split.
  - assert (Hw : 2 <> 0) by lra.
    assert (HN : (1 <= 1)%Z) by lia.
    eexists. split; [apply (build_grid_even 2 1 Hw HN)|].
    split.
    { unfold alternating. cbn [seq map Nat.add pow].
      f_equal; [f_equal; ring|]. f_equal. f_equal. ring. }
    split.
    { unfold alternating. cbn [seq map Nat.add pow nth_error].
      f_equal. change C1 with (RtoC 1). f_equal. ring. }
    apply (alternating_mass 2 1 _ Hw HN (build_grid_even 2 1 Hw HN)).
  - intros H. destruct (H (1 / 4)) as [N0 HN0]; [lra|].
    set (N := Z.max N0 1).
    assert (Hw : 1 <> 0) by lra.
    assert (HN : (1 <= N)%Z) by (unfold N; lia).
    pose proof (build_grid_even 1 N Hw HN) as Hg.
    assert (Hlen : length (alternating (Z.to_nat N)) = Z.to_nat (2 * N)).
    { unfold alternating. rewrite length_map, length_seq. lia. }
    assert (Hc : nth_error (alternating (Z.to_nat N)) (Z.to_nat N) = Some C1).
    { unfold alternating. rewrite nth_error_map_seq by lia.
      replace (Z.to_nat N + Z.to_nat N)%nat with (2 * Z.to_nat N)%nat by lia.
      rewrite pow_1_even. reflexivity. }
    assert (HN0N : (N0 <= N)%Z) by (unfold N; lia).
    pose proof (HN0 N 1 _ (alternating (Z.to_nat N)) HN0N HN Hw Hg Hlen Hc) as Hbad.
    rewrite (alternating_mass 1 N _ Hw HN Hg) in Hbad.
    replace (1 / 2 - 1) with (- (1 / 2)) in Hbad by field.
    rewrite Rabs_Ropp, Rabs_right in Hbad by lra. lra.
Qed.

(** * Further properties of the code *)

(** ** What [payoff] returns *)

(** The three components of a successful call. *)
Lemma payoff_inv (x xi : list R) (alpha K L U C : R) (call : Z)
      (g : list R) (G : list num) (S : list R) :
  payoff x xi alpha K L U C call = Ok (g, G, S) ->
  C <> 0 /\
  S = map (fun xj => C * exp xj) x /\
  g = map (fun xj => exp (alpha * xj)
                     * Rmax (if (call =? 1)%Z then C * exp xj - K else K - C * exp xj) 0
                     * indicator (Rge_dec (C * exp xj) L)
                     * indicator (Rle_dec (C * exp xj) U)) x /\
  length G = length xi /\
  (alpha = 0 \/ alpha = -1 -> xi <> []) /\
  (forall j, (alpha = 0 \/ alpha = -1 -> j <> (length xi / 2)%nat) ->
     nth_error G j =
     nth_error (map (G_general alpha C (bound_a L K U C call) (bound_b L K U C call)
                               (ln (K / C))) xi) j) /\
  (alpha = 0 \/ alpha = -1 ->
   exists v : R, nth_error G (length xi / 2) = Some (fin (RtoC v))).
Proof.
  intros Hp.
  assert (HC : C <> 0).
  { intros E. unfold payoff in Hp. destruct (Req_dec_T C 0); [discriminate|contradiction]. }
  assert (Hg : g = map (fun xj => exp (alpha * xj)
                     * Rmax (if (call =? 1)%Z then C * exp xj - K else K - C * exp xj) 0
                     * indicator (Rge_dec (C * exp xj) L)
                     * indicator (Rle_dec (C * exp xj) U)) x
               /\ S = map (fun xj => C * exp xj) x).
  { unfold payoff in Hp. destruct (Req_dec_T C 0) as [|_]; [contradiction|].
    assert (Hsame : forall g0 G0 S0',
               Ok ((if (call =? 1)%Z
                    then map (fun xj => exp (alpha * xj) * Rmax (C * exp xj - K) 0
                                        * indicator (Rge_dec (C * exp xj) L)
                                        * indicator (Rle_dec (C * exp xj) U)) x
                    else map (fun xj => exp (alpha * xj) * Rmax (K - C * exp xj) 0
                                        * indicator (Rge_dec (C * exp xj) L)
                                        * indicator (Rle_dec (C * exp xj) U)) x),
                   G0, map (fun xj => C * exp xj) x) = Ok (g0, G, S0') ->
               g0 = map (fun xj => exp (alpha * xj)
                     * Rmax (if (call =? 1)%Z then C * exp xj - K else K - C * exp xj) 0
                     * indicator (Rge_dec (C * exp xj) L)
                     * indicator (Rle_dec (C * exp xj) U)) x
               /\ S0' = map (fun xj => C * exp xj) x).
    { intros g0 G0 S0' H. injection H as H1 _ H3. subst g0 S0'.
      split; [|reflexivity]. destruct (call =? 1)%Z; reflexivity. }
    destruct (Req_dec_T alpha 0) as [_|_].
    - match type of Hp with context [list_set ?l ?i ?v] =>
        destruct (list_set_cases l i v) as [[l' E]|E]; rewrite E in Hp end;
        simpl in Hp; [|discriminate].
      apply (Hsame _ _ _ Hp).
    - destruct (Req_dec_T alpha (-1)) as [_|_].
      + match type of Hp with context [list_set ?l ?i ?v] =>
          destruct (list_set_cases l i v) as [[l' E]|E]; rewrite E in Hp end;
          simpl in Hp; [|discriminate].
        apply (Hsame _ _ _ Hp).
      + apply (Hsame _ _ _ Hp). }
  destruct Hg as [Hg HS].
  split; [exact HC|]. split; [exact HS|]. split; [exact Hg|].
  destruct xi as [|xi0 xit].
  - (* empty frequency array *)
    unfold payoff in Hp. destruct (Req_dec_T C 0) as [|_]; [contradiction|].
    simpl map in Hp. simpl length in Hp.
    destruct (Req_dec_T alpha 0) as [A0|A0]; [simpl in Hp; discriminate|].
    destruct (Req_dec_T alpha (-1)) as [A1|A1]; [simpl in Hp; discriminate|].
    injection Hp as _ HG _. subst G.
    split; [reflexivity|]. split; [intros [E|E]; contradiction|].
    split; [intros; reflexivity|]. intros [E|E]; contradiction.
  - destruct (payoff_ok x (xi0 :: xit) alpha K L U C call HC)
      as (g' & G' & S' & Hp' & Hlen & _ & Hgen & H0 & H1); [discriminate|].
    rewrite Hp in Hp'. injection Hp' as _ HG _. subst G'.
    split; [exact Hlen|]. split; [intros _; discriminate|].
    split; [exact Hgen|].
    intros [E|E]; [rewrite (H0 E)|rewrite (H1 E)]; eexists; reflexivity.
Qed.

Lemma payoff_g_nth (x xi : list R) (alpha K L U C : R) (call : Z)
      (g : list R) (G : list num) (S : list R) (j : nat) (xj : R) :
  payoff x xi alpha K L U C call = Ok (g, G, S) ->
  nth_error x j = Some xj ->
  nth_error g j =
  Some (exp (alpha * xj)
        * Rmax (if (call =? 1)%Z then C * exp xj - K else K - C * exp xj) 0
        * indicator (Rge_dec (C * exp xj) L)
        * indicator (Rle_dec (C * exp xj) U)).
Proof.
  intros Hp Hj. destruct (payoff_inv _ _ _ _ _ _ _ _ _ _ _ Hp) as (_ & _ & Hg & _).
  rewrite Hg, nth_error_map, Hj. reflexivity.
Qed.

Lemma indicator_range {P : Prop} (d : {P} + {~ P}) : 0 <= indicator d <= 1.
Proof. unfold indicator. destruct d; lra. Qed.

(** The damped payoff is never negative. *)
Theorem damped_payoff_nonnegative
        (x xi : list R) (alpha K L U C : R) (call : Z)
        (g : list R) (G : list num) (S : list R) :
  payoff x xi alpha K L U C call = Ok (g, G, S) ->
  Forall (fun v => 0 <= v) g.
Proof.
  intros Hp. destruct (payoff_inv _ _ _ _ _ _ _ _ _ _ _ Hp) as (_ & _ & Hg & _).
  subst g. apply Forall_forall. intros v Hv. apply in_map_iff in Hv.
  destruct Hv as (xj & <- & _).
  pose proof (exp_pos (alpha * xj)) as He.
  pose proof (indicator_range (Rge_dec (C * exp xj) L)) as H1.
  pose proof (indicator_range (Rle_dec (C * exp xj) U)) as H2.
  pose proof (Rmax_r (if (call =? 1)%Z then C * exp xj - K else K - C * exp xj) 0) as Hm.
  apply Rmult_le_pos; [apply Rmult_le_pos; [apply Rmult_le_pos|]|]; lra.
Qed.

Lemma damped_payoff_nonnegative_witness :
  exists g G S,
    payoff [-1; 0] [- PI; 0] 1 1.1 (exp (-1)) (exp 1) 1 0 = Ok (g, G, S) /\
    Forall (fun v => 0 <= v) g.
Proof.
  destruct (payoff_ok [-1; 0] [- PI; 0] 1 1.1 (exp (-1)) (exp 1) 1 0)
    as (g & G & S & Hp & _); [lra|discriminate|].
  exists g, G, S. split; [exact Hp|].
  exact (damped_payoff_nonnegative _ _ _ _ _ _ _ _ _ _ _ Hp).
Defined.

(** The damped payoff vanishes at every grid point whose spot is outside the
    window [[L, U]] or not in the money (spot at most [K] for a call, at
    least [K] for a put). *)
Theorem damped_payoff_support
        (x xi : list R) (alpha K L U C : R) (call : Z)
        (g : list R) (G : list num) (S : list R) (j : nat) (xj : R) :
  payoff x xi alpha K L U C call = Ok (g, G, S) ->
  nth_error x j = Some xj ->
  C * exp xj < L \/ U < C * exp xj \/
  (call = 1%Z /\ C * exp xj <= K) \/ (call <> 1%Z /\ K <= C * exp xj) ->
  nth_error g j = Some 0.
Proof.
  intros Hp Hj Hout. rewrite (payoff_g_nth _ _ _ _ _ _ _ _ _ _ _ _ _ Hp Hj).
  f_equal. unfold indicator.
  destruct Hout as [H|[H|[[Hc H]|[Hc H]]]].
  - destruct (Rge_dec (C * exp xj) L); [lra|ring].
  - destruct (Rle_dec (C * exp xj) U); [lra|ring].
  - subst call. simpl. rewrite Rmax_right by lra. ring.
  - destruct (Z.eqb_spec call 1); [contradiction|].
    rewrite Rmax_right by lra. ring.
Qed.

Lemma damped_payoff_support_witness :
  exists g G S,
    payoff [-1; 0] [- PI; 0] 1 1.1 (exp (-1)) (exp 1) 1 1 = Ok (g, G, S) /\
    nth_error [-1; 0] 1 = Some 0 /\
    nth_error g 1 = Some 0.
Proof.
  destruct (payoff_ok [-1; 0] [- PI; 0] 1 1.1 (exp (-1)) (exp 1) 1 1)
    as (g & G & S & Hp & _); [lra|discriminate|].
  exists g, G, S. split; [exact Hp|]. split; [reflexivity|].
  apply (damped_payoff_support _ _ _ _ _ _ _ _ _ _ _ 1%nat 0 Hp eq_refl).
  right. right. left. split; [reflexivity|]. rewrite exp_0. lra.
Defined.

(** Inside the window, undoing the damping of the call and of the put
    payoffs of one grid gives the forward payoff: [call - put = S - K],
    whatever the two damping exponents. *)
Theorem damped_payoff_parity
        (x xi xi' : list R) (alpha alpha' K L U C : R)
        (gc gp : list R) (Gc Gp : list num) (Sc Sp : list R) (j : nat) (xj : R) :
  payoff x xi alpha K L U C 1 = Ok (gc, Gc, Sc) ->
  payoff x xi' alpha' K L U C 0 = Ok (gp, Gp, Sp) ->
  nth_error x j = Some xj ->
  L <= C * exp xj <= U ->
  exists c p,
    nth_error gc j = Some c /\ nth_error gp j = Some p /\
    exp (- alpha * xj) * c - exp (- alpha' * xj) * p = C * exp xj - K.
Proof.
  intros Hc Hp Hj [HL HU].
  rewrite (payoff_g_nth _ _ _ _ _ _ _ _ _ _ _ _ _ Hc Hj).
  rewrite (payoff_g_nth _ _ _ _ _ _ _ _ _ _ _ _ _ Hp Hj).
  do 2 eexists. split; [reflexivity|]. split; [reflexivity|].
  simpl. unfold indicator.
  destruct (Rge_dec (C * exp xj) L) as [_|n]; [|lra].
  destruct (Rle_dec (C * exp xj) U) as [_|n]; [|lra].
  assert (E1 : exp (- alpha * xj) * exp (alpha * xj) = 1).
  { rewrite <- exp_plus. replace (- alpha * xj + alpha * xj) with 0 by ring. apply exp_0. }
  assert (E2 : exp (- alpha' * xj) * exp (alpha' * xj) = 1).
  { rewrite <- exp_plus. replace (- alpha' * xj + alpha' * xj) with 0 by ring. apply exp_0. }
  destruct (Rle_dec (C * exp xj) K) as [Hle|Hgt].
  - rewrite (Rmax_right (C * exp xj - K) 0), (Rmax_left (K - C * exp xj) 0) by lra.
    nra.
  - rewrite (Rmax_left (C * exp xj - K) 0), (Rmax_right (K - C * exp xj) 0) by lra.
    nra.
Qed.

Lemma damped_payoff_parity_witness :
  exists gc gp Gc Gp Sc Sp,
    payoff [-1; 0] [- PI; 0] (-1) 1.1 (exp (-1)) (exp 1) 1 1 = Ok (gc, Gc, Sc) /\
    payoff [-1; 0] [- PI; 0] 1 1.1 (exp (-1)) (exp 1) 1 0 = Ok (gp, Gp, Sp) /\
    nth_error [-1; 0] 1 = Some 0 /\
    exp (-1) <= 1 * exp 0 <= exp 1 /\
    exists c p,
      nth_error gc 1 = Some c /\ nth_error gp 1 = Some p /\
      exp (- (-1) * 0) * c - exp (- 1 * 0) * p = 1 * exp 0 - 1.1.
Proof.
  destruct (payoff_ok [-1; 0] [- PI; 0] (-1) 1.1 (exp (-1)) (exp 1) 1 1)
    as (gc & Gc & Sc & Hc & _); [lra|discriminate|].
  destruct (payoff_ok [-1; 0] [- PI; 0] 1 1.1 (exp (-1)) (exp 1) 1 0)
    as (gp & Gp & Sp & Hp & _); [lra|discriminate|].
  assert (Hw : exp (-1) <= 1 * exp 0 <= exp 1).
  { pose proof (exp_increasing (-1) 0) as Hlo. pose proof (exp_increasing 0 1) as Hhi.
    rewrite exp_0 in *. lra. }
  exists gc, gp, Gc, Gp, Sc, Sp.
  split; [exact Hc|]. split; [exact Hp|]. split; [reflexivity|]. split; [exact Hw|].
  exact (damped_payoff_parity _ _ _ _ _ _ _ _ _ _ _ _ _ _ _ 1%nat 0 Hc Hp eq_refl Hw).
Defined.

(** [payoff] raises exactly in two cases: a zero scale, and an empty
    frequency array when [alpha] is [0] or [-1] (the item assignment at index
    [floor(0/2) = 0] of an empty array). *)
Theorem payoff_error_cases
        (x xi : list R) (alpha K L U C : R) (call : Z) (e : exn) :
  payoff x xi alpha K L U C call = Raise e <->
  (C = 0 /\ e = ZeroDivisionError) \/
  (C <> 0 /\ xi = [] /\ (alpha = 0 \/ alpha = -1) /\ e = IndexError).
Proof.
  split.
  - intros H. unfold payoff in H.
    destruct (Req_dec_T C 0) as [HC|HC].
    { injection H as <-. left. split; [assumption|reflexivity]. }
    destruct xi as [|xi0 xit].
    + simpl map in H. simpl length in H.
      destruct (Req_dec_T alpha 0) as [A0|A0].
      { simpl in H. injection H as <-. right. repeat split; auto. }
      destruct (Req_dec_T alpha (-1)) as [A1|A1]; [|discriminate].
      simpl in H. injection H as <-. right. repeat split; auto.
    + destruct (payoff_ok x (xi0 :: xit) alpha K L U C call HC)
        as (g & G & S & Hp & _); [discriminate|].
      unfold payoff in Hp. destruct (Req_dec_T C 0) as [|_]; [contradiction|].
      rewrite H in Hp. discriminate.
  - intros [[HC ->]|(HC & -> & Ha & ->)]; unfold payoff.
    + destruct (Req_dec_T C 0); [reflexivity|contradiction].
    + destruct (Req_dec_T C 0) as [|_]; [contradiction|].
      simpl map. simpl length.
      destruct (Req_dec_T alpha 0) as [A0|A0]; [reflexivity|].
      destruct (Req_dec_T alpha (-1)) as [A1|A1]; [reflexivity|].
      destruct Ha; contradiction.
Qed.

(** When the denominators of the array expression vanish. *)
Lemma G_general_finite_iff (alpha C a b k xi : R) :
  is_finite (G_general alpha C a b k xi) <-> ~ (xi = 0 /\ (alpha = 0 \/ alpha = -1)).
Proof.
  unfold G_general, Nmul, Nsub, Ndiv, lift2, fin, is_finite.
  destruct (Ceq_dec (C1 + (RtoC alpha + Ci * RtoC xi))%C C0) as [E1|E1].
  - split; [intros [z Hz]; discriminate|]. intros Hn. exfalso. apply Hn.
    pose proof (f_equal Re E1) as Hr. pose proof (f_equal Im E1) as Hi.
    simpl in Hr, Hi. split; [lra|right; lra].
  - destruct (Ceq_dec (RtoC alpha + Ci * RtoC xi)%C C0) as [E0|E0].
    + split; [intros [z Hz]; discriminate|]. intros Hn. exfalso. apply Hn.
      pose proof (f_equal Re E0) as Hr. pose proof (f_equal Im E0) as Hi.
      simpl in Hr, Hi. split; [lra|left; lra].
    + split; [|intros _; eexists; reflexivity].
      intros _ [Hxi [Ha|Ha]]; subst.
      * apply E0. cring.
      * apply E1. cring.
Qed.

(** An entry of the returned transform is not finite exactly when its
    frequency is zero, [alpha] is [0] or [-1], and it is not the middle entry
    that the special case overwrites. *)
Theorem payoff_transform_finite_iff
        (x xi : list R) (alpha K L U C : R) (call : Z)
        (g : list R) (G : list num) (S : list R) (j : nat) (xi_j : R) :
  positive_inputs K L U C ->
  payoff x xi alpha K L U C call = Ok (g, G, S) ->
  nth_error xi j = Some xi_j ->
  exists v,
    nth_error G j = Some v /\
    (is_finite v <->
     ~ (xi_j = 0 /\ (alpha = 0 \/ alpha = -1) /\ j <> (length xi / 2)%nat)).
Proof.
  intros _ Hp Hj.
  destruct (payoff_inv _ _ _ _ _ _ _ _ _ _ _ Hp) as (_ & _ & _ & _ & _ & Hgen & Hmid).
  destruct (Nat.eq_dec j (length xi / 2)) as [Ej|Ej].
  - destruct (Req_dec_T alpha 0) as [A0|A0];
      [|destruct (Req_dec_T alpha (-1)) as [A1|A1]].
    + destruct (Hmid (or_introl A0)) as [v Hv]. subst j. eexists. split; [exact Hv|].
      split; [intros _ (_ & _ & F); apply F; reflexivity|intros _; eexists; reflexivity].
    + destruct (Hmid (or_intror A1)) as [v Hv]. subst j. eexists. split; [exact Hv|].
      split; [intros _ (_ & _ & F); apply F; reflexivity|intros _; eexists; reflexivity].
    + rewrite Hgen by (intros [E|E]; contradiction).
      rewrite nth_error_map, Hj. simpl. eexists. split; [reflexivity|].
      rewrite G_general_finite_iff. split.
      * intros _ (_ & [E|E] & _); contradiction.
      * intros _ (_ & [E|E]); contradiction.
  - rewrite Hgen by (intros _; exact Ej).
    rewrite nth_error_map, Hj. simpl. eexists. split; [reflexivity|].
    rewrite G_general_finite_iff. split.
    + intros Hn (Hx & Ha & _). apply Hn. split; assumption.
    + intros Hn (Hx & Ha). apply Hn. repeat split; assumption.
Qed.

Lemma payoff_transform_finite_iff_witness :
  positive_inputs 1.1 (exp (-1)) (exp 1) 1 /\
  exists g G S,
    payoff [-1; 0; 1] [0; PI; 2 * PI] 0 1.1 (exp (-1)) (exp 1) 1 1 = Ok (g, G, S) /\
    nth_error [0; PI; 2 * PI] 0 = Some 0 /\
    exists v,
      nth_error G 0 = Some v /\
      (is_finite v <->
       ~ (0 = 0 /\ (0 = 0 \/ 0 = -1) /\ 0%nat <> 1%nat)).
Proof.
  destruct (payoff_ok [-1; 0; 1] [0; PI; 2 * PI] 0 1.1 (exp (-1)) (exp 1) 1 1)
    as (g & G & S & Hp & _); [lra|discriminate|].
  assert (Hpos : positive_inputs 1.1 (exp (-1)) (exp 1) 1).
  { split; [lra|]. split; [apply exp_pos|]. split; [apply exp_pos|lra]. }
  split; [exact Hpos|].
  exists g, G, S. split; [exact Hp|]. split; [reflexivity|].
  exact (payoff_transform_finite_iff _ _ _ _ _ _ _ _ _ _ _ 0%nat 0 Hpos Hp eq_refl).
Defined.

(** ** Hermitian symmetry *)

Lemma Cexp_conj (z : complex) : Cexp (Cconj z) = Cconj (Cexp z).
Proof.
  apply C_eq; simpl; rewrite ?cos_neg, ?sin_neg; ring.
Qed.

Lemma Cinv_conj (z : complex) : Cinv (Cconj z) = Cconj (Cinv z).
Proof.
  unfold Cinv, Cnorm2. apply C_eq; simpl.
  - f_equal. ring.
  - unfold Rdiv. rewrite Ropp_involutive.
    replace (Re z * Re z + - Im z * - Im z) with (Re z * Re z + Im z * Im z) by ring.
    ring.
Qed.

Lemma Cconj_eq_0 (z : complex) : Cconj z = C0 <-> z = C0.
Proof.
  split; intros H.
  - rewrite <- (Cconj_conj z), H. cring.
  - rewrite H. cring.
Qed.

Lemma Ndiv_conj (z w : complex) :
  Ndiv (fin (Cconj z)) (fin (Cconj w)) = option_map Cconj (Ndiv (fin z) (fin w)).
Proof.
  unfold Ndiv, fin.
  destruct (Ceq_dec (Cconj w) C0) as [E|E]; destruct (Ceq_dec w C0) as [E'|E'].
  - reflexivity.
  - exfalso. apply E'. apply Cconj_eq_0. exact E.
  - exfalso. apply E. apply Cconj_eq_0. exact E'.
  - simpl. f_equal. rewrite Cinv_conj, Cconj_mul. reflexivity.
Qed.

(** The array expression at [-xi] is the conjugate of its value at [xi]. *)
Lemma G_general_conj (alpha C a b k xi : R) :
  G_general alpha C a b k (- xi) = option_map Cconj (G_general alpha C a b k xi).
Proof.
  unfold G_general.
  set (w := (RtoC alpha + Ci * RtoC xi)%C).
  replace (RtoC alpha + Ci * RtoC (- xi))%C with (Cconj w) by (unfold w; cring).
  replace (C1 + Cconj w)%C with (Cconj (C1 + w)) by cring.
  replace (RtoC b * Cconj (C1 + w))%C with (Cconj (RtoC b * (C1 + w))) by cring.
  replace (RtoC a * Cconj (C1 + w))%C with (Cconj (RtoC a * (C1 + w))) by cring.
  replace (RtoC k + RtoC b * Cconj w)%C with (Cconj (RtoC k + RtoC b * w)) by cring.
  replace (RtoC k + RtoC a * Cconj w)%C with (Cconj (RtoC k + RtoC a * w)) by cring.
  rewrite !Cexp_conj.
  replace (Cconj (Cexp (RtoC b * (C1 + w))) - Cconj (Cexp (RtoC a * (C1 + w))))%C
    with (Cconj (Cexp (RtoC b * (C1 + w)) - Cexp (RtoC a * (C1 + w)))) by cring.
  replace (Cconj (Cexp (RtoC k + RtoC b * w)) - Cconj (Cexp (RtoC k + RtoC a * w)))%C
    with (Cconj (Cexp (RtoC k + RtoC b * w) - Cexp (RtoC k + RtoC a * w))) by cring.
  rewrite !Ndiv_conj.
  destruct (Ndiv (fin (Cexp (RtoC b * (C1 + w)) - Cexp (RtoC a * (C1 + w)))%C)
                 (fin (C1 + w)%C)) as [u|];
    destruct (Ndiv (fin (Cexp (RtoC k + RtoC b * w) - Cexp (RtoC k + RtoC a * w))%C)
                   (fin w)) as [v|]; simpl; try reflexivity.
  f_equal. cring.
Qed.

(** The payoff transform of a real payoff is Hermitian: the entries at two
    opposite frequencies are complex conjugates, provided neither is the
    middle entry overwritten when [alpha] is [0] or [-1]. *)
Theorem payoff_transform_hermitian
        (x xi : list R) (alpha K L U C : R) (call : Z)
        (g : list R) (G : list num) (S : list R) (i j : nat) (xi_i : R) :
  positive_inputs K L U C ->
  payoff x xi alpha K L U C call = Ok (g, G, S) ->
  nth_error xi i = Some xi_i ->
  nth_error xi j = Some (- xi_i) ->
  (alpha = 0 \/ alpha = -1 -> i <> (length xi / 2)%nat /\ j <> (length xi / 2)%nat) ->
  exists v, nth_error G i = Some v /\ nth_error G j = Some (option_map Cconj v).
Proof.
  intros _ Hp Hi Hj Hmid.
  destruct (payoff_inv _ _ _ _ _ _ _ _ _ _ _ Hp) as (_ & _ & _ & _ & _ & Hgen & _).
  rewrite (Hgen i) by (intros Ha; apply (Hmid Ha)).
  rewrite (Hgen j) by (intros Ha; apply (Hmid Ha)).
  rewrite !nth_error_map, Hi, Hj. simpl.
  eexists. split; [reflexivity|]. rewrite G_general_conj. reflexivity.
Qed.

Lemma payoff_transform_hermitian_witness :
  positive_inputs 1.1 (exp (-1)) (exp 1) 1 /\
  exists g G S,
    payoff [-1; 0; 1] [- PI; 0; PI] 1 1.1 (exp (-1)) (exp 1) 1 1 = Ok (g, G, S) /\
    nth_error [- PI; 0; PI] 2 = Some PI /\
    nth_error [- PI; 0; PI] 0 = Some (- PI) /\
    (1 = 0 \/ 1 = -1 ->
     2%nat <> 1%nat /\ 0%nat <> 1%nat) /\
    exists v, nth_error G 2 = Some v /\ nth_error G 0 = Some (option_map Cconj v).
Proof.
  destruct (payoff_ok [-1; 0; 1] [- PI; 0; PI] 1 1.1 (exp (-1)) (exp 1) 1 1)
    as (g & G & S & Hp & _); [lra|discriminate|].
  assert (Hm : 1 = 0 \/ 1 = -1 ->
               2%nat <> 1%nat /\ 0%nat <> 1%nat).
  { intros _. split; discriminate. }
  assert (Hpos : positive_inputs 1.1 (exp (-1)) (exp 1) 1).
  { split; [lra|]. split; [apply exp_pos|]. split; [apply exp_pos|lra]. }
  split; [exact Hpos|].
  exists g, G, S. split; [exact Hp|]. split; [reflexivity|]. split; [reflexivity|].
  split; [exact Hm|].
  exact (payoff_transform_hermitian _ _ _ _ _ _ _ _ _ _ _ 2%nat 0%nat PI Hpos Hp
           eq_refl eq_refl Hm).
Defined.

(** ** The grids of the driver *)

Lemma quot2_sign (n : Z) :
  ((n <= -2 -> 2 * Z.quot n 2 < 0) /\ (-1 <= n -> 0 <= 2 * Z.quot n 2))%Z.
Proof.
  pose proof (Z.quot_rem' n 2) as Hqr.
  pose proof (Z.rem_bound_abs n 2 ltac:(lia)) as Hb.
  split; intros H.
  - pose proof (Z.rem_nonpos n 2 ltac:(lia) ltac:(lia)) as Hs. lia.
  - destruct (Z.eq_dec n (-1)) as [->|Hn]; [reflexivity|].
    pose proof (Z.rem_nonneg n 2 ltac:(lia) ltac:(lia)) as Hs. lia.
Qed.

(** The grid cell raises exactly in three cases: a zero number of points
    (division [xwidth/ngrid]), a number of points of [-2] or less (negative
    count passed to [np.linspace]), and a zero width with any other number
    of points (division [2*np.pi/xwidth]). *)
Theorem build_grid_error_cases (xwidth : R) (ngrid : Z) (e : exn) :
  build_grid xwidth ngrid = Raise e <->
  (ngrid = 0%Z /\ e = ZeroDivisionError) \/
  ((ngrid <= -2)%Z /\ e = ValueError) \/
  ((-1 <= ngrid)%Z /\ ngrid <> 0%Z /\ xwidth = 0 /\ e = ZeroDivisionError).
Proof.
  destruct (quot2_sign ngrid) as [Hneg Hpos].
  unfold build_grid, pydiv, linspace.
  destruct (Req_dec_T (IZR ngrid) 0) as [E|E].
  { apply eq_IZR_R0 in E. cbn [bind]. split.
    - intros H. injection H as <-. left. split; [assumption|reflexivity].
    - intros [[_ ->]|[[H _]|(_ & H & _)]]; [reflexivity|lia|contradiction]. }
  assert (Hn0 : ngrid <> 0%Z) by (intros ->; apply E; reflexivity).
  cbn [bind].
  destruct (2 * Z.quot ngrid 2 <? 0)%Z eqn:B.
  { apply Z.ltb_lt in B. cbn [bind]. split.
    - intros H. injection H as <-. right. left. split; [|reflexivity].
      destruct (Z_le_gt_dec ngrid (-2)); [assumption|]. specialize (Hpos ltac:(lia)). lia.
    - intros [[H _]|[[_ ->]|(H & _)]]; [contradiction|reflexivity|].
      specialize (Hpos H). lia. }
  apply Z.ltb_ge in B. cbn [bind].
  assert (Hge : (-1 <= ngrid)%Z).
  { destruct (Z_le_gt_dec ngrid (-2)) as [Hle|]; [specialize (Hneg Hle); lia|lia]. }
  destruct (Req_dec_T xwidth 0) as [W|W]; cbn [bind].
  - split.
    + intros H. injection H as <-. right. right. repeat split; assumption.
    + intros [[H _]|[[H _]|(_ & _ & _ & ->)]]; [contradiction|lia|reflexivity].
  - split; [discriminate|].
    intros [[H _]|[[H _]|(_ & _ & H & _)]]; [contradiction|lia|contradiction].
Qed.

(** The real-space grid runs from [-b] to [b - dx], the frequency grid from
    the Nyquist frequency [-pi/dx] to [pi/dx - dxi], and both are
    antisymmetric about their middle index. *)
Theorem grid_ranges (xwidth : R) (N : Z) (g : Grid) :
  xwidth <> 0 -> (1 <= N)%Z -> build_grid xwidth (2 * N) = Ok g ->
  nth_error (grid_x g) 0 = Some (- grid_b g) /\
  nth_error (grid_x g) (Z.to_nat (2 * N) - 1) = Some (grid_b g - grid_dx g) /\
  nth_error (grid_xi g) 0 = Some (- (PI / grid_dx g)) /\
  nth_error (grid_xi g) (Z.to_nat (2 * N) - 1) = Some (PI / grid_dx g - grid_dxi g) /\
  forall k, (1 <= k < Z.to_nat N)%nat ->
    (exists v, nth_error (grid_x g) (Z.to_nat N - k) = Some v /\
               nth_error (grid_x g) (Z.to_nat N + k) = Some (- v)) /\
    (exists v, nth_error (grid_xi g) (Z.to_nat N - k) = Some v /\
               nth_error (grid_xi g) (Z.to_nat N + k) = Some (- v)).
Proof.
  intros Hw HN Hg. rewrite build_grid_even in Hg by assumption.
  apply Ok_inj in Hg. subst g. cbn [grid_x grid_xi grid_b grid_dx grid_dxi].
  assert (HNR : 1 <= IZR N) by (apply IZR_le in HN; exact HN).
  assert (Hn : Z.to_nat (2 * N) = (2 * Z.to_nat N)%nat) by lia.
  assert (H2N : IZR (2 * N) = 2 * IZR N) by (rewrite mult_IZR; reflexivity).
  assert (HNnat : INR (Z.to_nat N) = IZR N) by (rewrite INR_IZR_INZ, Z2Nat.id by lia; reflexivity).
  split; [|split; [|split; [|split]]].
  - rewrite nth_error_map_seq by lia. f_equal. rewrite opp_IZR, H2N. simpl. field. lra.
  - rewrite nth_error_map_seq by lia. f_equal.
    rewrite minus_INR, Hn, mult_INR, HNnat, opp_IZR, H2N by lia. simpl. field. lra.
  - rewrite nth_error_map_seq by lia. f_equal. rewrite opp_IZR, H2N. simpl. field.
    split; lra.
  - rewrite nth_error_map_seq by lia. f_equal.
    rewrite minus_INR, Hn, mult_INR, HNnat, opp_IZR, H2N by lia. simpl. field.
    split; lra.
  - intros k Hk. split.
    + eexists. split; [rewrite nth_error_map_seq by lia; reflexivity|].
      rewrite nth_error_map_seq by lia. f_equal.
      rewrite minus_INR, plus_INR, HNnat, opp_IZR by lia. ring.
    + eexists. split; [rewrite nth_error_map_seq by lia; reflexivity|].
      rewrite nth_error_map_seq by lia. f_equal.
      rewrite minus_INR, plus_INR, HNnat, opp_IZR by lia. ring.
Qed.

Lemma grid_ranges_witness :
  6 <> 0 /\ (1 <= 128)%Z /\
  exists g,
    build_grid 6 (2 * 128) = Ok g /\
    nth_error (grid_x g) 0 = Some (- grid_b g) /\
    nth_error (grid_x g) (Z.to_nat (2 * 128) - 1) = Some (grid_b g - grid_dx g) /\
    nth_error (grid_xi g) 0 = Some (- (PI / grid_dx g)) /\
    nth_error (grid_xi g) (Z.to_nat (2 * 128) - 1) = Some (PI / grid_dx g - grid_dxi g) /\
    forall k, (1 <= k < Z.to_nat 128)%nat ->
      (exists v, nth_error (grid_x g) (Z.to_nat 128 - k) = Some v /\
                 nth_error (grid_x g) (Z.to_nat 128 + k) = Some (- v)) /\
      (exists v, nth_error (grid_xi g) (Z.to_nat 128 - k) = Some v /\
                 nth_error (grid_xi g) (Z.to_nat 128 + k) = Some (- v)).
Proof.
  assert (H6 : 6 <> 0) by lra.
  assert (HN : (1 <= 128)%Z) by lia.
  split; [exact H6|]. split; [exact HN|].
  eexists. split; [exact (build_grid_even 6 128 H6 HN)|].
  exact (grid_ranges 6 128 _ H6 HN (build_grid_even 6 128 H6 HN)).
Defined.

Lemma increasing_scaled_seq (w c : R) (n : nat) :
  0 < w -> increasing (map (fun j => w * (c + INR j)) (seq 0 n)).
Proof.
  intros Hw i j Hij. rewrite length_map, length_seq in Hij.
  rewrite (nth_indep _ 0 (w * (c + INR 0))) by (rewrite length_map, length_seq; lia).
  rewrite (nth_indep _ 0 (w * (c + INR 0)) (n := j))
    by (rewrite length_map, length_seq; lia).
  rewrite !(map_nth (fun j => w * (c + INR j)) (seq 0 n) 0%nat).
  rewrite !seq_nth by lia. simpl plus.
  apply Rmult_lt_compat_l; [assumption|].
  apply Rplus_lt_compat_l. apply lt_INR. lia.
Qed.

(** For a positive width both grids are strictly increasing. *)
Theorem grid_increasing (xwidth : R) (N : Z) (g : Grid) :
  0 < xwidth -> (1 <= N)%Z -> build_grid xwidth (2 * N) = Ok g ->
  increasing (grid_x g) /\ increasing (grid_xi g).
Proof.
  intros Hw HN Hg. rewrite build_grid_even in Hg by (lra || assumption).
  apply Ok_inj in Hg. subst g. cbn [grid_x grid_xi].
  assert (HNR : 0 < IZR (2 * N)) by (apply IZR_lt; lia).
  pose proof PI_RGT_0 as HPI.
  split; apply increasing_scaled_seq.
  - apply Rdiv_lt_0_compat; assumption.
  - apply Rdiv_lt_0_compat; lra.
Qed.

Lemma grid_increasing_witness :
  0 < 6 /\ (1 <= 128)%Z /\
  exists g, build_grid 6 (2 * 128) = Ok g /\
            increasing (grid_x g) /\ increasing (grid_xi g).
Proof.
  assert (H6 : 0 < 6) by lra.
  assert (H60 : 6 <> 0) by lra.
  assert (HN : (1 <= 128)%Z) by lia.
  split; [exact H6|]. split; [exact HN|].
  eexists. split; [exact (build_grid_even 6 128 H60 HN)|].
  exact (grid_increasing 6 128 _ H6 HN (build_grid_even 6 128 H60 HN)).
Defined.

(** Every point of the real-space grid lies in [[-b, b)]. *)
Lemma grid_x_bounds (xwidth : R) (N : Z) (g : Grid) (xj : R) :
  0 < xwidth -> (1 <= N)%Z -> build_grid xwidth (2 * N) = Ok g ->
  In xj (grid_x g) -> - grid_b g <= xj < grid_b g.
Proof.
  intros Hw HN Hg Hin. rewrite build_grid_even in Hg by (lra || assumption).
  apply Ok_inj in Hg. subst g. cbn [grid_x grid_b] in *.
  apply in_map_iff in Hin. destruct Hin as (j & <- & Hj). apply in_seq in Hj.
  assert (HNR : 1 <= IZR N) by (apply IZR_le in HN; exact HN).
  assert (H2N : IZR (2 * N) = 2 * IZR N) by (rewrite mult_IZR; reflexivity).
  assert (Hj0 : 0 <= INR j) by apply pos_INR.
  assert (Hj1 : INR j < 2 * IZR N).
  { rewrite <- H2N. replace (IZR (2 * N)) with (INR (Z.to_nat (2 * N)))
      by (rewrite INR_IZR_INZ, Z2Nat.id by lia; reflexivity).
    apply lt_INR. lia. }
  rewrite opp_IZR, H2N.
  assert (Hd : 0 < xwidth / (2 * IZR N)) by (apply Rdiv_lt_0_compat; lra).
  replace (xwidth / 2) with (xwidth / (2 * IZR N) * IZR N) by (field; lra).
  split; nra.
Qed.

(** Every point of the real-space grid after the first lies strictly
    between [-b] and [b]. *)
Lemma grid_x_interior (xwidth : R) (N : Z) (g : Grid) (j : nat) (xj : R) :
  0 < xwidth -> (1 <= N)%Z -> build_grid xwidth (2 * N) = Ok g ->
  (1 <= j)%nat -> nth_error (grid_x g) j = Some xj ->
  - grid_b g < xj < grid_b g.
Proof.
  intros Hw HN Hg Hj Hx.
  destruct (grid_x_bounds xwidth N g xj Hw HN Hg (nth_error_In _ _ Hx)) as [_ Hhi].
  split; [|exact Hhi].
  rewrite build_grid_even in Hg by (lra || assumption).
  apply Ok_inj in Hg. subst g. cbn [grid_x grid_b] in *.
  assert (Hlt : (j < Z.to_nat (2 * N))%nat).
  { assert (Hs : nth_error
                   (map (fun j0 => xwidth / IZR (2 * N) * (IZR (- N) + INR j0))
                        (seq 0 (Z.to_nat (2 * N)))) j <> None)
      by (rewrite Hx; discriminate).
    apply nth_error_Some in Hs. rewrite length_map, length_seq in Hs. exact Hs. }
  rewrite nth_error_map_seq in Hx by exact Hlt.
  assert (E : xj = xwidth / IZR (2 * N) * (IZR (- N) + INR j)) by congruence.
  subst xj. clear Hx Hhi.
  assert (HNR : 1 <= IZR N) by (apply IZR_le in HN; exact HN).
  assert (H2N : IZR (2 * N) = 2 * IZR N) by (rewrite mult_IZR; reflexivity).
  assert (Hj1 : 1 <= INR j) by (change 1 with (INR 1); apply le_INR; exact Hj).
  rewrite opp_IZR, H2N.
  assert (Hd : 0 < xwidth / (2 * IZR N)) by (apply Rdiv_lt_0_compat; lra).
  replace (xwidth / 2) with (xwidth / (2 * IZR N) * IZR N) by (field; lra).
  nra.
Qed.

(** With the barriers [L = S0*exp(-b)] and [U = S0*exp(b)] of the driver
    every grid spot after the first is strictly inside the window, so the
    window does not cut the damped payoff there: it is
    [exp(alpha x) * max(S - K, 0)] for the call and
    [exp(alpha x) * max(K - S, 0)] for the put.  The first grid point,
    [x = -b], sits on the lower barrier itself and is left out. *)
Theorem driver_window_covers_grid
        (xwidth S0 alpha K : R) (N : Z) (call : Z) (g : Grid)
        (gd : list R) (G : list num) (S : list R) (j : nat) (xj : R) :
  0 < xwidth -> 0 < S0 -> (1 <= N)%Z ->
  build_grid xwidth (2 * N) = Ok g ->
  payoff (grid_x g) (grid_xi g) alpha K
         (driver_L S0 (grid_b g)) (driver_U S0 (grid_b g)) S0 call = Ok (gd, G, S) ->
  (1 <= j)%nat -> nth_error (grid_x g) j = Some xj ->
  driver_L S0 (grid_b g) < S0 * exp xj < driver_U S0 (grid_b g) /\
  nth_error S j = Some (S0 * exp xj) /\
  nth_error gd j =
  Some (exp (alpha * xj)
        * Rmax (if (call =? 1)%Z then S0 * exp xj - K else K - S0 * exp xj) 0).
Proof.
  intros Hw HS HN Hg Hp Hj Hx.
  destruct (payoff_inv _ _ _ _ _ _ _ _ _ _ _ Hp) as (_ & HSeq & Hgd & _).
  destruct (grid_x_interior xwidth N g j xj Hw HN Hg Hj Hx) as [Hlo Hhi].
  assert (Hin : driver_L S0 (grid_b g) < S0 * exp xj < driver_U S0 (grid_b g)).
  { unfold driver_L, driver_U. split.
    - apply Rmult_lt_compat_l; [exact HS|]. apply exp_increasing. exact Hlo.
    - apply Rmult_lt_compat_l; [exact HS|]. apply exp_increasing. exact Hhi. }
  split; [exact Hin|]. split.
  - subst S. rewrite nth_error_map, Hx. reflexivity.
  - subst gd. rewrite nth_error_map, Hx. cbn [option_map]. f_equal.
    destruct Hin as [Hl Hu]. unfold indicator.
    destruct (Rge_dec (S0 * exp xj) (driver_L S0 (grid_b g))) as [_|n]; [|lra].
    destruct (Rle_dec (S0 * exp xj) (driver_U S0 (grid_b g))) as [_|n]; [|lra].
    ring.
Qed.

Lemma driver_window_covers_grid_witness :
  0 < 2 /\ 0 < 1 /\ (1 <= 1)%Z /\
  exists g gd G S,
    build_grid 2 (2 * 1) = Ok g /\
    payoff (grid_x g) (grid_xi g) (-1) 1.1
           (driver_L 1 (grid_b g)) (driver_U 1 (grid_b g)) 1 1 = Ok (gd, G, S) /\
    (1 <= 1)%nat /\ nth_error (grid_x g) 1 = Some (2 / IZR (2 * 1) * (IZR (- 1) + INR 1)) /\
    driver_L 1 (grid_b g) < 1 * exp (2 / IZR (2 * 1) * (IZR (- 1) + INR 1))
    < driver_U 1 (grid_b g) /\
    nth_error S 1 = Some (1 * exp (2 / IZR (2 * 1) * (IZR (- 1) + INR 1))) /\
    nth_error gd 1 =
    Some (exp (-1 * (2 / IZR (2 * 1) * (IZR (- 1) + INR 1)))
          * Rmax (if (1 =? 1)%Z
                  then 1 * exp (2 / IZR (2 * 1) * (IZR (- 1) + INR 1)) - 1.1
                  else 1.1 - 1 * exp (2 / IZR (2 * 1) * (IZR (- 1) + INR 1))) 0).
Proof.
  assert (Hw : 0 < 2) by lra.
  assert (Hw0 : 2 <> 0) by lra.
  assert (HS : 0 < 1) by lra.
  assert (HN : (1 <= 1)%Z) by lia.
  assert (Hj : (1 <= 1)%nat) by lia.
  pose proof (build_grid_even 2 1 Hw0 HN) as Hg.
  split; [exact Hw|]. split; [exact HS|]. split; [exact HN|].
  destruct (payoff_ok
              (map (fun j => 2 / IZR (2 * 1) * (IZR (- 1) + INR j)) (seq 0 (Z.to_nat (2 * 1))))
              (map (fun j => 2 * PI / 2 * (IZR (- 1) + INR j)) (seq 0 (Z.to_nat (2 * 1))))
              (-1) 1.1 (driver_L 1 (2 / 2)) (driver_U 1 (2 / 2)) 1 1)
    as (gd & G & S & Hp & _); [lra|discriminate|].
  eexists. exists gd, G, S. split; [exact Hg|]. split; [exact Hp|].
  split; [exact Hj|].
  assert (Hx : nth_error
                 (map (fun j => 2 / IZR (2 * 1) * (IZR (- 1) + INR j))
                      (seq 0 (Z.to_nat (2 * 1)))) 1
               = Some (2 / IZR (2 * 1) * (IZR (- 1) + INR 1))) by reflexivity.
  split; [exact Hx|].
  exact (driver_window_covers_grid 2 1 (-1) 1.1 1 1 _ gd G S 1%nat _ Hw HS HN Hg Hp Hj Hx).
Defined.

(** ** The jump-diffusion characteristic function *)

Lemma psi_exponent_conj (m sigma lmbda mu_j sigma_j : R) (z : complex) :
  psi_exponent m sigma lmbda mu_j sigma_j (- Cconj z)%C =
  Cconj (psi_exponent m sigma lmbda mu_j sigma_j z).
Proof.
  unfold psi_exponent.
  replace (Ci * RtoC mu_j * - Cconj z - RtoC 0.5 * Csqr (RtoC sigma_j * - Cconj z))%C
    with (Cconj (Ci * RtoC mu_j * z - RtoC 0.5 * Csqr (RtoC sigma_j * z)))
    by (unfold Csqr; cring).
  rewrite Cexp_conj.
  generalize (Cexp (Ci * RtoC mu_j * z - RtoC 0.5 * Csqr (RtoC sigma_j * z))%C).
  intros A. unfold Csqr. cring.
Qed.

Lemma psi_value_conj (m sigma lmbda mu_j sigma_j T : R) (z : complex) :
  psi_value m sigma lmbda mu_j sigma_j T (- Cconj z)%C =
  Cconj (psi_value m sigma lmbda mu_j sigma_j T z).
Proof.
  unfold psi_value. rewrite psi_exponent_conj, <- Cexp_conj. f_equal. cring.
Qed.

(** The sampled characteristic functions are Hermitian in the frequency:
    the call sample [psi_c], the put sample [psi_p] and the undamped sample
    [psi] take conjugate values at two opposite frequencies. *)
Theorem characteristic_samples_hermitian
        (m sigma lmbda mu_j sigma_j T alpha : R) (xi : list R) (i j : nat) (xi_i : R) :
  nth_error xi i = Some xi_i ->
  nth_error xi j = Some (- xi_i) ->
  (exists v, nth_error (psi_c m sigma lmbda mu_j sigma_j T alpha xi) i = Some v /\
             nth_error (psi_c m sigma lmbda mu_j sigma_j T alpha xi) j = Some (Cconj v)) /\
  (exists v, nth_error (psi_p m sigma lmbda mu_j sigma_j T alpha xi) i = Some v /\
             nth_error (psi_p m sigma lmbda mu_j sigma_j T alpha xi) j = Some (Cconj v)) /\
  (exists v, nth_error (psi m sigma lmbda mu_j sigma_j T xi) i = Some v /\
             nth_error (psi m sigma lmbda mu_j sigma_j T xi) j = Some (Cconj v)).
Proof.
  intros Hi Hj. unfold psi_c, psi_p, psi. rewrite !nth_error_map, Hi, Hj. simpl.
  split; [|split]; (eexists; split; [reflexivity|]); f_equal;
    rewrite <- psi_value_conj; f_equal; cring.
Qed.

Lemma characteristic_samples_hermitian_witness :
  nth_error [- PI; 0; PI] 2 = Some PI /\
  nth_error [- PI; 0; PI] 0 = Some (- PI) /\
  (exists v, nth_error (psi_c 0.05 0.4 0.5 (-0.1) 0.15 1 (-1) [- PI; 0; PI]) 2 = Some v /\
             nth_error (psi_c 0.05 0.4 0.5 (-0.1) 0.15 1 (-1) [- PI; 0; PI]) 0
             = Some (Cconj v)) /\
  (exists v, nth_error (psi_p 0.05 0.4 0.5 (-0.1) 0.15 1 (-1) [- PI; 0; PI]) 2 = Some v /\
             nth_error (psi_p 0.05 0.4 0.5 (-0.1) 0.15 1 (-1) [- PI; 0; PI]) 0
             = Some (Cconj v)) /\
  (exists v, nth_error (psi 0.05 0.4 0.5 (-0.1) 0.15 1 [- PI; 0; PI]) 2 = Some v /\
             nth_error (psi 0.05 0.4 0.5 (-0.1) 0.15 1 [- PI; 0; PI]) 0 = Some (Cconj v)).
Proof.
  split; [reflexivity|]. split; [reflexivity|].
  exact (characteristic_samples_hermitian 0.05 0.4 0.5 (-0.1) 0.15 1 (-1)
           [- PI; 0; PI] 2 0 PI eq_refl eq_refl).
Defined.

(** The drift [muRN] makes the discounted price a martingale: the
    characteristic function at the argument [-i], the expectation of
    [exp(X_T)], is exactly [exp((r - q) T)]. *)
Theorem risk_neutral_drift_martingale (r q sigma lmbda mu_j sigma_j T : R) :
  psi_value (muRN r q sigma lmbda mu_j sigma_j) sigma lmbda mu_j sigma_j T (- Ci)%C =
  RtoC (exp ((r - q) * T)).
Proof.
  unfold psi_value, psi_exponent.
  replace (Ci * RtoC mu_j * - Ci - RtoC 0.5 * Csqr (RtoC sigma_j * - Ci))%C
    with (RtoC (mu_j + 0.5 * sigma_j ^ 2)) by (unfold Csqr; cring).
  rewrite Cexp_RtoC.
  replace ((Ci * RtoC (muRN r q sigma lmbda mu_j sigma_j) * - Ci
            - RtoC 0.5 * Csqr (RtoC sigma * - Ci)
            + RtoC lmbda * (RtoC (exp (mu_j + 0.5 * sigma_j ^ 2)) - C1)) * RtoC T)%C
    with (RtoC ((r - q) * T)).
  - apply Cexp_RtoC.
  - unfold muRN, Csqr. generalize (exp (mu_j + 0.5 * sigma_j ^ 2)). intros e. cring.
Qed.

Lemma Cabs_Cexp (z : complex) : Cabs (Cexp z) = exp (Re z).
Proof.
  unfold Cabs, Cnorm2. simpl.
  replace (exp (Re z) * cos (Im z) * (exp (Re z) * cos (Im z))
           + exp (Re z) * sin (Im z) * (exp (Re z) * sin (Im z)))
    with (exp (Re z) * exp (Re z) * ((sin (Im z))² + (cos (Im z))²))
    by (unfold Rsqr; ring).
  rewrite sin2_cos2, Rmult_1_r. apply sqrt_square. left. apply exp_pos.
Qed.

Lemma Re_psi_exponent_real (m sigma lmbda mu_j sigma_j xi : R) :
  Re (psi_exponent m sigma lmbda mu_j sigma_j (RtoC xi)) =
  - (1 / 2) * sigma ^ 2 * xi ^ 2
  + lmbda * (exp (- (1 / 2) * sigma_j ^ 2 * xi ^ 2) * cos (mu_j * xi) - 1).
Proof.
  unfold psi_exponent.
  replace (Ci * RtoC mu_j * RtoC xi - RtoC 0.5 * Csqr (RtoC sigma_j * RtoC xi))%C
    with (mkC (- (1 / 2) * sigma_j ^ 2 * xi ^ 2) (mu_j * xi))
    by (unfold Csqr; cring).
  unfold Cexp, Csqr. simpl. rewrite half_eq. ring.
Qed.

Lemma exp_le_1 (x : R) : x <= 0 -> exp x <= 1.
Proof.
  intros [Hlt|Heq].
  - left. pose proof (exp_increasing x 0 Hlt) as H. rewrite exp_0 in H. exact H.
  - rewrite Heq, exp_0. lra.
Qed.

(** For a real frequency, a non-negative jump intensity and a non-negative
    maturity the characteristic function has modulus at most one. *)
Theorem characteristic_function_bounded
        (m sigma lmbda mu_j sigma_j T xi : R) :
  0 <= lmbda -> 0 <= T ->
  Cabs (psi_value m sigma lmbda mu_j sigma_j T (RtoC xi)) <= 1.
Proof.
  intros Hl HT. unfold psi_value. rewrite Cabs_Cexp.
  replace (Re (psi_exponent m sigma lmbda mu_j sigma_j (RtoC xi) * RtoC T)%C)
    with (Re (psi_exponent m sigma lmbda mu_j sigma_j (RtoC xi)) * T)
    by (simpl; ring).
  rewrite Re_psi_exponent_real.
  apply exp_le_1.
  pose proof (exp_pos (- (1 / 2) * sigma_j ^ 2 * xi ^ 2)) as He0.
  assert (He1 : exp (- (1 / 2) * sigma_j ^ 2 * xi ^ 2) <= 1).
  { apply exp_le_1. pose proof (pow2_ge_0 sigma_j). pose proof (pow2_ge_0 xi). nra. }
  pose proof (COS_bound (mu_j * xi)) as [Hc1 Hc2].
  assert (Hec : exp (- (1 / 2) * sigma_j ^ 2 * xi ^ 2) * cos (mu_j * xi) <= 1) by nra.
  pose proof (pow2_ge_0 sigma). pose proof (pow2_ge_0 xi).
  assert (- (1 / 2) * sigma ^ 2 * xi ^ 2 <= 0) by nra.
  assert (lmbda * (exp (- (1 / 2) * sigma_j ^ 2 * xi ^ 2) * cos (mu_j * xi) - 1) <= 0)
    by nra.
  nra.
Qed.

Lemma characteristic_function_bounded_witness :
  0 <= 0.5 /\ 0 <= 1 /\
  Cabs (psi_value 0.05 0.4 0.5 (-0.1) 0.15 1 (RtoC PI)) <= 1.
Proof.
  assert (Hl : 0 <= 0.5) by lra.
  assert (HT : 0 <= 1) by lra.
  split; [exact Hl|]. split; [exact HT|].
  exact (characteristic_function_bounded 0.05 0.4 0.5 (-0.1) 0.15 1 PI Hl HT).
Defined.

(** ** The recovered density *)

(** The plain sum of the recovered density times [dx], with no end
    correction, is exactly the real part of the characteristic function at
    zero frequency: one, for a characteristic function. *)
Theorem density_riemann_sum
        (xwidth : R) (N : Z) (g : Grid) (psi : list complex) (c : complex) :
  xwidth <> 0 -> (1 <= N)%Z ->
  build_grid xwidth (2 * N) = Ok g ->
  length psi = Z.to_nat (2 * N) ->
  nth_error psi (Z.to_nat N) = Some c ->
  Rsum (map (fun v => v * grid_dx g) (density xwidth psi)) = Re c.
Proof.
  intros Hw HN Hg Hlen Hc.
  rewrite build_grid_even in Hg by assumption. apply Ok_inj in Hg. subst g.
  cbn [grid_dx].
  set (n := Z.to_nat (2 * N)) in *.
  assert (Hn : n = (2 * Z.to_nat N)%nat) by (unfold n; lia).
  assert (Hne : psi <> []) by (intros E; rewrite E in Hlen; simpl in Hlen; lia).
  assert (Hhalf : (length psi / 2 = Z.to_nat N)%nat)
    by (rewrite Hlen, Hn, Nat.mul_comm; apply Nat.div_mul; discriminate).
  assert (HnR : IZR (2 * N) = INR n)
    by (unfold n; rewrite INR_IZR_INZ, Z2Nat.id; [reflexivity|lia]).
  assert (Hn0 : INR n <> 0) by (apply not_0_INR; lia).
  rewrite Rsum_map_scal. unfold density.
  rewrite <- (map_map Re (fun v => v / xwidth)).
  replace (Rsum (map (fun v => v / xwidth) (map Re (fftshift (fft (ifftshift psi))))))
    with (Rsum (map Re (fftshift (fft (ifftshift psi)))) * / xwidth)
    by (symmetry; apply (Rsum_map_scal (/ xwidth))).
  rewrite <- Re_Csum, Csum_fftshift, fft_total, length_ifftshift, Hlen.
  assert (E0 : nth 0 (ifftshift psi) C0 = c).
  { apply nth_error_nth. rewrite ifftshift_0 by assumption. rewrite Hhalf. exact Hc. }
  rewrite E0, HnR. simpl. field. split; assumption.
Qed.

Lemma density_riemann_sum_witness :
  2 <> 0 /\ (1 <= 1)%Z /\
  exists g,
    build_grid 2 (2 * 1) = Ok g /\
    length [Ci; C1] = Z.to_nat (2 * 1) /\
    nth_error [Ci; C1] (Z.to_nat 1) = Some C1 /\
    Rsum (map (fun v => v * grid_dx g) (density 2 [Ci; C1])) = Re C1.
Proof.
  assert (Hw : 2 <> 0) by lra.
  assert (HN : (1 <= 1)%Z) by lia.
  split; [exact Hw|]. split; [exact HN|].
  eexists. split; [exact (build_grid_even 2 1 Hw HN)|].
  split; [reflexivity|]. split; [reflexivity|].
  exact (density_riemann_sum 2 1 _ [Ci; C1] C1 Hw HN (build_grid_even 2 1 Hw HN)
           eq_refl eq_refl).
Defined.

Lemma trapz_real_linear {A : Type} (a b : R) (F H : A -> R) (l : list A) :
  trapz_real (map (fun p => a * F p - b * H p) l) =
  a * trapz_real (map F l) - b * trapz_real (map H l).
Proof.
  induction l as [|p0 t IH]; [simpl; ring|].
  destruct t as [|p1 t']; [simpl; ring|].
  change (trapz_real (map (fun p => a * F p - b * H p) (p0 :: p1 :: t')))
    with ((a * F p1 - b * H p1 + (a * F p0 - b * H p0)) / 2
          + trapz_real (map (fun p => a * F p - b * H p) (p1 :: t'))).
  change (trapz_real (map F (p0 :: p1 :: t')))
    with ((F p1 + F p0) / 2 + trapz_real (map F (p1 :: t'))).
  change (trapz_real (map H (p0 :: p1 :: t')))
    with ((H p1 + H p0) / 2 + trapz_real (map H (p1 :: t'))).
  rewrite IH. field.
Qed.

Lemma map_snd_combine {A B : Type} (l : list A) (l' : list B) :
  length l = length l' -> map snd (combine l l') = l'.
Proof.
  revert l'. induction l as [|h t IH]; intros [|h' t'] H; simpl in *;
    try reflexivity; try discriminate.
  f_equal. apply IH. lia.
Qed.

(** Put-call parity of the density pricing cell: for arrays [x] and [f] of
    one length, the call value less the put value is the discounted
    trapezoidal integral of [S0*exp(x)*f] less [K] times that of [f]. *)
Theorem density_put_call_parity (r T S0 K dx : R) (x f : list R) :
  length x = length f ->
  Vc_density r T S0 K dx x f - Vp_density r T S0 K dx x f =
  exp (- r * T)
  * (S0 * trapz_real (map (fun p => exp (fst p) * snd p * dx) (combine x f))
     - K * trapz_real (map (fun v => v * dx) f)).
Proof.
  intros Hlen. unfold Vc_density, Vp_density.
  assert (E4 : trapz_real (map (fun v => v * dx) f) =
               trapz_real (map (fun p => snd p * dx) (combine x f))).
  { rewrite <- (map_map snd (fun v => v * dx)), map_snd_combine by assumption.
    reflexivity. }
  rewrite E4.
  rewrite <- (trapz_real_linear S0 K (fun p => exp (fst p) * snd p * dx)
                               (fun p => snd p * dx) (combine x f)).
  rewrite <- Rmult_minus_distr_l. f_equal.
  transitivity
    (1 * trapz_real (map (fun p => Rmax (S0 * exp (fst p) - K) 0 * snd p * dx) (combine x f))
     - 1 * trapz_real (map (fun p => Rmax (K - S0 * exp (fst p)) 0 * snd p * dx)
                           (combine x f))); [ring|].
  rewrite <- (trapz_real_linear 1 1 (fun p => Rmax (S0 * exp (fst p) - K) 0 * snd p * dx)
                               (fun p => Rmax (K - S0 * exp (fst p)) 0 * snd p * dx)
                               (combine x f)).
  f_equal. apply map_ext. intros [xj fj]. simpl.
  destruct (Rle_dec (S0 * exp xj) K) as [Hle|Hgt].
  - rewrite (Rmax_right (S0 * exp xj - K) 0), (Rmax_left (K - S0 * exp xj) 0) by lra. ring.
  - rewrite (Rmax_left (S0 * exp xj - K) 0), (Rmax_right (K - S0 * exp xj) 0) by lra. ring.
Qed.

Lemma density_put_call_parity_witness :
  length [-1; 0] = length [1 / 2; 1 / 2] /\
  Vc_density 0.05 1 1 1.1 1 [-1; 0] [1 / 2; 1 / 2]
  - Vp_density 0.05 1 1 1.1 1 [-1; 0] [1 / 2; 1 / 2] =
  exp (- (0.05) * 1)
  * (1 * trapz_real (map (fun p => exp (fst p) * snd p * 1)
                         (combine [-1; 0] [1 / 2; 1 / 2]))
     - 1.1 * trapz_real (map (fun v => v * 1) [1 / 2; 1 / 2])).
Proof.
  split; [reflexivity|].
  exact (density_put_call_parity 0.05 1 1 1.1 1 [-1; 0] [1 / 2; 1 / 2] eq_refl).
Defined.

(** ** Closed-form prices *)

Lemma symmetric_cdf_sym (x : R) : symmetric_cdf x + symmetric_cdf (- x) = 1.
Proof.
  unfold symmetric_cdf. rewrite atan_opp. pose proof PI_RGT_0. field. lra.
Qed.

(** Put-call parity of [bs_price]: for positive spot, strike, volatility and
    maturity, and a distribution function with [cdf(x) + cdf(-x) = 1], the
    call price less the put price is [S*exp(-q*T) - K*exp(-r*T)]. *)
Theorem bs_price_put_call_parity
        (norm_cdf : R -> R) (S K T r q sigma : R) :
  (forall x, norm_cdf x + norm_cdf (- x) = 1) ->
  0 < S -> 0 < K -> 0 < T -> 0 < sigma ->
  exists c p,
    bs_price norm_cdf S K T r q sigma true = Ok c /\
    bs_price norm_cdf S K T r q sigma false = Ok p /\
    c - p = S * exp (- q * T) - K * exp (- r * T).
Proof.
  intros Hsym HS HK HT Hs. unfold bs_price, pydiv.
  destruct (Req_dec_T K 0) as [E|_]; [lra|]. cbn [bind].
  do 2 eexists. split; [reflexivity|]. split; [reflexivity|].
  set (d1 := (ln (S / K) + (r - q + sigma ^ 2 / 2) * T) / (sigma * sqrt T)).
  pose proof (Hsym d1) as H1. pose proof (Hsym (d1 - sigma * sqrt T)) as H2.
  nra.
Qed.

Lemma bs_price_put_call_parity_witness :
  (forall x, symmetric_cdf x + symmetric_cdf (- x) = 1) /\
  0 < 1 /\ 0 < 1.1 /\ 0 < 1 /\ 0 < 0.4 /\
  exists c p,
    bs_price symmetric_cdf 1 1.1 1 0.05 0.02 0.4 true = Ok c /\
    bs_price symmetric_cdf 1 1.1 1 0.05 0.02 0.4 false = Ok p /\
    c - p = 1 * exp (- (0.02) * 1) - 1.1 * exp (- (0.05) * 1).
Proof.
  assert (H1 : 0 < 1) by lra.
  assert (HK : 0 < 1.1) by lra.
  assert (Hs : 0 < 0.4) by lra.
  split; [exact symmetric_cdf_sym|].
  split; [exact H1|]. split; [exact HK|]. split; [exact H1|]. split; [exact Hs|].
  exact (bs_price_put_call_parity symmetric_cdf 1 1.1 1 0.05 0.02 0.4
           symmetric_cdf_sym H1 HK H1 Hs).
Defined.

Lemma bs_price_ok (norm_cdf : R -> R) (S K T r q sigma : R) (call : bool) :
  K <> 0 -> exists p, bs_price norm_cdf S K T r q sigma call = Ok p.
Proof.
  intros HK. unfold bs_price, pydiv.
  destruct (Req_dec_T K 0) as [E|_]; [contradiction|]. cbn [bind].
  destruct call; eexists; reflexivity.
Qed.

Lemma bs_price_raises (norm_cdf : R -> R) (S T r q sigma : R) (call : bool) :
  bs_price norm_cdf S 0 T r q sigma call = Raise ZeroDivisionError.
Proof.
  unfold bs_price, pydiv. destruct (Req_dec_T 0 0) as [_|E]; [reflexivity|contradiction].
Qed.

Lemma factorial_pos (k : nat) : (1 <= factorial k)%Z.
Proof.
  induction k as [|k IH]; cbn [factorial]; [lia|]. nia.
Qed.

Lemma factorial_le (k k' : nat) : (k <= k')%nat -> (factorial k <= factorial k')%Z.
Proof.
  induction 1 as [|k' _ IH]; [lia|].
  cbn [factorial]. pose proof (factorial_pos k'). nia.
Qed.

(** [170!] is the last factorial that a float holds. *)
Lemma float_of_int_factorial (k : nat) :
  float_of_int (factorial k)
  = if (k <=? 170)%nat then Ok (IZR (factorial k)) else Raise OverflowError.
Proof.
  unfold float_of_int. pose proof (factorial_pos k) as Hp.
  rewrite Z.abs_eq by lia.
  assert (H170 : (factorial 170 < overflow_threshold)%Z) by (vm_compute; reflexivity).
  assert (H171 : (overflow_threshold <= factorial 171)%Z)
    by (vm_compute; intros E; discriminate E).
  destruct (Nat.leb_spec k 170) as [Hk|Hk].
  - pose proof (factorial_le k 170 Hk).
    destruct (Z.ltb_spec (factorial k) overflow_threshold); [reflexivity|lia].
  - pose proof (factorial_le 171 k ltac:(lia)).
    destruct (Z.ltb_spec (factorial k) overflow_threshold); [lia|reflexivity].
Qed.

Lemma merton_loop_ok (norm_cdf : R -> R) (S K T r q sigma mu_j sigma_j lam : R)
      (call : bool) (stop_cond : R) (fuel : nat) :
  T <> 0 -> K <> 0 ->
  forall k V, (k + fuel <= 171)%nat -> exists v,
    merton_loop norm_cdf S K T r q sigma mu_j sigma_j lam call stop_cond fuel k V = Ok v.
Proof.
  intros HT HK. induction fuel as [|fuel IH]; intros k V Hk.
  - eexists; reflexivity.
  - cbn [merton_loop]. unfold pydiv.
    destruct (Req_dec_T T 0) as [E|_]; [contradiction|]. cbn [bind].
    rewrite float_of_int_factorial.
    destruct (Nat.leb_spec k 170) as [_|F]; [|lia]. cbn [bind].
    match goal with |- context [bs_price ?c ?s ?k' ?t ?r' ?q' ?sg ?cl] =>
      destruct (bs_price_ok c s k' t r' q' sg cl HK) as [p ->] end.
    cbn [bind].
    match goal with |- context [Rlt_dec ?a ?b] => destruct (Rlt_dec a b) end.
    + eexists; reflexivity.
    + apply IH. lia.
Qed.

(** With a non-zero maturity and strike the loop can only raise
    [OverflowError], and only by reaching the iteration [k = 171]. *)
Lemma merton_loop_raises (norm_cdf : R -> R) (S K T r q sigma mu_j sigma_j lam : R)
      (call : bool) (stop_cond : R) (fuel : nat) (e : exn) :
  T <> 0 -> K <> 0 ->
  forall k V,
    merton_loop norm_cdf S K T r q sigma mu_j sigma_j lam call stop_cond fuel k V = Raise e ->
    e = OverflowError /\ (172 <= k + fuel)%nat.
Proof.
  intros HT HK. induction fuel as [|fuel IH]; intros k V H.
  - discriminate H.
  - cbn [merton_loop] in H. unfold pydiv in H.
    destruct (Req_dec_T T 0) as [E|_]; [contradiction|]. cbn [bind] in H.
    rewrite float_of_int_factorial in H.
    destruct (Nat.leb_spec k 170) as [Hk|Hk]; cbn [bind] in H.
    + match type of H with context [bs_price ?c ?s ?k' ?t ?r' ?q' ?sg ?cl] =>
        destruct (bs_price_ok c s k' t r' q' sg cl HK) as [p Hp]; rewrite Hp in H end.
      cbn [bind] in H.
      match type of H with context [Rlt_dec ?a ?b] => destruct (Rlt_dec a b) end.
      * discriminate H.
      * destruct (IH _ _ H) as [He Hf]. split; [exact He|lia].
    + split; [congruence|lia].
Qed.

(** With no jumps and a threshold that is not positive, every term after the
    first is zero and does not stop the loop, which goes on to the iteration
    [k = 171] if it has that many iterations. *)
Lemma merton_loop_no_jumps_overflow (norm_cdf : R -> R)
      (S K T r q sigma mu_j sigma_j : R) (call : bool) (stop_cond : R) (fuel : nat) :
  T <> 0 -> K <> 0 -> stop_cond <= 0 ->
  forall k V, (1 <= k <= 171)%nat -> (172 <= k + fuel)%nat ->
    merton_loop norm_cdf S K T r q sigma mu_j sigma_j 0 call stop_cond fuel k V
    = Raise OverflowError.
Proof.
  intros HT HK Hstop. induction fuel as [|fuel IH]; intros k V Hk Hf; [lia|].
  cbn [merton_loop]. unfold pydiv.
  destruct (Req_dec_T T 0) as [E|_]; [contradiction|]. cbn [bind].
  rewrite float_of_int_factorial.
  destruct (Nat.leb_spec k 170) as [Hk'|Hk']; cbn [bind]; [|reflexivity].
  match goal with |- context [bs_price ?c ?s ?k' ?t ?r' ?q' ?sg ?cl] =>
    destruct (bs_price_ok c s k' t r' q' sg cl HK) as [p ->] end.
  cbn [bind].
  match goal with |- context [Rlt_dec ?a stop_cond] =>
    assert (Hz : a = 0) end.
  { replace (exp (mu_j + 0.5 * sigma_j ^ 2) * 0 * T) with 0 by ring.
    rewrite pow_i by lia. unfold Rdiv. ring. }
  rewrite Hz.
  destruct (Rlt_dec 0 stop_cond) as [F|_]; [lra|].
  apply IH; lia.
Qed.

(** The first iteration with no jumps is the Black-Scholes term. *)
Lemma merton_first_term (norm_cdf : R -> R) (S K T r q sigma mu_j sigma_j : R)
      (call : bool) (stop_cond : R) (fuel : nat) (p : R) :
  T <> 0 -> 0 <= sigma ->
  bs_price norm_cdf S K T r q sigma call = Ok p ->
  merton_loop norm_cdf S K T r q sigma mu_j sigma_j 0 call stop_cond
              (Datatypes.S fuel) 0 0
  = if Rlt_dec p stop_cond then Ok p
    else merton_loop norm_cdf S K T r q sigma mu_j sigma_j 0 call stop_cond fuel 1 p.
Proof.
  intros HT Hs Hp. cbn [merton_loop]. unfold pydiv.
  destruct (Req_dec_T T 0) as [E|_]; [contradiction|]. cbn [bind].
  rewrite float_of_int_factorial. cbn [Nat.leb bind factorial].
  replace (r - 0 * (exp (mu_j + 0.5 * sigma_j ^ 2) - 1)
           + INR 0 * (mu_j + 0.5 * sigma_j ^ 2) / T) with r
    by (simpl INR; unfold Rdiv; ring).
  replace (sqrt (sigma ^ 2 + INR 0 * sigma_j ^ 2 / T)) with sigma.
  2:{ replace (sigma ^ 2 + INR 0 * sigma_j ^ 2 / T) with (sigma * sigma)
        by (simpl INR; unfold Rdiv; ring).
      symmetry. apply sqrt_square. exact Hs. }
  rewrite Hp. cbn [bind].
  replace (exp (- exp (mu_j + 0.5 * sigma_j ^ 2) * 0 * T)
           * (exp (mu_j + 0.5 * sigma_j ^ 2) * 0 * T) ^ 0 / 1 * p) with p.
  2:{ replace (- exp (mu_j + 0.5 * sigma_j ^ 2) * 0 * T) with 0 by ring.
      rewrite exp_0. simpl. field. }
  replace (0 + p) with p by ring. reflexivity.
Qed.

(** The errors of [merton_jump_analytical].  It raises [ZeroDivisionError]
    exactly when it makes at least one iteration with a zero maturity or a
    zero strike (a division of Python scalars by [T] or by [K]).  The only
    other error is the [OverflowError] of the division by [factorial(171)],
    which takes at least 172 iterations: with a non-zero maturity and strike
    and at most 171 iterations the function returns a value.  That error is
    reached: for positive spot, strike, maturity and volatility, with no
    jumps, a threshold that is not positive and not above the Black-Scholes
    price, and 172 iterations or more, no term stops the loop and the
    function raises [OverflowError]. *)
Theorem merton_jump_analytical_error_cases
        (norm_cdf : R -> R) (S K T r q sigma mu_j sigma_j lam : R)
        (call : bool) (max_iter : nat) (stop_cond : R) :
  (merton_jump_analytical norm_cdf S K T r q sigma mu_j sigma_j lam call max_iter stop_cond
   = Raise ZeroDivisionError <->
   (1 <= max_iter)%nat /\ (T = 0 \/ K = 0)) /\
  (forall e,
     merton_jump_analytical norm_cdf S K T r q sigma mu_j sigma_j lam call max_iter stop_cond
     = Raise e ->
     e = ZeroDivisionError \/ (e = OverflowError /\ (172 <= max_iter)%nat)) /\
  (T <> 0 -> K <> 0 -> (max_iter <= 171)%nat ->
   exists v,
     merton_jump_analytical norm_cdf S K T r q sigma mu_j sigma_j lam call max_iter stop_cond
     = Ok v) /\
  (0 < S -> 0 < K -> 0 < T -> 0 < sigma -> lam = 0 -> stop_cond <= 0 ->
   (exists p, bs_price norm_cdf S K T r q sigma call = Ok p /\ stop_cond <= p) ->
   (172 <= max_iter)%nat ->
   merton_jump_analytical norm_cdf S K T r q sigma mu_j sigma_j lam call max_iter stop_cond
   = Raise OverflowError).
Proof.
  unfold merton_jump_analytical.
  assert (Hzero : (1 <= max_iter)%nat -> T = 0 \/ K = 0 ->
                  merton_loop norm_cdf S K T r q sigma mu_j sigma_j lam call stop_cond
                              max_iter 0 0 = Raise ZeroDivisionError).
  { intros Hm HTK. destruct max_iter as [|fuel]; [lia|].
    cbn [merton_loop]. unfold pydiv.
    destruct (Req_dec_T T 0) as [_|HT]; [reflexivity|]. cbn [bind].
    destruct HTK as [E|E]; [contradiction|]. subst K.
    rewrite float_of_int_factorial. cbn [Nat.leb bind].
    rewrite bs_price_raises. reflexivity. }
  assert (Hcases : T = 0 \/ K = 0 \/ (T <> 0 /\ K <> 0)).
  { destruct (Req_dec_T T 0); [left; assumption|].
    destruct (Req_dec_T K 0); [right; left; assumption|]. right; right; split; assumption. }
  split; [|split; [|split]].
  - split.
    + intros H. destruct max_iter as [|fuel]; [discriminate H|].
      split; [lia|].
      destruct Hcases as [E|[E|[HT HK]]]; [left; exact E|right; exact E|].
      destruct (merton_loop_raises _ _ _ _ _ _ _ _ _ _ _ _ _ _ HT HK _ _ H) as [F _].
      discriminate F.
    + intros [Hm HTK]. apply Hzero; assumption.
  - intros e H. destruct Hcases as [E|[E|[HT HK]]].
    + left. destruct max_iter as [|fuel]; [discriminate H|].
      rewrite Hzero in H by (lia || (left; exact E)). congruence.
    + left. destruct max_iter as [|fuel]; [discriminate H|].
      rewrite Hzero in H by (lia || (right; exact E)). congruence.
    + right. destruct (merton_loop_raises _ _ _ _ _ _ _ _ _ _ _ _ _ _ HT HK _ _ H) as [He Hf].
      split; [exact He|lia].
  - intros HT HK Hm. apply merton_loop_ok; [assumption|assumption|lia].
  - intros _ HK HT Hs -> Hstop (p & Hp & Hle) Hm.
    assert (HT0 : T <> 0) by lra.
    assert (HK0 : K <> 0) by lra.
    destruct max_iter as [|fuel]; [lia|].
    rewrite (merton_first_term _ _ _ _ _ _ _ _ _ _ _ _ p HT0 (Rlt_le _ _ Hs) Hp).
    destruct (Rlt_dec p stop_cond) as [F|_]; [lra|].
    apply merton_loop_no_jumps_overflow; [assumption|assumption|assumption|lia|lia].
Qed.

Lemma symmetric_cdf_range (x : R) : 0 < symmetric_cdf x < 1.
Proof.
  unfold symmetric_cdf. pose proof (atan_bound x) as [Hlo Hhi]. pose proof PI_RGT_0 as HPI.
  assert (H1 : - (1 / 2) < atan x / PI).
  { apply (Rmult_lt_reg_r PI); [exact HPI|].
    unfold Rdiv. rewrite Rmult_assoc, Rinv_l by lra. lra. }
  assert (H2 : atan x / PI < 1 / 2).
  { apply (Rmult_lt_reg_r PI); [exact HPI|].
    unfold Rdiv at 1. rewrite Rmult_assoc, Rinv_l by lra. lra. }
  lra.
Qed.

Lemma merton_jump_analytical_error_cases_witness :
  0 < 1 /\ 0 < 1.1 /\ 0 < 1 /\ 0 < 0.4 /\ 0 = 0 /\ -2 <= 0 /\
  (exists p, bs_price symmetric_cdf 1 1.1 1 0.05 0.02 0.4 true = Ok p /\ -2 <= p) /\
  (172 <= 200)%nat /\
  merton_jump_analytical symmetric_cdf 1 1.1 1 0.05 0.02 0.4 (-0.1) 0.15 0 true 200 (-2)
  = Raise OverflowError.
Proof.
  assert (HT : 0 < 1) by lra.
  assert (HK : 0 < 1.1) by lra.
  assert (Hs : 0 < 0.4) by lra.
  assert (Hl : 0 = 0) by reflexivity.
  assert (Hstop : -2 <= 0) by lra.
  assert (Hm : (172 <= 200)%nat) by lia.
  assert (Hp : exists p, bs_price symmetric_cdf 1 1.1 1 0.05 0.02 0.4 true = Ok p /\ -2 <= p).
  { unfold bs_price, pydiv. destruct (Req_dec_T 1.1 0) as [E|_]; [lra|]. cbn [bind].
    eexists. split; [reflexivity|].
    match goal with |- _ <= 1 * ?e1 * symmetric_cdf ?a - 1.1 * ?e2 * symmetric_cdf ?b =>
      pose proof (symmetric_cdf_range a) as Ha; pose proof (symmetric_cdf_range b) as Hb;
      assert (He1 : 0 < e1) by apply exp_pos;
      assert (He2 : 0 < e2 <= 1)
        by (split; [apply exp_pos|apply exp_le_1; lra]);
      generalize dependent (symmetric_cdf a); generalize dependent (symmetric_cdf b);
      generalize dependent e1; generalize dependent e2 end.
    intros e2 He2 e1 He1 cb Hb ca Ha. nra. }
  split; [exact HT|]. split; [exact HK|]. split; [exact HT|]. split; [exact Hs|].
  split; [exact Hl|]. split; [exact Hstop|]. split; [exact Hp|]. split; [exact Hm|].
  exact (proj2 (proj2 (proj2
           (merton_jump_analytical_error_cases symmetric_cdf 1 1.1 1 0.05 0.02 0.4 (-0.1) 0.15
              0 true 200 (-2)))) HT HK HT Hs Hl Hstop Hp Hm).
Defined.

(** With no jumps ([lam = 0]), a positive threshold and at least one
    iteration, [merton_jump_analytical] returns the Black-Scholes price of
    [bs_price]: the first term is that price and the second term, zero, stops
    the loop. *)
Theorem merton_no_jumps_is_black_scholes
        (norm_cdf : R -> R) (S K T r q sigma mu_j sigma_j : R)
        (call : bool) (max_iter : nat) (stop_cond : R) :
  0 < S -> 0 < K -> 0 < T -> 0 < sigma -> 0 < stop_cond -> (1 <= max_iter)%nat ->
  exists p,
    bs_price norm_cdf S K T r q sigma call = Ok p /\
    merton_jump_analytical norm_cdf S K T r q sigma mu_j sigma_j 0 call max_iter stop_cond
    = Ok p.
Proof.
  intros HS HK HT Hs Hstop Hm.
  assert (HK0 : K <> 0) by lra.
  assert (HT0 : T <> 0) by lra.
  destruct (bs_price_ok norm_cdf S K T r q sigma call HK0) as [p Hp].
  exists p. split; [exact Hp|].
  unfold merton_jump_analytical.
  destruct max_iter as [|fuel]; [lia|].
  rewrite (merton_first_term _ _ _ _ _ _ _ _ _ _ _ _ p HT0 (Rlt_le _ _ Hs) Hp).
  destruct (Rlt_dec p stop_cond) as [_|_]; [reflexivity|].
  destruct fuel as [|fuel]; [reflexivity|].
  cbn [merton_loop]. unfold pydiv.
  destruct (Req_dec_T T 0) as [E|_]; [lra|]. cbn [bind].
  rewrite float_of_int_factorial. cbn [Nat.leb bind factorial].
  match goal with |- context [bs_price ?c ?s ?k' ?t ?r' ?q' ?sg ?cl] =>
    destruct (bs_price_ok c s k' t r' q' sg cl HK0) as [p1 ->] end.
  cbn [bind].
  match goal with |- context [Rlt_dec ?a stop_cond] =>
    assert (Hz : a = 0) end.
  { replace (exp (mu_j + 0.5 * sigma_j ^ 2) * 0 * T) with 0 by ring.
    rewrite pow_i by lia. unfold Rdiv. ring. }
  rewrite Hz.
  destruct (Rlt_dec 0 stop_cond) as [_|n]; [f_equal; ring|contradiction].
Qed.

Lemma merton_no_jumps_is_black_scholes_witness :
  0 < 1 /\ 0 < 1.1 /\ 0 < 1 /\ 0 < 0.4 /\ 0 < 1 / 1000 /\ (1 <= 100)%nat /\
  exists p,
    bs_price symmetric_cdf 1 1.1 1 0.05 0.02 0.4 true = Ok p /\
    merton_jump_analytical symmetric_cdf 1 1.1 1 0.05 0.02 0.4 (-0.1) 0.15 0 true
                           100 (1 / 1000) = Ok p.
Proof.
  assert (H1 : 0 < 1) by lra.
  assert (HK : 0 < 1.1) by lra.
  assert (Hs : 0 < 0.4) by lra.
  assert (Hc : 0 < 1 / 1000) by lra.
  assert (Hm : (1 <= 100)%nat) by lia.
  split; [exact H1|]. split; [exact HK|]. split; [exact H1|]. split; [exact Hs|].
  split; [exact Hc|]. split; [exact Hm|].
  exact (merton_no_jumps_is_black_scholes symmetric_cdf 1 1.1 1 0.05 0.02 0.4 (-0.1) 0.15
           true 100 (1 / 1000) H1 HK H1 Hs Hc Hm).
Defined.

(** ** Barrier options *)

Lemma exp_ge_1 (x : R) : 0 <= x -> 1 <= exp x.
Proof.
  intros [Hlt|Heq].
  - left. pose proof (exp_increasing 0 x Hlt) as H. rewrite exp_0 in H. exact H.
  - rewrite <- Heq, exp_0. lra.
Qed.

(** The barrier adjustment for discrete monitoring moves a positive barrier
    away from the spot [S0] and never across it: up when the barrier is above
    the spot, down when it is below, not at all when they coincide or when
    [n_obs] is not positive. *)
Theorem adjusted_barrier_moves_away (H S0 sigma T : R) (n_obs : Z) :
  0 < H -> 0 <= sigma -> 0 <= T ->
  0 < adjusted_barrier H S0 sigma T n_obs /\
  (S0 < H -> H <= adjusted_barrier H S0 sigma T n_obs) /\
  (H < S0 -> adjusted_barrier H S0 sigma T n_obs <= H) /\
  (H = S0 -> adjusted_barrier H S0 sigma T n_obs = H) /\
  ((n_obs <= 0)%Z -> adjusted_barrier H S0 sigma T n_obs = H).
Proof.
  intros HH Hs _. unfold adjusted_barrier.
  pose proof (sqrt_pos (T / IZR n_obs)) as Hq.
  destruct (0 <? n_obs)%Z eqn:B.
  - apply Z.ltb_lt in B.
    set (e := 0.5826 * sigma * sqrt (T / IZR n_obs)).
    assert (He : 0 <= e) by (unfold e; apply Rmult_le_pos; [lra|exact Hq]).
    replace (sign (H - S0) * 0.5826 * sigma * sqrt (T / IZR n_obs))
      with (sign (H - S0) * e) by (unfold e; ring).
    split; [apply Rmult_lt_0_compat; [exact HH|apply exp_pos]|].
    unfold sign. split; [|split; [|split]].
    + intros Hlt. destruct (Rlt_dec (H - S0) 0) as [F|_]; [lra|].
      destruct (Rlt_dec 0 (H - S0)) as [_|F]; [|lra].
      pose proof (exp_ge_1 (1 * e) ltac:(lra)). nra.
    + intros Hlt. destruct (Rlt_dec (H - S0) 0) as [_|F]; [|lra].
      pose proof (exp_le_1 (-1 * e) ltac:(lra)). pose proof (exp_pos (-1 * e)). nra.
    + intros Heq. destruct (Rlt_dec (H - S0) 0) as [F|_]; [lra|].
      destruct (Rlt_dec 0 (H - S0)) as [F|_]; [lra|].
      rewrite Rmult_0_l, exp_0. ring.
    + intros Hn. lia.
  - split; [exact HH|]. split; [lra|]. split; [lra|]. split; reflexivity.
Qed.

Lemma adjusted_barrier_moves_away_witness :
  0 < 70 /\ 0 <= 0.3 /\ 0 <= 1 /\
  0 < adjusted_barrier 70 50 0.3 1 250 /\
  (50 < 70 -> 70 <= adjusted_barrier 70 50 0.3 1 250) /\
  (70 < 50 -> adjusted_barrier 70 50 0.3 1 250 <= 70) /\
  (70 = 50 -> adjusted_barrier 70 50 0.3 1 250 = 70) /\
  ((250 <= 0)%Z -> adjusted_barrier 70 50 0.3 1 250 = 70).
Proof.
  assert (HH : 0 < 70) by lra.
  assert (Hs : 0 <= 0.3) by lra.
  assert (HT : 0 <= 1) by lra.
  split; [exact HH|]. split; [exact Hs|]. split; [exact HT|].
  exact (adjusted_barrier_moves_away 70 50 0.3 1 250 HH Hs HT).
Defined.

Lemma adjusted_barrier_pos (H S0 sigma T : R) (n_obs : Z) :
  0 < H -> 0 < adjusted_barrier H S0 sigma T n_obs.
Proof.
  intros HH. unfold adjusted_barrier.
  destruct (0 <? n_obs)%Z; [|exact HH].
  apply Rmult_lt_0_compat; [exact HH|apply exp_pos].
Qed.

(** In every branch of [barrier_values] the knock-in and the knock-out
    prices add up to the vanilla prices. *)
Lemma barrier_values_parity (norm_cdf : R -> R)
      (S K H tau r q sigma sk gamma pw1 pw2 : R) :
  let b := barrier_values norm_cdf S K H tau r q sigma sk gamma pw1 pw2 in
  let d1 := (ln sk + (r - q + 0.5 * sigma ^ 2) * tau) / (sigma * sqrt tau) in
  let d2 := (ln sk + (r - q - 0.5 * sigma ^ 2) * tau) / (sigma * sqrt tau) in
  let C := S * exp (- q * tau) * norm_cdf d1 - K * exp (- r * tau) * norm_cdf d2 in
  let P := K * exp (- r * tau) * norm_cdf (- d2) - S * exp (- q * tau) * norm_cdf (- d1) in
  C_di b + C_do b = C /\ C_ui b + C_uo b = C /\
  P_di b + P_do b = P /\ P_ui b + P_uo b = P.
Proof.
  cbv zeta. unfold barrier_values.
  destruct (Rlt_dec H K).
  - cbn [C_di C_do C_ui C_uo P_di P_do P_ui P_uo].
    destruct (Rle_dec H S); (split; [ring|split; [ring|split; ring]]).
  - cbn [C_di C_do C_ui C_uo P_di P_do P_ui P_uo].
    destruct (Rge_dec H S); (split; [ring|split; [ring|split; ring]]).
Qed.

(** The two vanilla prices inside [barrier_analytical] are those of
    [bs_price] for the time to maturity. *)
Lemma barrier_vanilla_is_bs_price (norm_cdf : R -> R) (S K tau r q sigma : R) (call : bool) :
  K <> 0 -> 0 < sigma -> 0 < tau ->
  let d1 := (ln (S / K) + (r - q + 0.5 * sigma ^ 2) * tau) / (sigma * sqrt tau) in
  let d2 := (ln (S / K) + (r - q - 0.5 * sigma ^ 2) * tau) / (sigma * sqrt tau) in
  bs_price norm_cdf S K tau r q sigma call
  = Ok (if call
        then S * exp (- q * tau) * norm_cdf d1 - K * exp (- r * tau) * norm_cdf d2
        else K * exp (- r * tau) * norm_cdf (- d2) - S * exp (- q * tau) * norm_cdf (- d1)).
Proof.
  intros HK Hs Htau. cbv zeta.
  assert (Hsq : 0 < sqrt tau) by (apply sqrt_lt_R0; exact Htau).
  assert (Hsqsq : sqrt tau * sqrt tau = tau) by (apply sqrt_sqrt; lra).
  assert (Hd1 : (ln (S / K) + (r - q + 0.5 * sigma ^ 2) * tau) / (sigma * sqrt tau)
                = (ln (S / K) + (r - q + sigma ^ 2 / 2) * tau) / (sigma * sqrt tau)).
  { rewrite half_eq. f_equal. field. }
  assert (Hd2 : (ln (S / K) + (r - q - 0.5 * sigma ^ 2) * tau) / (sigma * sqrt tau)
                = (ln (S / K) + (r - q + sigma ^ 2 / 2) * tau) / (sigma * sqrt tau)
                  - sigma * sqrt tau).
  { rewrite half_eq.
    replace ((r - q - 1 / 2 * sigma ^ 2) * tau)
      with ((r - q + sigma ^ 2 / 2) * tau - sigma ^ 2 * (sqrt tau * sqrt tau))
      by (rewrite Hsqsq; field).
    field. split; lra. }
  rewrite Hd1, Hd2. unfold bs_price, pydiv.
  destruct (Req_dec_T K 0) as [E|_]; [contradiction|]. cbn [bind].
  destruct call; reflexivity.
Qed.

(** In-out parity of [barrier_analytical], for positive spot, strike, barrier
    and volatility and a positive time to maturity.  When the two powers of
    [H/S] fit in a float the function returns, and in every branch the
    knock-in and the knock-out prices add up to the vanilla price, which is
    the Black-Scholes price that [bs_price] gives for the time to maturity.
    When one of them does not fit, the function raises [OverflowError] with
    the barrier as given ([n_obs <= 0]), and goes on with an infinite power
    with the adjusted barrier ([n_obs > 0]). *)
Theorem barrier_in_out_parity
        (norm_cdf : R -> R) (S0 S K H T r q sigma t : R) (n_obs : Z) :
  0 < S -> 0 < K -> 0 < H -> 0 < sigma -> 0 <= t < T ->
  let Hb := adjusted_barrier H S0 sigma T n_obs in
  let gamma := (r - q + 0.5 * sigma ^ 2) / sigma ^ 2 in
  let fits := Rpower (Hb / S) (2 * gamma) < float_overflow /\
              Rpower (Hb / S) (2 * gamma - 2) < float_overflow in
  (fits ->
   exists b c p,
     barrier_analytical norm_cdf S0 S K H T r q sigma t n_obs = Ok (Some b) /\
     bs_price norm_cdf S K (T - t) r q sigma true = Ok c /\
     bs_price norm_cdf S K (T - t) r q sigma false = Ok p /\
     C_di b + C_do b = c /\ C_ui b + C_uo b = c /\
     P_di b + P_do b = p /\ P_ui b + P_uo b = p) /\
  (~ fits -> (n_obs <= 0)%Z ->
   barrier_analytical norm_cdf S0 S K H T r q sigma t n_obs = Raise OverflowError) /\
  (~ fits -> (0 < n_obs)%Z ->
   barrier_analytical norm_cdf S0 S K H T r q sigma t n_obs = Ok None).
Proof.
  intros HS HK HH Hs Ht Hb gamma fits.
  assert (Htau : 0 < T - t) by lra.
  assert (HK0 : K <> 0) by lra.
  assert (HHb : 0 < Hb) by (apply adjusted_barrier_pos; exact HH).
  assert (Hhs : 0 < Hb / S) by (apply Rdiv_lt_0_compat; assumption).
  assert (Hsk : 0 < S / K) by (apply Rdiv_lt_0_compat; assumption).
  assert (HSK : S * K <> 0) by (apply Rgt_not_eq; apply Rmult_lt_0_compat; assumption).
  assert (Hrun :
    barrier_analytical norm_cdf S0 S K H T r q sigma t n_obs =
    if (0 <? n_obs)%Z then
      if Rlt_dec (Rpower (Hb / S) (2 * gamma)) float_overflow then
        if Rlt_dec (Rpower (Hb / S) (2 * gamma - 2)) float_overflow then
          Ok (Some (barrier_values norm_cdf S K Hb (T - t) r q sigma (S / K) gamma
                      (Rpower (Hb / S) (2 * gamma)) (Rpower (Hb / S) (2 * gamma - 2))))
        else Ok None
      else Ok None
    else
      if Rlt_dec (Rpower (Hb / S) (2 * gamma)) float_overflow then
        if Rlt_dec (Rpower (Hb / S) (2 * gamma - 2)) float_overflow then
          Ok (Some (barrier_values norm_cdf S K Hb (T - t) r q sigma (S / K) gamma
                      (Rpower (Hb / S) (2 * gamma)) (Rpower (Hb / S) (2 * gamma - 2))))
        else Raise OverflowError
      else Raise OverflowError).
  { unfold barrier_analytical, pydiv, pypow. fold Hb.
    destruct (Req_dec_T K 0) as [E|_]; [lra|]. cbn [bind].
    destruct (Req_dec_T (sigma ^ 2) 0) as [E|_].
    { exfalso. revert E. apply sqr_nonzero. lra. }
    cbn [bind]. fold gamma.
    destruct (0 <? n_obs)%Z.
    - destruct (Rlt_dec T 0) as [F|_]; [lra|].
      destruct (Rlt_dec 0 (Hb / S)) as [_|F]; [|contradiction].
      destruct (Rlt_dec (Rpower (Hb / S) (2 * gamma)) float_overflow); [|reflexivity].
      destruct (Rlt_dec (Rpower (Hb / S) (2 * gamma - 2)) float_overflow); [|reflexivity].
      destruct (Rlt_dec 0 (S / K)) as [_|F]; [|contradiction].
      destruct (Rlt_dec 0 (T - t)) as [_|F]; [|contradiction].
      reflexivity.
    - destruct (Req_dec_T (S * K) 0) as [E|_]; [contradiction|]. cbn [bind].
      destruct (Req_dec_T Hb 0) as [E|_]; [lra|]. cbn [bind].
      destruct (Req_dec_T S 0) as [E|_]; [lra|]. cbn [bind].
      destruct (Rlt_dec 0 (Hb / S)) as [_|F]; [|contradiction].
      destruct (Rlt_dec (Rpower (Hb / S) (2 * gamma)) float_overflow); [|reflexivity].
      cbn [bind].
      destruct (Rlt_dec (Rpower (Hb / S) (2 * gamma - 2)) float_overflow); [|reflexivity].
      cbn [bind].
      destruct (Rlt_dec 0 (S / K)) as [_|F]; [|contradiction].
      destruct (Rlt_dec 0 (T - t)) as [_|F]; [|contradiction].
      reflexivity. }
  split; [|split].
  - intros [H1 H2].
    destruct (Rlt_dec (Rpower (Hb / S) (2 * gamma)) float_overflow) as [_|F];
      [|contradiction].
    destruct (Rlt_dec (Rpower (Hb / S) (2 * gamma - 2)) float_overflow) as [_|F];
      [|contradiction].
    eexists. do 2 eexists.
    split; [rewrite Hrun; destruct (0 <? n_obs)%Z; reflexivity|].
    split; [apply barrier_vanilla_is_bs_price; assumption|].
    split; [apply barrier_vanilla_is_bs_price; assumption|].
    apply barrier_values_parity.
  - intros Hn Hobs. rewrite Hrun.
    destruct (Z.ltb_spec 0 n_obs) as [F|_]; [lia|].
    destruct (Rlt_dec (Rpower (Hb / S) (2 * gamma)) float_overflow) as [H1|_];
      [|reflexivity].
    destruct (Rlt_dec (Rpower (Hb / S) (2 * gamma - 2)) float_overflow) as [H2|_];
      [|reflexivity].
    exfalso. apply Hn. split; assumption.
  - intros Hn Hobs. rewrite Hrun.
    destruct (Z.ltb_spec 0 n_obs) as [_|F]; [|lia].
    destruct (Rlt_dec (Rpower (Hb / S) (2 * gamma)) float_overflow) as [H1|_];
      [|reflexivity].
    destruct (Rlt_dec (Rpower (Hb / S) (2 * gamma - 2)) float_overflow) as [H2|_];
      [|reflexivity].
    exfalso. apply Hn. split; assumption.
Qed.

Lemma float_overflow_gt_2 : 2 < float_overflow.
Proof.
  unfold float_overflow. apply IZR_lt. vm_compute. reflexivity.
Qed.

Lemma barrier_in_out_parity_witness :
  0 < 50 /\ 0 < 60 /\ 0 < 70 /\ 0 < 0.3 /\ 0 <= 0 < 1 /\
  (Rpower (adjusted_barrier 70 50 0.3 1 (-1) / 50)
          (2 * ((0.04 - 0.02 + 0.5 * 0.3 ^ 2) / 0.3 ^ 2)) < float_overflow /\
   Rpower (adjusted_barrier 70 50 0.3 1 (-1) / 50)
          (2 * ((0.04 - 0.02 + 0.5 * 0.3 ^ 2) / 0.3 ^ 2) - 2) < float_overflow) /\
  exists b c p,
    barrier_analytical symmetric_cdf 50 50 60 70 1 0.04 0.02 0.3 0 (-1) = Ok (Some b) /\
    bs_price symmetric_cdf 50 60 (1 - 0) 0.04 0.02 0.3 true = Ok c /\
    bs_price symmetric_cdf 50 60 (1 - 0) 0.04 0.02 0.3 false = Ok p /\
    C_di b + C_do b = c /\ C_ui b + C_uo b = c /\
    P_di b + P_do b = p /\ P_ui b + P_uo b = p.
Proof.
  assert (HS : 0 < 50) by lra.
  assert (HK : 0 < 60) by lra.
  assert (HH : 0 < 70) by lra.
  assert (Hs : 0 < 0.3) by lra.
  assert (Ht : 0 <= 0 < 1) by lra.
  assert (Hfits :
    Rpower (adjusted_barrier 70 50 0.3 1 (-1) / 50)
           (2 * ((0.04 - 0.02 + 0.5 * 0.3 ^ 2) / 0.3 ^ 2)) < float_overflow /\
    Rpower (adjusted_barrier 70 50 0.3 1 (-1) / 50)
           (2 * ((0.04 - 0.02 + 0.5 * 0.3 ^ 2) / 0.3 ^ 2) - 2) < float_overflow).
  { change (adjusted_barrier 70 50 0.3 1 (-1)) with 70.
    pose proof float_overflow_gt_2 as Hbig.
    assert (Hb1 : 1 <= 70 / 50) by lra.
    assert (Hb0 : 0 < 70 / 50) by lra.
    assert (Hg : 2 * ((0.04 - 0.02 + 0.5 * 0.3 ^ 2) / 0.3 ^ 2) <= 2) by lra.
    split.
    - apply Rle_lt_trans with (Rpower (70 / 50) (INR 2)).
      + apply Rle_Rpower; [exact Hb1|]. simpl INR. lra.
      + rewrite Rpower_pow by exact Hb0. lra.
    - apply Rle_lt_trans with (Rpower (70 / 50) 0).
      + apply Rle_Rpower; [exact Hb1|]. lra.
      + rewrite Rpower_O by exact Hb0. lra. }
  split; [exact HS|]. split; [exact HK|]. split; [exact HH|]. split; [exact Hs|].
  split; [exact Ht|]. split; [exact Hfits|].
  exact (proj1 (barrier_in_out_parity symmetric_cdf 50 50 60 70 1 0.04 0.02 0.3 0 (-1)
                  HS HK HH Hs Ht) Hfits).
Defined.

(** ** Monte Carlo estimates *)

Lemma Rsum_map_plus {A : Type} (f g : A -> R) (l : list A) :
  Rsum (map (fun a => f a + g a) l) = Rsum (map f l) + Rsum (map g l).
Proof.
  induction l as [|a l IH]; cbn [map Rsum fold_right].
  - ring.
  - unfold Rsum in IH. rewrite IH. ring.
Qed.

Lemma Rsum_map_ext {A : Type} (f g : A -> R) (l : list A) :
  (forall a, In a l -> f a = g a) -> Rsum (map f l) = Rsum (map g l).
Proof.
  induction l as [|a l IH]; intros H; cbn [map Rsum fold_right]; [reflexivity|].
  unfold Rsum in IH. rewrite IH, (H a) by (intros; try apply H; simpl; auto).
  reflexivity.
Qed.

Lemma Rsum_nonneg (l : list R) : (forall v, In v l -> 0 <= v) -> 0 <= Rsum l.
Proof.
  induction l as [|a l IH]; intros H; cbn [Rsum fold_right]; [lra|].
  pose proof (H a (or_introl eq_refl)).
  assert (0 <= Rsum l) by (apply IH; intros; apply H; simpl; auto).
  unfold Rsum in *. lra.
Qed.

Lemma mean_map_plus {A : Type} (f g : A -> R) (l : list A) :
  mean (map (fun a => f a + g a) l) = mean (map f l) + mean (map g l).
Proof.
  unfold mean. rewrite Rsum_map_plus, !length_map. unfold Rdiv. ring.
Qed.

Lemma mean_map_ext {A : Type} (f g : A -> R) (l : list A) :
  (forall a, In a l -> f a = g a) -> mean (map f l) = mean (map g l).
Proof.
  intros H. unfold mean. rewrite (Rsum_map_ext f g l H), !length_map. reflexivity.
Qed.


Lemma mean_nonneg (l : list R) : (forall v, In v l -> 0 <= v) -> 0 <= mean l.
Proof.
  intros H. unfold mean. pose proof (Rsum_nonneg l H) as Hs.
  destruct l as [|a l].
  - cbn [Rsum fold_right length INR]. unfold Rdiv. rewrite Rmult_0_l. lra.
  - apply Rmult_le_pos; [exact Hs|].
    left. apply Rinv_0_lt_compat. apply lt_0_INR. simpl. lia.
Qed.

Lemma mean_map_zero {A : Type} (f : A -> R) (l : list A) :
  (forall a, In a l -> f a = 0) -> mean (map f l) = 0.
Proof.
  intros H. rewrite (mean_map_ext f (fun _ => 0) l H).
  unfold mean. replace (Rsum (map (fun _ : A => 0) l)) with 0.
  - unfold Rdiv. ring.
  - induction l as [|a l IH]; cbn [map Rsum fold_right]; [reflexivity|].
    unfold Rsum in IH. rewrite <- IH by (intros; apply H; simpl; auto). ring.
Qed.

Lemma mc_estimate_plus (r T : R) (blocks : list (list (list R))) (v w : list R -> R) :
  mc_estimate r T blocks (fun row => v row + w row)
  = mc_estimate r T blocks v + mc_estimate r T blocks w.
Proof.
  unfold mc_estimate. rewrite <- mean_map_plus. apply mean_map_ext.
  intros rows _. rewrite mean_map_plus. ring.
Qed.

Lemma mc_estimate_ext (r T : R) (blocks : list (list (list R))) (v w : list R -> R) :
  (forall rows row, In rows blocks -> In row rows -> v row = w row) ->
  mc_estimate r T blocks v = mc_estimate r T blocks w.
Proof.
  intros H. unfold mc_estimate. apply mean_map_ext. intros rows Hin.
  f_equal. apply mean_map_ext. intros row Hrow. exact (H rows row Hin Hrow).
Qed.

Lemma mc_estimate_zero (r T : R) (blocks : list (list (list R))) (v : list R -> R) :
  (forall rows row, In rows blocks -> In row rows -> v row = 0) ->
  mc_estimate r T blocks v = 0.
Proof.
  intros H. unfold mc_estimate. apply mean_map_zero. intros rows Hin.
  rewrite mean_map_zero; [ring|]. intros row Hrow. exact (H rows row Hin Hrow).
Qed.

Lemma mc_estimate_nonneg (r T : R) (blocks : list (list (list R))) (v : list R -> R) :
  (forall rows row, In rows blocks -> In row rows -> 0 <= v row) ->
  0 <= mc_estimate r T blocks v.
Proof.
  intros H. unfold mc_estimate. apply mean_nonneg. intros x Hx.
  apply in_map_iff in Hx. destruct Hx as [rows [<- Hin]].
  apply Rmult_le_pos; [left; apply exp_pos|].
  apply mean_nonneg. intros y Hy. apply in_map_iff in Hy.
  destruct Hy as [row [<- Hrow]]. exact (H rows row Hin Hrow).
Qed.

Lemma mask_cases (cond : R -> bool) (row : list R) :
  (mask cond row = 1 /\ exists s, In s row /\ cond s = true) \/
  (mask cond row = 0 /\ forall s, In s row -> cond s = false).
Proof.
  unfold mask. destruct (filter cond row) as [|s l] eqn:E.
  - right. split; [reflexivity|]. intros s Hs.
    destruct (cond s) eqn:Es; [|reflexivity].
    assert (Hin : In s (filter cond row)) by (apply filter_In; split; assumption).
    rewrite E in Hin. destruct Hin.
  - left. split; [reflexivity|]. exists s.
    assert (Hin : In s (filter cond row)) by (rewrite E; left; reflexivity).
    apply filter_In in Hin. exact Hin.
Qed.

Lemma mask_range (cond : R -> bool) (row : list R) : 0 <= mask cond row <= 1.
Proof. destruct (mask_cases cond row) as [[-> _]|[-> _]]; lra. Qed.

Lemma mask_hit (cond : R -> bool) (row : list R) (s : R) :
  In s row -> cond s = true -> mask cond row = 1.
Proof.
  intros Hin Hs. destruct (mask_cases cond row) as [[E _]|[_ Hno]]; [exact E|].
  rewrite (Hno s Hin) in Hs. discriminate.
Qed.

Lemma mc_path_head (S0 r q sigma dt : R) (z : list R) :
  In S0 (mc_path S0 r q sigma dt z).
Proof.
  unfold mc_path. cbn [map]. left. rewrite exp_0. ring.
Qed.

Lemma in_mc_blocks (normal : nat -> nat -> nat -> R) (S0 r q sigma dt : R)
      (nblocks nsample nsteps : nat) (rows : list (list R)) (row : list R) :
  In rows (map (mc_paths normal S0 r q sigma dt nsample nsteps) (seq 0 nblocks)) ->
  In row rows -> exists z, row = mc_path S0 r q sigma dt z.
Proof.
  intros Hrows Hrow. apply in_map_iff in Hrows. destruct Hrows as [i [<- _]].
  unfold mc_paths in Hrow. apply in_map_iff in Hrow. destruct Hrow as [j [<- _]].
  eexists. reflexivity.
Qed.

Lemma payoffs_nonneg (K : R) (row : list R) :
  0 <= call_payoff K row /\ 0 <= put_payoff K row.
Proof. unfold call_payoff, put_payoff. split; apply Rmax_r. Qed.

Lemma barrier_mc_ok (normal : nat -> nat -> nat -> R)
      (S0 S K H T r q sigma : R) (nblocks nsample nsteps : nat) (cts : bool) :
  (1 <= nsteps)%nat ->
  let dt := T / INR nsteps in
  let Hb := mc_barrier H S0 sigma dt cts in
  let blocks := map (mc_paths normal S0 r q sigma dt nsample nsteps) (seq 0 nblocks) in
  barrier_mc normal S0 S K H T r q sigma nblocks nsample nsteps cts
  = Ok (mkBarrierPrices
          (mc_estimate r T blocks (fun row => call_payoff K row * mask_d Hb row))
          (mc_estimate r T blocks (fun row => call_payoff K row * (1 - mask_d Hb row)))
          (mc_estimate r T blocks (fun row => call_payoff K row * mask_u Hb row))
          (mc_estimate r T blocks (fun row => call_payoff K row * (1 - mask_u Hb row)))
          (mc_estimate r T blocks (fun row => put_payoff K row * mask_d Hb row))
          (mc_estimate r T blocks (fun row => put_payoff K row * (1 - mask_d Hb row)))
          (mc_estimate r T blocks (fun row => put_payoff K row * mask_u Hb row))
          (mc_estimate r T blocks (fun row => put_payoff K row * (1 - mask_u Hb row)))).
Proof.
  intros Hn. unfold barrier_mc, pydiv.
  destruct (Req_dec_T (INR nsteps) 0) as [E|_].
  - exfalso. apply (not_0_INR nsteps); [lia|exact E].
  - reflexivity.
Qed.

Lemma in_out_sum (r T : R) (blocks : list (list (list R))) (v m : list R -> R) :
  mc_estimate r T blocks (fun row => v row * m row)
  + mc_estimate r T blocks (fun row => v row * (1 - m row))
  = mc_estimate r T blocks v.
Proof.
  rewrite <- mc_estimate_plus. apply mc_estimate_ext. intros; ring.
Qed.

(** In-out parity of the Monte Carlo estimates: whatever the normal draws,
    for at least one block, one path per block and one time step, the
    knock-in and the knock-out estimate of [barrier_mc] add up to the
    estimate of the vanilla option on the same paths, for the up and for
    the down barrier, for calls and for puts. *)
Theorem barrier_mc_in_out_parity (normal : nat -> nat -> nat -> R)
        (S0 S K H T r q sigma : R) (nblocks nsample nsteps : nat) (cts : bool) :
  0 <= T -> (1 <= nblocks)%nat -> (1 <= nsample)%nat -> (1 <= nsteps)%nat ->
  exists b,
    barrier_mc normal S0 S K H T r q sigma nblocks nsample nsteps cts = Ok b /\
    let blocks :=
      map (mc_paths normal S0 r q sigma (T / INR nsteps) nsample nsteps) (seq 0 nblocks) in
    C_ui b + C_uo b = mc_estimate r T blocks (call_payoff K) /\
    C_di b + C_do b = mc_estimate r T blocks (call_payoff K) /\
    P_ui b + P_uo b = mc_estimate r T blocks (put_payoff K) /\
    P_di b + P_do b = mc_estimate r T blocks (put_payoff K).
Proof.
  intros _ _ _ Hn. eexists. split; [apply barrier_mc_ok; exact Hn|].
  cbn [C_di C_do C_ui C_uo P_di P_do P_ui P_uo].
  split; [apply in_out_sum|]. split; [apply in_out_sum|].
  split; apply in_out_sum.
Qed.

Lemma barrier_mc_in_out_parity_witness :
  0 <= 1 /\ (1 <= 2)%nat /\ (1 <= 3)%nat /\ (1 <= 4)%nat /\
  exists b,
    barrier_mc (fun i j k => INR (i + j + k) - 3) 50 50 60 70 1 0.04 0.02 0.3 2 3 4 true
    = Ok b /\
    let blocks :=
      map (mc_paths (fun i j k => INR (i + j + k) - 3) 50 0.04 0.02 0.3 (1 / INR 4) 3 4)
          (seq 0 2) in
    C_ui b + C_uo b = mc_estimate 0.04 1 blocks (call_payoff 60) /\
    C_di b + C_do b = mc_estimate 0.04 1 blocks (call_payoff 60) /\
    P_ui b + P_uo b = mc_estimate 0.04 1 blocks (put_payoff 60) /\
    P_di b + P_do b = mc_estimate 0.04 1 blocks (put_payoff 60).
Proof.
  assert (H2 : (1 <= 2)%nat) by lia.
  assert (H3 : (1 <= 3)%nat) by lia.
  assert (H4 : (1 <= 4)%nat) by lia.
  assert (HT : 0 <= 1) by lra.
  split; [exact HT|]. split; [exact H2|]. split; [exact H3|]. split; [exact H4|].
  exact (barrier_mc_in_out_parity (fun i j k => INR (i + j + k) - 3)
           50 50 60 70 1 0.04 0.02 0.3 2 3 4 true HT H2 H3 H4).
Defined.

(** Every row of [barrier_mc] starts at the spot [S0], and the starting
    point counts as an observation.  So when the barrier in use is at or
    above the spot, every path has touched it from below: the down-and-out
    estimates are 0 and the down-and-in estimates are the vanilla ones.
    When it is at or below the spot the same holds for the up barrier. *)
Theorem barrier_mc_spot_beyond_barrier (normal : nat -> nat -> nat -> R)
        (S0 S K H T r q sigma : R) (nblocks nsample nsteps : nat) (cts : bool) :
  0 <= T -> (1 <= nblocks)%nat -> (1 <= nsample)%nat -> (1 <= nsteps)%nat ->
  exists b,
    barrier_mc normal S0 S K H T r q sigma nblocks nsample nsteps cts = Ok b /\
    let dt := T / INR nsteps in
    let blocks := map (mc_paths normal S0 r q sigma dt nsample nsteps) (seq 0 nblocks) in
    (S0 <= mc_barrier H S0 sigma dt cts ->
     C_do b = 0 /\ P_do b = 0 /\
     C_di b = mc_estimate r T blocks (call_payoff K) /\
     P_di b = mc_estimate r T blocks (put_payoff K)) /\
    (mc_barrier H S0 sigma dt cts <= S0 ->
     C_uo b = 0 /\ P_uo b = 0 /\
     C_ui b = mc_estimate r T blocks (call_payoff K) /\
     P_ui b = mc_estimate r T blocks (put_payoff K)).
Proof.
  intros _ _ _ Hn. eexists. split; [apply barrier_mc_ok; exact Hn|].
  cbn [C_di C_do C_ui C_uo P_di P_do P_ui P_uo]. cbv zeta.
  set (dt := T / INR nsteps). set (Hb := mc_barrier H S0 sigma dt cts).
  split.
  - intros Hle.
    assert (Hm : forall rows row,
               In rows (map (mc_paths normal S0 r q sigma dt nsample nsteps) (seq 0 nblocks)) ->
               In row rows -> mask_d Hb row = 1).
    { intros rows row Hrows Hrow.
      destruct (in_mc_blocks _ _ _ _ _ _ _ _ _ _ _ Hrows Hrow) as [z ->].
      apply (mask_hit _ _ S0); [apply mc_path_head|].
      destruct (Rle_dec S0 Hb) as [_|F]; [reflexivity|contradiction]. }
    split; [|split; [|split]].
    + apply mc_estimate_zero. intros rows row Hrows Hrow.
      rewrite (Hm rows row Hrows Hrow). ring.
    + apply mc_estimate_zero. intros rows row Hrows Hrow.
      rewrite (Hm rows row Hrows Hrow). ring.
    + apply mc_estimate_ext. intros rows row Hrows Hrow.
      rewrite (Hm rows row Hrows Hrow). ring.
    + apply mc_estimate_ext. intros rows row Hrows Hrow.
      rewrite (Hm rows row Hrows Hrow). ring.
  - intros Hle.
    assert (Hm : forall rows row,
               In rows (map (mc_paths normal S0 r q sigma dt nsample nsteps) (seq 0 nblocks)) ->
               In row rows -> mask_u Hb row = 1).
    { intros rows row Hrows Hrow.
      destruct (in_mc_blocks _ _ _ _ _ _ _ _ _ _ _ Hrows Hrow) as [z ->].
      apply (mask_hit _ _ S0); [apply mc_path_head|].
      destruct (Rge_dec S0 Hb) as [_|F]; [reflexivity|]. exfalso. apply F. lra. }
    split; [|split; [|split]].
    + apply mc_estimate_zero. intros rows row Hrows Hrow.
      rewrite (Hm rows row Hrows Hrow). ring.
    + apply mc_estimate_zero. intros rows row Hrows Hrow.
      rewrite (Hm rows row Hrows Hrow). ring.
    + apply mc_estimate_ext. intros rows row Hrows Hrow.
      rewrite (Hm rows row Hrows Hrow). ring.
    + apply mc_estimate_ext. intros rows row Hrows Hrow.
      rewrite (Hm rows row Hrows Hrow). ring.
Qed.

Lemma barrier_mc_spot_beyond_barrier_witness :
  0 <= 1 /\ (1 <= 2)%nat /\ (1 <= 3)%nat /\ (1 <= 4)%nat /\
  exists b,
    barrier_mc (fun i j k => INR (i + j + k) - 3) 50 50 60 70 1 0.04 0.02 0.3 2 3 4 false
    = Ok b /\
    let dt := 1 / INR 4 in
    let blocks :=
      map (mc_paths (fun i j k => INR (i + j + k) - 3) 50 0.04 0.02 0.3 dt 3 4) (seq 0 2) in
    (50 <= mc_barrier 70 50 0.3 dt false ->
     C_do b = 0 /\ P_do b = 0 /\
     C_di b = mc_estimate 0.04 1 blocks (call_payoff 60) /\
     P_di b = mc_estimate 0.04 1 blocks (put_payoff 60)) /\
    (mc_barrier 70 50 0.3 dt false <= 50 ->
     C_uo b = 0 /\ P_uo b = 0 /\
     C_ui b = mc_estimate 0.04 1 blocks (call_payoff 60) /\
     P_ui b = mc_estimate 0.04 1 blocks (put_payoff 60)).
Proof.
  assert (H2 : (1 <= 2)%nat) by lia.
  assert (H3 : (1 <= 3)%nat) by lia.
  assert (H4 : (1 <= 4)%nat) by lia.
  assert (HT : 0 <= 1) by lra.
  split; [exact HT|]. split; [exact H2|]. split; [exact H3|]. split; [exact H4|].
  exact (barrier_mc_spot_beyond_barrier (fun i j k => INR (i + j + k) - 3)
           50 50 60 70 1 0.04 0.02 0.3 2 3 4 false HT H2 H3 H4).
Defined.

(** The eight estimates of [barrier_mc] are non-negative, whatever the
    draws and the parameters. *)
Theorem barrier_mc_nonnegative (normal : nat -> nat -> nat -> R)
        (S0 S K H T r q sigma : R) (nblocks nsample nsteps : nat) (cts : bool) :
  0 <= T -> (1 <= nblocks)%nat -> (1 <= nsample)%nat -> (1 <= nsteps)%nat ->
  exists b,
    barrier_mc normal S0 S K H T r q sigma nblocks nsample nsteps cts = Ok b /\
    0 <= C_di b /\ 0 <= C_do b /\ 0 <= C_ui b /\ 0 <= C_uo b /\
    0 <= P_di b /\ 0 <= P_do b /\ 0 <= P_ui b /\ 0 <= P_uo b.
Proof.
  intros _ _ _ Hn. eexists. split; [apply barrier_mc_ok; exact Hn|].
  cbn [C_di C_do C_ui C_uo P_di P_do P_ui P_uo].
  assert (Hv : forall (v : list R -> R) (cond : R -> bool) blocks,
             (forall row, 0 <= v row) ->
             0 <= mc_estimate r T blocks (fun row => v row * mask cond row) /\
             0 <= mc_estimate r T blocks (fun row => v row * (1 - mask cond row))).
  { intros v cond blocks Hpos.
    split; apply mc_estimate_nonneg; intros rows row _ _;
      pose proof (mask_range cond row); pose proof (Hpos row);
      apply Rmult_le_pos; lra. }
  unfold mask_u, mask_d.
  split; [apply Hv; intros; apply payoffs_nonneg|].
  split; [apply Hv; intros; apply payoffs_nonneg|].
  split; [apply Hv; intros; apply payoffs_nonneg|].
  split; [apply Hv; intros; apply payoffs_nonneg|].
  split; [apply Hv; intros; apply payoffs_nonneg|].
  split; [apply Hv; intros; apply payoffs_nonneg|].
  split; [apply Hv; intros; apply payoffs_nonneg|].
  apply Hv; intros; apply payoffs_nonneg.
Qed.

Lemma barrier_mc_nonnegative_witness :
  0 <= 1 /\ (1 <= 2)%nat /\ (1 <= 3)%nat /\ (1 <= 4)%nat /\
  exists b,
    barrier_mc (fun i j k => INR (i + j + k) - 3) 50 50 60 70 1 0.04 0.02 0.3 2 3 4 true
    = Ok b /\
    0 <= C_di b /\ 0 <= C_do b /\ 0 <= C_ui b /\ 0 <= C_uo b /\
    0 <= P_di b /\ 0 <= P_do b /\ 0 <= P_ui b /\ 0 <= P_uo b.
Proof.
  assert (H2 : (1 <= 2)%nat) by lia.
  assert (H3 : (1 <= 3)%nat) by lia.
  assert (H4 : (1 <= 4)%nat) by lia.
  assert (HT : 0 <= 1) by lra.
  split; [exact HT|]. split; [exact H2|]. split; [exact H3|]. split; [exact H4|].
  exact (barrier_mc_nonnegative (fun i j k => INR (i + j + k) - 3)
           50 50 60 70 1 0.04 0.02 0.3 2 3 4 true HT H2 H3 H4).
Defined.

(** The two barrier adjustments act in opposite directions by the same
    factor: for [n] observations, the barrier that [barrier_analytical] uses
    with [n_obs = n] times the barrier that [barrier_mc] uses with
    [cts = True] and time step [T/n] is the square of the barrier given. *)
Theorem barrier_adjustments_reciprocal (H S0 sigma T : R) (n : Z) :
  0 <= T -> (0 < n)%Z ->
  adjusted_barrier H S0 sigma T n * mc_barrier H S0 sigma (T / IZR n) true = H * H.
Proof.
  intros _ Hn. unfold adjusted_barrier, mc_barrier.
  apply Z.ltb_lt in Hn. rewrite Hn.
  set (c := sign (H - S0) * 0.5826 * sigma * sqrt (T / IZR n)).
  replace (- sign (H - S0) * 0.5826 * sigma * sqrt (T / IZR n)) with (- c)
    by (unfold c; ring).
  replace (H * exp c * (H * exp (- c))) with (H * H * (exp c * exp (- c))) by ring.
  rewrite <- exp_plus, Rplus_opp_r, exp_0. ring.
Qed.

Lemma barrier_adjustments_reciprocal_witness :
  0 <= 1 /\ (0 < 250)%Z /\
  adjusted_barrier 70 50 0.3 1 250 * mc_barrier 70 50 0.3 (1 / IZR 250) true = 70 * 70.
Proof.
  assert (Hn : (0 < 250)%Z) by lia.
  assert (HT : 0 <= 1) by lra.
  split; [exact HT|]. split; [exact Hn|].
  exact (barrier_adjustments_reciprocal 70 50 0.3 1 250 HT Hn).
Defined.


